(** * xlb topic index: a shallow embedding of [xlb_rag_pipeline.py]

  The development follows the pipeline script bottom-up: Python text
  primitives, the markdown parser, the SQLite-backed node index with its
  LIKE fallback matcher, iterative search, the graph neighbour resolver,
  the visited-state files and the explore loop.

  A Python [str] is a sequence of Unicode code points, so it is modelled
  as [list N].  What the script takes from the Python runtime and that is
  a table rather than an algorithm ([str.lower], [html.unescape], SHA-1)
  is a field of the class [PyLib]. *)

From Stdlib Require Import Ascii String ZArith QArith Lia.
From stdpp Require Import base option list sorting gmap sets.

Local Open Scope N_scope.
Local Open Scope list_scope.

Abbreviation str := (list N).

(** ** Text primitives *)
Module Text.

(** A literal of the script, written as a Rocq string of ASCII
    characters. *)
Fixpoint lit (s : string) : str :=
  match s with
  | EmptyString => []
  | String a r => N_of_ascii a :: lit r
  end.

(** [Py_UNICODE_ISSPACE]: the characters [str.strip], [str.isspace] and the
    regular expression class [\s] treat as whitespace. *)
Definition is_space (c : N) : bool :=
  ((9 <=? c) && (c <=? 13)) || ((28 <=? c) && (c <=? 32))
  || (c =? 133) || (c =? 160) || (c =? 5760)
  || ((8192 <=? c) && (c <=? 8202))
  || (c =? 8232) || (c =? 8233) || (c =? 8239) || (c =? 8287)
  || (c =? 12288).

(** [not s] / [bool(s)] on a string. *)
Definition is_empty (s : str) : bool :=
  match s with [] => true | _ => false end.

(** [a or b] on strings. *)
Definition or_else (a b : str) : str := if is_empty a then b else a.

Fixpoint lstrip_with (p : N -> bool) (s : str) : str :=
  match s with
  | [] => []
  | c :: r => if p c then lstrip_with p r else s
  end.

Fixpoint rstrip_with (p : N -> bool) (s : str) : str :=
  match s with
  | [] => []
  | c :: r =>
      match rstrip_with p r with
      | [] => if p c then [] else [c]
      | r' => c :: r'
      end
  end.

Definition lstrip (s : str) : str := lstrip_with is_space s.
Definition rstrip (s : str) : str := rstrip_with is_space s.
Definition strip (s : str) : str := rstrip (lstrip s).

(** [s.rstrip(chars)] for a one-character [chars]. *)
Definition rstrip_char (c : N) (s : str) : str := rstrip_with (N.eqb c) s.

Fixpoint startswith (p s : str) : bool :=
  match p, s with
  | [], _ => true
  | _ :: _, [] => false
  | a :: p', b :: s' => (a =? b) && startswith p' s'
  end.

Definition endswith (p s : str) : bool := startswith (reverse p) (reverse s).

(** [c in s] for a one-character [c]. *)
Definition has_char (c : N) (s : str) : bool := existsb (N.eqb c) s.

(** [sub in s]. *)
Fixpoint contains (sub s : str) : bool :=
  startswith sub s || match s with [] => false | _ :: r => contains sub r end.

(** [s.index(c)], [None] when absent. *)
Fixpoint index_of (c : N) (s : str) : option nat :=
  match s with
  | [] => None
  | d :: r => if c =? d then Some 0%nat else S <$> index_of c r
  end.

(** [s.split(c)] for a one-character separator. *)
Fixpoint split_on (c : N) (s : str) : list str :=
  match s with
  | [] => [[]]
  | d :: r =>
      match split_on c r with
      | [] => [[d]]
      | w :: ws => if c =? d then [] :: w :: ws else (d :: w) :: ws
      end
  end.

(** [s.split(c, 1)]: the text before and after the first [c]. *)
Fixpoint split_once (c : N) (s : str) : option (str * str) :=
  match s with
  | [] => None
  | d :: r =>
      if c =? d then Some ([], r)
      else '(a, b) ← split_once c r; Some (d :: a, b)
  end.

(** [re.sub(r"\s+", " ", s)]: [in_run] tells that the previous character
    belonged to the whitespace run being replaced. *)
Fixpoint collapse_from (in_run : bool) (s : str) : str :=
  match s with
  | [] => []
  | c :: r =>
      if is_space c
      then (if in_run then collapse_from true r else 32 :: collapse_from true r)
      else c :: collapse_from false r
  end.
Definition collapse_ws (s : str) : str := collapse_from false s.

(** Line boundaries of [str.splitlines]. *)
Definition is_linebreak (c : N) : bool :=
  ((10 <=? c) && (c <=? 13)) || ((28 <=? c) && (c <=? 30))
  || (c =? 133) || (c =? 8232) || (c =? 8233).

(** [s.splitlines()]; [after_cr] tells that the previous character was a
    carriage return, whose following line feed belongs to the same break. *)
Fixpoint lines_from (after_cr : bool) (s : str) : list str :=
  match s with
  | [] => []
  | c :: r =>
      if after_cr && (c =? 10) then lines_from false r
      else if is_linebreak c then [] :: lines_from (c =? 13) r
      else match lines_from false r with
           | [] => [[c]]
           | l :: ls => (c :: l) :: ls
           end
  end.
Definition splitlines (s : str) : list str :=
  match s with
  | [] => []
  | c :: r =>
      if is_linebreak c then [] :: lines_from (c =? 13) r
      else lines_from false s
  end.

(** [re.sub(r"<[^>]+>", " ", s)]: a tag is ["<"], at least one character
    other than [">"], and the first [">"] after them.  [skip] counts the
    characters of the tag being replaced that are still to be dropped. *)
Fixpoint strip_tags_skip (skip : nat) (s : str) : str :=
  match s with
  | [] => []
  | c :: r =>
      match skip with
      | S n => strip_tags_skip n r
      | O =>
          if c =? 60 then
            match index_of 62 r with
            | Some (S k) => 32 :: strip_tags_skip (S (S k)) r
            | _ => c :: strip_tags_skip 0 r
            end
          else c :: strip_tags_skip 0 r
      end
  end.
Definition strip_tags (s : str) : str := strip_tags_skip 0 s.

(** Python compares strings by code point, lexicographically. *)
Fixpoint str_compare (a b : str) : comparison :=
  match a, b with
  | [], [] => Eq
  | [], _ :: _ => Lt
  | _ :: _, [] => Gt
  | x :: a', y :: b' =>
      match x ?= y with
      | Eq => str_compare a' b'
      | o => o
      end
  end.

(** Comparison of tuples: the first component that differs decides. *)
Definition lex (c1 c2 : comparison) : comparison :=
  match c1 with Eq => c2 | o => o end.

Definition not_gt (c : comparison) : bool :=
  match c with Gt => false | _ => true end.

Definition str_leb (a b : str) : bool := not_gt (str_compare a b).

(** [list.sort] and [sorted] are stable: an element is placed before the
    first later element that is not smaller. *)
Section Sort.
Context {A : Type} (le : A -> A -> bool).
Fixpoint insert_sorted (x : A) (l : list A) : list A :=
  match l with
  | [] => [x]
  | y :: l' => if le x y then x :: l else y :: insert_sorted x l'
  end.
Definition stable_sort (l : list A) : list A := foldr insert_sorted [] l.
End Sort.

(** [a < b] on the numbers the script holds as floats. *)
Definition Qltb (a b : Q) : bool := negb (Qle_bool b a).

(** What the script takes from the Python runtime as a table:
    [str.lower], [html.unescape] and the SHA-1 digest in hexadecimal. *)
Class PyLib := {
  lower : str -> str;
  lower_empty : lower [] = [];
  unescape : str -> str;
  sha1_hex : str -> str
}.

End Text.
Export Text.

(** ** The document parser *)
Module Parser.
Section WithLib.
Context `{PyLib}.

Record Node := mkNode {
  node_id : str;
  node_type : str;
  topic : str;
  section : str;
  title : str;
  content : str;
  url : str;
  query_cmd : str;
  query_exec_title : str;
  query_kind : str;
  query_source : str;
  source_title : str
}.

Definition _clean_label (text : str) : str :=
  strip (collapse_ws (unescape (strip_tags text))).

(** Every part is fed to the digest followed by a zero byte; the first 16
    hexadecimal digits are kept. *)
Definition _hash (parts : list str) : str :=
  take 16 (sha1_hex (concat ((fun p => p ++ [0]) <$> parts))).

Definition _split_url_and_anchor (text : str) : str * str :=
  let raw := strip text in
  match split_once 35 raw with
  | None => (raw, [])
  | Some (u, a) => (strip u, strip a)
  end.

Definition _join_section_path (section group : str) : str :=
  let base := strip section in
  let grp := strip group in
  if is_empty grp then or_else base (lit "root")
  else if is_empty base then grp
  else base ++ lit "/" ++ grp.

(** The text right after an opening parenthesis, against
    [\s*((?:\?\?|>{1,2})[^)]+)\s*\)]: the group runs from the marker to the
    first closing parenthesis and holds at least one character that is not
    part of the marker. *)
Definition directive_at (r : str) : option str :=
  let r1 := lstrip r in
  let marker :=
    if startswith (lit "??") r1 then Some 2%nat
    else if startswith (lit ">") r1 then Some 1%nat
    else None in
  match marker, index_of 41 r1 with
  | Some m, Some k => if (m <? k)%nat then Some (take k r1) else None
  | _, _ => None
  end.

(** [re.search(r"\(\s*((?:\?\?|>{1,2})[^)]+)\s*\)", s)]: group 1 of the
    leftmost match. *)
Fixpoint paren_directive (s : str) : option str :=
  match s with
  | [] => None
  | c :: r =>
      if c =? 40 then
        match directive_at r with
        | Some g => Some g
        | None => paren_directive r
        end
      else paren_directive r
  end.

Definition _normalize_query_exec_title (raw_query section fallback_title : str) : str :=
  let value := strip raw_query in
  let value :=
    if is_empty value then
      let v := strip fallback_title in
      if is_empty v then v else lit ">" ++ v
    else value in
  if is_empty value then []
  else
    let value :=
      match paren_directive value with
      | Some g => strip g
      | None => value
      end in
    let value :=
      if startswith (lit ">>") value then lit ">" ++ lstrip (drop 2 value)
      else value in
    if startswith (lit ">") value then
      let body := strip (drop 1 value) in
      if negb (is_empty body) && negb (has_char 47 body) && negb (endswith (lit "/") body)
      then lit ">" ++ body ++ lit "/"
      else if is_empty body then lit ">" else lit ">" ++ body
    else if startswith (lit "??") value then value
    else
      let sec := lower (strip section) in
      if startswith (lit "searchin") sec then
        let title := _clean_label fallback_title in
        if is_empty title then [] else lit ">" ++ title ++ lit "/"
      else [].

Definition _classify_query_kind (section exec_title : str) : str :=
  let sec := lower (strip section) in
  if startswith (lit "searchin") sec then lit "topic_nav"
  else if startswith (lit "command") sec then lit "kb_search"
  else if startswith (lit "??") exec_title then lit "topic_lookup"
  else if startswith (lit ">") exec_title then lit "query"
  else lit "unknown".

Definition _is_query_payload (payload_raw : str) : bool :=
  startswith (lit ">") payload_raw || startswith (lit ">>") payload_raw
  || startswith (lit "??") payload_raw
  || bool_decide (is_Some (paren_directive payload_raw)).

(** The loop variables of [parse_markdown_to_nodes]. *)
Record pstate := mkPstate {
  cur_topic : str;
  cur_section : str;
  current_group : str;
  pending_title : str
}.

Definition initial_pstate : pstate :=
  mkPstate [] (lit "root") [] [].

Definition is_http (s : str) : bool :=
  startswith (lit "http://") s || startswith (lit "https://") s.

(** One pass of the loop body: the next loop variables and the node the
    line appends, if any. *)
Definition parse_line (src : str) (st : pstate) (raw_line : str) : pstate * option Node :=
  let line := strip raw_line in
  let '(mkPstate topic section group pending) := st in
  if is_empty line then (st, None)
  else if startswith (lit "# ") line then
    (mkPstate (_clean_label (strip (drop 2 line))) section group pending, None)
  else if startswith (lit "## ") line then
    (mkPstate topic (_clean_label (rstrip_char 58 (strip (drop 3 line)))) [] [], None)
  else if startswith (lit "### ") line then
    let payload_raw := strip (drop 4 line) in
    let payload := _clean_label payload_raw in
    let section_path := _join_section_path section group in
    if is_http payload_raw then
      let '(url, anchor0) := _split_url_and_anchor payload_raw in
      let anchor := _clean_label anchor0 in
      let title := _clean_label (or_else pending (or_else anchor url)) in
      (mkPstate topic section group [],
       Some (mkNode (_hash [topic; section_path; lit "link"; title; url])
               (lit "link") (or_else topic (lit "unknown-topic")) section_path
               title (_clean_label (or_else anchor title)) url [] [] [] [] src))
    else if _is_query_payload payload_raw then
      let query_cmd := payload_raw in
      let exec_title := _normalize_query_exec_title query_cmd section pending in
      let kind := _classify_query_kind section exec_title in
      (mkPstate topic section group [],
       Some (mkNode (_hash [topic; section_path; lit "query"; query_cmd])
               (lit "query") (or_else topic (lit "unknown-topic")) section_path
               (_clean_label (or_else pending query_cmd))
               (_clean_label (section_path ++ lit " " ++ query_cmd))
               [] query_cmd exec_title kind (lower (strip section)) src))
    else
      let group_path := _join_section_path section payload in
      (mkPstate topic section payload payload,
       Some (mkNode (_hash [topic; group_path; lit "category"; payload])
               (lit "category") (or_else topic (lit "unknown-topic")) group_path
               payload (lit "category " ++ payload) [] [] [] [] [] src))
  else if startswith (lit "- http://") line || startswith (lit "- https://") line then
    let payload := strip (drop 2 line) in
    let '(url, anchor0) := _split_url_and_anchor payload in
    let anchor := _clean_label anchor0 in
    let title := _clean_label (or_else anchor (or_else pending url)) in
    let section_path := _join_section_path section group in
    (mkPstate topic section group [],
     Some (mkNode (_hash [topic; section_path; lit "link"; title; url])
             (lit "link") (or_else topic (lit "unknown-topic")) section_path
             title (_clean_label (section_path ++ lit " " ++ or_else anchor title))
             url [] [] [] [] src))
  else (st, None).

(** The loop over the lines, from given loop variables: the nodes
    appended, in order, and the loop variables at the end. *)
Fixpoint parse_lines (src : str) (st : pstate) (lines : list str) : list Node :=
  match lines with
  | [] => []
  | l :: ls =>
      let '(st', out) := parse_line src st l in
      match out with
      | Some n => n :: parse_lines src st' ls
      | None => parse_lines src st' ls
      end
  end.

Definition pstate_after (src : str) (st : pstate) (lines : list str) : pstate :=
  foldl (fun s l => fst (parse_line src s l)) st lines.

Definition parse_markdown_to_nodes (markdown source_title : str) : list Node :=
  parse_lines source_title initial_pstate (splitlines markdown).

(** A text that is empty or begins with one of the directive markers. *)
Definition directive_marked (s : str) : Prop :=
  s = [] \/ startswith (lit ">") s = true \/ startswith (lit "??") s = true.

(** A first-level heading that leaves the topic empty, or a line that is
    no first-level heading. *)
Definition keeps_topic_empty (l : str) : Prop :=
  startswith (lit "# ") (strip l) = true ->
  _clean_label (strip (drop 2 (strip l))) = [].

End WithLib.
End Parser.

(** ** The retrieval index *)
Module Index.
Import Parser.

(** *** The matcher of SQLite's [LIKE] operator

    [%] matches any run of characters, [_] any one character, every other
    character of the pattern matches itself up to the case of the ASCII
    letters.  The script never gives an [ESCAPE] character. *)
Definition ascii_fold (c : N) : N :=
  if (65 <=? c) && (c <=? 90) then c + 32 else c.

Fixpoint like (pat s : str) : bool :=
  match pat with
  | [] => is_empty s
  | p :: pat' =>
      if p =? 37 then
        (fix any (s : str) : bool :=
           like pat' s || match s with [] => false | _ :: s' => any s' end) s
      else
        match s with
        | [] => false
        | c :: s' => ((p =? 95) || (ascii_fold p =? ascii_fold c)) && like pat' s'
        end
  end.

(** [LIMIT n]: a negative [n] means no limit. *)
Definition sql_limit {A} (n : Z) (rows : list A) : list A :=
  if (n <? 0)%Z then rows else take (Z.to_nat n) rows.

(** [ORDER BY length(content) ASC]; rows of equal length stay in rowid
    order. *)
Definition order_by_content_length (rows : list Node) : list Node :=
  stable_sort (fun a b => (length (content a) <=? length (content b))%nat) rows.

(** [[A-Za-z0-9一-鿿]]. *)
Definition is_token_char (c : N) : bool :=
  ((65 <=? c) && (c <=? 90)) || ((97 <=? c) && (c <=? 122))
  || ((48 <=? c) && (c <=? 57)) || ((19968 <=? c) && (c <=? 40959)).

(** [re.findall(r"[A-Za-z0-9一-鿿]+", s)]: the maximal runs. *)
Fixpoint token_runs (s : str) : list str :=
  match s with
  | [] => []
  | c :: r =>
      if is_token_char c then
        match r with
        | d :: _ =>
            if is_token_char d then
              match token_runs r with
              | w :: ws => (c :: w) :: ws
              | [] => [[c]]
              end
            else [c] :: token_runs r
        | [] => [[c]]
        end
      else token_runs r
  end.

(** The six text columns a token is matched against. *)
Definition text_fields (r : Node) : list str :=
  [title r; section r; content r; topic r; query_exec_title r; query_cmd r].

Definition like_pattern (t : str) : str := lit "%" ++ t ++ lit "%".

(** The [WHERE] clause built from the tokens. *)
Definition like_clause (tokens : list str) (r : Node) : bool :=
  existsb (fun t => existsb (like (like_pattern t)) (text_fields r)) tokens.

(** A database file: the rows of [nodes] in rowid order, and whether the
    side table [nodes_fts] exists. *)
Record db := mkDb { nodes : list Node; has_fts : bool }.

(** A query result row with the tag [search_index] puts on it. *)
Record hit := mkHit { hit_node : Node; match_type : str }.

(** The full-text engine: the rows [MATCH] selects in [bm25] order, or
    [None] when the engine raises [OperationalError]. *)
Class Fts := fts_query : list Node -> str -> Z -> option (list Node).

Section WithLib.
Context `{PyLib} `{Fts}.

(** The loop of [build_index] from a given set of seen ids and the rows
    already stored. *)
Fixpoint insert_nodes (seen_ids : gset str) (rows : list Node) (input : list Node)
  : list Node :=
  match input with
  | [] => rows
  | node :: rest =>
      if decide (node_id node ∈ seen_ids) then insert_nodes seen_ids rows rest
      else insert_nodes ({[node_id node]} ∪ seen_ids) (rows ++ [node]) rest
  end.

(** [fts_created] is what [_create_tables] returns. *)
Definition build_index (fts_created : bool) (input : list Node) : db :=
  mkDb (insert_nodes ∅ [] input) fts_created.

(** The loop of [_prepare_search_tokens] over the candidate tokens. *)
Fixpoint uniq_tokens (seen : gset str) (tokens : list str) : list str :=
  match tokens with
  | [] => []
  | token :: rest =>
      let value := strip token in
      if (length value <? 2)%nat then uniq_tokens seen rest
      else
        let key := lower value in
        if decide (key ∈ seen) then uniq_tokens seen rest
        else value :: uniq_tokens ({[key]} ∪ seen) rest
  end.

Definition _prepare_search_tokens (text : str) : list str :=
  let raw := strip text in
  if is_empty raw then [] else uniq_tokens ∅ (raw :: token_runs raw).

Definition _search_with_like_tokens (rows : list Node) (query : str) (limit : Z)
  : list Node :=
  let uniq := _prepare_search_tokens query in
  if bool_decide (uniq = []) then []
  else sql_limit limit (order_by_content_length (filter (fun r => like_clause uniq r) rows)).

(** The rows [_append_section_children] reads for one topic and section. *)
Definition section_children (rows : list Node) (topic_name section_name : str)
    (per_section_limit : Z) : list Node :=
  sql_limit (Z.max 1 per_section_limit)
    (order_by_content_length
       (filter (fun r => topic r = topic_name ∧ section r = section_name
                         ∧ node_type r ≠ lit "category") rows)).

(** The loop of [_append_section_children] over the rows read: the set of
    seen ids and the merged hits after it. *)
Fixpoint append_children (mt : str) (children : list Node)
    (acc : gset str * list hit) : gset str * list hit :=
  match children with
  | [] => acc
  | row :: rest =>
      let '(seen_ids, merged) := acc in
      if is_empty (node_id row) || bool_decide (node_id row ∈ seen_ids)
      then append_children mt rest acc
      else append_children mt rest
             ({[node_id row]} ∪ seen_ids, merged ++ [mkHit row mt])
  end.

Definition _append_section_children (rows : list Node) (per_section_limit : Z)
    (mt : str) (acc : gset str * list hit) (key : str * str) : gset str * list hit :=
  let '(topic_name, section_name) := key in
  if is_empty section_name || is_empty topic_name then acc
  else append_children mt
         (section_children rows topic_name section_name per_section_limit) acc.

Definition key_leb (a b : str * str) : bool :=
  not_gt (lex (str_compare a.1 b.1) (str_compare a.2 b.2)).

Definition topic_section (h : hit) : str * str :=
  (topic (hit_node h), section (hit_node h)).

(** The direct rows: the full-text matcher when it is there and the query
    is not blank, the [LIKE] matcher when it fails or finds nothing. *)
Definition direct_rows (d : db) (query : str) (limit : Z) : list Node :=
  if has_fts d && negb (is_empty (strip query)) then
    match fts_query (nodes d) query limit with
    | None => _search_with_like_tokens (nodes d) query limit
    | Some rows =>
        if bool_decide (rows = []) then _search_with_like_tokens (nodes d) query limit
        else rows
    end
  else _search_with_like_tokens (nodes d) query limit.

Definition search_index (d : db) (query : str) (limit : Z)
    (expand_categories : bool) (expand_limit_per_category : Z)
    (expand_related_sections : bool) (related_limit_per_section : Z) : list hit :=
  let hits := (fun r => mkHit r (lit "direct")) <$> direct_rows d query limit in
  if negb expand_categories then hits
  else
    let category_keys :=
      topic_section <$>
        filter (fun h => node_type (hit_node h) = lit "category") hits in
    let seen_ids : gset str := list_to_set ((fun h => node_id (hit_node h)) <$> hits) in
    let acc :=
      foldl (_append_section_children (nodes d) expand_limit_per_category
               (lit "category_child")) (seen_ids, hits) category_keys in
    if expand_related_sections then
      let related_keys :=
        stable_sort key_leb
          (remove_dups (topic_section <$>
             filter (fun h => node_type (hit_node h) = lit "link") hits)) in
      (foldl (_append_section_children (nodes d) related_limit_per_section
                (lit "section_related")) acc related_keys).2
    else acc.2.

(** The defaults of [search_index], as [iterative_search] calls it. *)
Definition search_index_default (d : db) (query : str) (limit : Z) : list hit :=
  search_index d query limit true 200 true 20.

(** *** Iterative search *)

Record round := mkRound {
  iteration : nat;
  round_query : str;
  round_hits : nat;
  new_hits : nat;
  gain : Q;
  expanded_queries : list str;
  top_titles : list str
}.

Record search_report := mkReport {
  seed_query : str;
  iterations : nat;
  stop_reason : str;
  unique_hits : nat;
  rounds : list round;
  frontier_remaining : nat
}.

(** The loop variables of [iterative_search]. *)
Record istate := mkIstate {
  frontier : list str;
  seen_node_ids : gset str;
  seen_query_cmds : gset str;
  ledger : list round;
  low_gain_streak : Z
}.

Definition add_seen_ids (seen : gset str) (hs : list hit) : gset str :=
  foldl (fun s h => if is_empty (node_id (hit_node h)) then s
                    else {[node_id (hit_node h)]} ∪ s) seen hs.

(** The loop that harvests follow-up commands from the query hits: the
    seen commands, the frontier and the commands added, after it. *)
Fixpoint follow_queries (hs : list hit) (acc : gset str * list str * list str)
  : gset str * list str * list str :=
  match hs with
  | [] => acc
  | h :: rest =>
      let '(seen_cmds, fr, expanded) := acc in
      if bool_decide (node_type (hit_node h) ≠ lit "query") then follow_queries rest acc
      else
        let cmd := strip (query_cmd (hit_node h)) in
        if is_empty cmd || bool_decide (cmd ∈ seen_cmds) then follow_queries rest acc
        else follow_queries rest ({[cmd]} ∪ seen_cmds, fr ++ [cmd], expanded ++ [cmd])
  end.

(** One pass of the loop body, for a non-empty frontier: the loop
    variables after it and the stop reason when the pass ends in [break]. *)
Definition search_round (d : db) (limit : Z) (gain_threshold : Q)
    (low_gain_rounds : Z) (follow_query_nodes : bool)
    (current_query : str) (st : istate) : istate * option str :=
  let hits := search_index_default d current_query limit in
  let fresh := filter (fun h => node_id (hit_node h) ∉ seen_node_ids st) hits in
  let seen_ids := add_seen_ids (seen_node_ids st) fresh in
  let '(seen_cmds, fr, expanded) :=
    if follow_query_nodes
    then follow_queries hits (seen_query_cmds st, frontier st, [])
    else (seen_query_cmds st, frontier st, []) in
  let g : Q :=
    if (0 <? limit)%Z
    then (inject_Z (Z.of_nat (length fresh)) / inject_Z limit)%Q else 0%Q in
  let entry :=
    mkRound (length (ledger st) + 1) current_query (length hits) (length fresh) g
      expanded ((fun h => title (hit_node h)) <$> take 3 hits) in
  let ledger' := ledger st ++ [entry] in
  if bool_decide (hits = []) then
    (mkIstate fr seen_ids seen_cmds ledger' (low_gain_streak st), Some (lit "no_hits"))
  else
    let streak := if Qltb g gain_threshold then (low_gain_streak st + 1)%Z else 0%Z in
    (mkIstate fr seen_ids seen_cmds ledger' streak,
     if (low_gain_rounds <=? streak)%Z then Some (lit "low_gain") else None).

(** [for _ in range(n)]: the loop variables and the stop reason at the
    end. *)
Fixpoint search_loop (d : db) (limit : Z) (gain_threshold : Q)
    (low_gain_rounds : Z) (follow_query_nodes : bool)
    (n : nat) (st : istate) : istate * str :=
  match n with
  | O => (st, lit "max_iter")
  | S n' =>
      match frontier st with
      | [] => (st, lit "no_frontier")
      | current_query :: fr =>
          let st0 := mkIstate fr (seen_node_ids st) (seen_query_cmds st)
                       (ledger st) (low_gain_streak st) in
          match search_round d limit gain_threshold low_gain_rounds
                  follow_query_nodes current_query st0 with
          | (st', Some reason) => (st', reason)
          | (st', None) =>
              search_loop d limit gain_threshold low_gain_rounds
                follow_query_nodes n' st'
          end
      end
  end.

Definition iterative_search (d : db) (query : str) (limit max_iter : Z)
    (gain_threshold : Q) (low_gain_rounds : Z) (follow_query_nodes : bool)
  : search_report :=
  let seed := strip query in
  if is_empty seed then mkReport query 0 (lit "empty_query") 0 [] 0
  else
    let '(st, reason) :=
      search_loop d limit gain_threshold low_gain_rounds follow_query_nodes
        (Z.to_nat max_iter) (mkIstate [seed] ∅ ∅ [] 0) in
    mkReport seed (length (ledger st)) reason (size (seen_node_ids st))
      (ledger st) (length (frontier st)).

End WithLib.
End Index.

(** ** Canonical keys and the graph neighbour resolver *)
Module Graph.

(** The text after the three letters of [^[Xx][Ll][Bb]]. *)
Definition xlb_prefix (text : str) : option str :=
  match text with
  | x :: l :: b :: r =>
      if ((x =? 88) || (x =? 120)) && ((l =? 76) || (l =? 108))
         && ((b =? 66) || (b =? 98))
      then Some r else None
  | _ => None
  end.

(** [re.match(r"^[Xx][Ll][Bb]\s+", text)]. *)
Definition is_xlb_command (text : str) : bool :=
  match xlb_prefix text with
  | Some (c :: _) => is_space c
  | _ => false
  end.

(** Group 1 of [re.match(r"^[Xx][Ll][Bb]\s+(.+)$", text)] for a [text]
    that does not end in whitespace, as [str.strip] leaves it at every
    call: the group is what follows the whitespace run, and there is no
    match when a line feed occurs in it. *)
Definition xlb_payload (text : str) : option str :=
  match xlb_prefix text with
  | Some (c :: r) =>
      if is_space c then
        let rest := lstrip r in
        if is_empty rest || has_char 10 rest then None else Some rest
      else None
  | _ => None
  end.

(** [re.sub(r"\s*主题\s*$", "", s)] for an [s] that does not end in
    whitespace. *)
Definition strip_topic_suffix (s : str) : str :=
  if endswith [20027; 39064] s then rstrip (take (length s - 2) s) else s.

(** [None] stands for the [ValueError] the function raises. *)
Definition resolve_title_from_input (raw_input : str) : option str :=
  let text := strip raw_input in
  if is_empty text then None
  else if startswith (lit ">") text then Some text
  else
    match xlb_payload text with
    | Some g =>
        let payload := strip g in
        if is_empty payload then None else Some payload
    | None =>
        match (if startswith [26597; 35810] text
               then xlb_payload (lstrip (drop 2 text)) else None) with
        | Some g =>
            let topic := strip_topic_suffix (strip g) in
            if is_empty topic then None else Some (lit ">" ++ topic ++ lit "/")
        | None => Some text
        end
    end.

Definition root_topic_from_title (raw_title : str) : str :=
  let text := strip raw_title in
  if is_empty text then []
  else
    match (if is_xlb_command text then resolve_title_from_input text else Some text) with
    | None => []
    | Some text =>
        let text :=
          if startswith (lit "->") text then lstrip (drop 2 text)
          else if startswith (lit ">") text then lstrip (drop 1 text)
          else if startswith (lit "??") text then lstrip (drop 2 text)
          else text in
        let text := strip (rstrip_char 58 text) in
        if is_empty text then []
        else
          match filter (fun p => p ≠ []) (strip <$> split_on 47 text) with
          | [] => []
          | p :: _ => p
          end
    end.

Definition _to_input_from_exec_title (exec_title : str) : str :=
  let value := strip exec_title in
  if is_empty value then []
  else if is_xlb_command value then value
  else if startswith (lit ">") value || startswith (lit "??") value
  then lit "xlb " ++ value
  else lit "xlb >" ++ value.

(** [value[:-1].rstrip()] when [value] ends in a colon. *)
Definition drop_trailing_colon (value : str) : str :=
  if endswith (lit ":") value then rstrip (take (length value - 1) value) else value.

Section WithLib.
Context `{PyLib}.

Definition _canonical_edge_key (exec_title : str) : str :=
  lower (drop_trailing_colon (strip exec_title)).

Definition _canonical_topic_key (value : str) : str :=
  rstrip_char 47 (collapse_ws (lower (strip value))).

Definition _canonical_exec_title_key (value : str) : str :=
  let text := drop_trailing_colon (strip value) in
  if is_empty text then []
  else
    let text := if startswith (lit "->") text then lit ">" ++ lstrip (drop 2 text) else text in
    let text := if startswith (lit ">>") text then lit ">" ++ lstrip (drop 2 text) else text in
    if startswith (lit ">") text then
      let body := _canonical_topic_key (drop 1 text) in
      if is_empty body then lit ">" else lit ">" ++ body
    else if startswith (lit "??") text then
      let body := _canonical_topic_key (drop 2 text) in
      if is_empty body then lit "??" else lit "??" ++ body
    else _canonical_topic_key text.

Definition _normalize_graph_target_title (raw : str) : str :=
  let text := drop_trailing_colon (strip raw) in
  let text := if startswith (lit "->") text then lit ">" ++ lstrip (drop 2 text) else text in
  let text := drop_trailing_colon text in
  let normalized := Parser._normalize_query_exec_title text [] [] in
  if negb (is_empty normalized) then normalized
  else if startswith (lit ">") text || startswith (lit "??") text then text
  else if is_empty text then [] else lit ">" ++ text.

Definition _topic_key_from_exec_title (exec_title : str) : str :=
  let text := drop_trailing_colon (strip exec_title) in
  if negb (startswith (lit ">") text) then []
  else _canonical_topic_key (drop 1 text).

(** A row of [collect_query_edges_from_index_dir]. *)
Record Edge := mkEdge {
  e_topic : str;
  e_section : str;
  e_title : str;
  e_query_cmd : str;
  e_query_exec_title : str;
  e_query_kind : str;
  e_query_source : str
}.

(** An entry of [by_topic]. *)
Record upstream := mkUpstream {
  u_topic : str;
  u_count : Z;
  u_samples : list str
}.

Record neighbors := mkNeighbors {
  target_exec_title : str;
  canonical_target : str;
  upstream_topics : list upstream;
  inbound_edges : list Edge;
  outbound_edges : list Edge;
  upstream_followups : list str;
  outbound_followups : list str
}.

Definition inbound_leb (a b : Edge) : bool :=
  not_gt (lex (str_compare (lower (e_topic a)) (lower (e_topic b)))
              (str_compare (lower (e_query_source a)) (lower (e_query_source b)))).

Definition outbound_leb (a b : Edge) : bool :=
  not_gt (lex (str_compare (lower (e_query_kind a)) (lower (e_query_kind b)))
              (str_compare (lower (e_query_exec_title a)) (lower (e_query_exec_title b)))).

Definition upstream_leb (a b : upstream) : bool :=
  not_gt (lex (Z.compare (- u_count a) (- u_count b))
              (str_compare (lower (u_topic a)) (lower (u_topic b)))).

(** The topic an inbound edge is counted under. *)
Definition referring_topic (e : Edge) : str :=
  or_else (strip (e_topic e)) (lit "unknown-topic").

(** The body of the aggregation loop on an entry: one more edge, and its
    command as a sample when it is new and fewer than 3 are kept. *)
Definition count_edge (cmd : str) (u : upstream) : upstream :=
  mkUpstream (u_topic u) (u_count u + 1)
    (if negb (is_empty cmd) && bool_decide (cmd ∉ u_samples u)
        && (length (u_samples u) <? 3)%nat
     then u_samples u ++ [cmd] else u_samples u).

(** [by_topic.setdefault(topic, ...)] followed by the update of the entry;
    the dictionary keeps its keys in insertion order. *)
Fixpoint bump (topic cmd : str) (by_topic : list upstream) : list upstream :=
  match by_topic with
  | [] => [count_edge cmd (mkUpstream topic 0 [])]
  | u :: rest =>
      if decide (u_topic u = topic) then count_edge cmd u :: rest
      else u :: bump topic cmd rest
  end.

Definition aggregate (inbound : list Edge) : list upstream :=
  foldl (fun acc e => bump (referring_topic e) (strip (e_query_cmd e)) acc) [] inbound.

(** The loop that derives the outbound follow-up inputs. *)
Fixpoint outbound_inputs (seen_out : gset str) (outbound : list Edge) : list str :=
  match outbound with
  | [] => []
  | e :: rest =>
      let exec_title := strip (e_query_exec_title e) in
      if is_empty exec_title then outbound_inputs seen_out rest
      else
        let inp := _to_input_from_exec_title exec_title in
        let key := lower inp in
        if decide (key ∈ seen_out) then outbound_inputs seen_out rest
        else inp :: outbound_inputs ({[key]} ∪ seen_out) rest
  end.

Definition slice_cap (limit : Z) : nat := Z.to_nat (Z.max 1 limit).

Definition graph_neighbors_from_edges (edges : list Edge) (target_title : str)
    (limit : Z) : neighbors :=
  let normalized_target := _normalize_graph_target_title target_title in
  let canonical := _canonical_exec_title_key normalized_target in
  let inbound :=
    filter (fun e => _canonical_exec_title_key (e_query_exec_title e) = canonical) edges in
  let topic_key := _topic_key_from_exec_title normalized_target in
  let outbound :=
    filter (fun e => topic_key ≠ [] ∧ _canonical_topic_key (e_topic e) = topic_key) edges in
  let inbound := take (slice_cap limit) (stable_sort inbound_leb inbound) in
  let outbound := take (slice_cap limit) (stable_sort outbound_leb outbound) in
  let tops := stable_sort upstream_leb (aggregate inbound) in
  let ups :=
    omap (fun t => let name := strip (u_topic t) in
                   if is_empty name then None else Some (lit "xlb >" ++ name ++ lit "/"))
         tops in
  mkNeighbors normalized_target canonical tops inbound outbound
    (take 20 ups) (take 20 (outbound_inputs ∅ outbound)).

End WithLib.
End Graph.

(** ** The visited-state files *)
Module Visited.
Import Graph.

(** An element of a JSON array: a string, or any other value, kept as the
    text [str] gives for it. *)
Inductive jitem := JStr (s : str) | JOther (shown : str).

Definition py_str (x : jitem) : str :=
  match x with JStr s => s | JOther t => t end.

(** The value under a key of a JSON object: an array or anything else. *)
Inductive jvalue := JList (xs : list jitem) | JNotList.

(** A JSON document: an array, an object or anything else. *)
Inductive payload :=
| PList (xs : list jitem)
| PDict (fields : gmap str jvalue)
| POther.

(** What reading and decoding a file gives. *)
Inductive file := Unparseable | Parsed (p : payload).

Section WithLib.
Context `{PyLib}.

(** The items of a decoded document: the document itself when it is an
    array, the array under [key] when it is an object. *)
Definition visited_items (key : str) (p : payload) : list str :=
  match p with
  | PList xs => py_str <$> xs
  | PDict fields =>
      match fields !! key with
      | Some (JList raw) => py_str <$> raw
      | _ => []
      end
  | POther => []
  end.

Definition load_visited (canon : str -> str) (key : str)
    (disk : gmap str file) (path : str) : gset str :=
  if is_empty path then ∅
  else
    match disk !! path with
    | Some (Parsed p) =>
        list_to_set (canon <$> filter (fun x => strip x ≠ []) (visited_items key p))
    | _ => ∅
    end.

Definition load_visited_exec_titles (disk : gmap str file) (path : str) : gset str :=
  load_visited _canonical_edge_key (lit "visited_exec_titles") disk path.


(** The document [save_visited_*] writes when iterating over the set
    yields its keys in the order [keys]. *)
Definition visited_document (key : str) (keys : list str) : payload :=
  PDict (<[key := JList (JStr <$> stable_sort str_leb (filter (fun k => k ≠ []) keys))]>
           (<[lit "updated_at" := JNotList]> ∅)).

(** The document goes to [path + ".tmp"], which then replaces [path]. *)
Definition save_visited (key : str) (disk : gmap str file) (path : str)
    (keys : gset str) : gmap str file :=
  let doc := Parsed (visited_document key (elements keys)) in
  let tmp := path ++ lit ".tmp" in
  <[path := doc]> (delete tmp (<[tmp := doc]> disk)).

Definition save_visited_exec_titles := save_visited (lit "visited_exec_titles").

End WithLib.
End Visited.

(** ** The explore loop *)
Module Explore.
Import Graph.

(** An entry of a navigation payload. *)
Record NavItem := mkNavItem {
  nav_title : str;
  nav_query_kind : str;
  nav_query_source : str;
  nav_query_cmd : str;
  nav_query_exec_title : str
}.

Record Nav := mkNav {
  topic_navigation : list NavItem;
  knowledge_search : list NavItem;
  other_queries : list NavItem
}.

(** The empty dictionary read as a payload. *)
Definition empty_nav : Nav := mkNav [] [] [].

(** A record of [build_explore_candidates]. *)
Record Candidate := mkCandidate {
  c_title : str;
  c_query_kind : str;
  c_query_source : str;
  c_query_cmd : str;
  c_query_exec_title : str;
  c_input : str;
  c_source : str;
  c_priority : Z;
  c_topic_key : str
}.

Fixpoint interleave {A} (a b : list A) : list A :=
  match a, b with
  | [], _ => b
  | _, [] => a
  | x :: a', y :: b' => x :: y :: interleave a' b'
  end.

Section WithLib.
Context `{PyLib}.

Definition kind_or_unknown (item : NavItem) : str :=
  or_else (strip (nav_query_kind item)) (lit "unknown").

Definition source_or_unknown (item : NavItem) : str :=
  or_else (strip (nav_query_source item)) (lit "unknown").

(** The dedup loop of [build_navigation_candidates]. *)
Fixpoint dedup_nav (seen : gset (str * str * str)) (ordered : list NavItem)
  : list NavItem :=
  match ordered with
  | [] => []
  | item :: rest =>
      let exec_title := strip (nav_query_exec_title item) in
      if is_empty exec_title then dedup_nav seen rest
      else
        let key := (kind_or_unknown item, source_or_unknown item,
                    _canonical_edge_key exec_title) in
        if decide (key ∈ seen) then dedup_nav seen rest
        else item :: dedup_nav ({[key]} ∪ seen) rest
  end.

Definition build_navigation_candidates (nav : Nav) (strategy : str)
    (include_other_queries : bool) : list NavItem :=
  let ordered :=
    if bool_decide (strategy = lit "search_first")
    then knowledge_search nav ++ topic_navigation nav
    else if bool_decide (strategy = lit "mixed")
    then interleave (topic_navigation nav) (knowledge_search nav)
    else topic_navigation nav ++ knowledge_search nav in
  let ordered := if include_other_queries then ordered ++ other_queries nav else ordered in
  dedup_nav ∅ ordered.

(** [source_priority.get(source, 9)] for the table [edge_strategy]
    selects. *)
Definition source_priority (edge_strategy source : str) : Z :=
  if bool_decide (edge_strategy = lit "command_searchin_backlink") then
    if bool_decide (source = lit "command_section") then 0
    else if bool_decide (source = lit "searchin_section") then 1
    else if bool_decide (source = lit "backlink") then 2 else 9
  else if bool_decide (edge_strategy = lit "mixed_backlink") then
    if bool_decide (source = lit "searchin_section") then 0
    else if bool_decide (source = lit "command_section") then 0
    else if bool_decide (source = lit "backlink") then 1 else 9
  else
    if bool_decide (source = lit "searchin_section") then 0
    else if bool_decide (source = lit "command_section") then 1
    else if bool_decide (source = lit "backlink") then 2 else 9.

Definition topic_level (kind : str) : bool :=
  bool_decide (kind = lit "topic_nav") || bool_decide (kind = lit "backlink").

Section Candidates.
Variables (visited_exec visited_topics : gset str) (edge_strategy : str).

(** The loop of [_append_nav] over the navigation candidates: the keys
    seen and the records collected, after it. *)
Fixpoint append_nav_items (source : str) (items : list NavItem)
    (acc : gset str * list Candidate) : gset str * list Candidate :=
  match items with
  | [] => acc
  | item :: rest =>
      let '(seen_exec, out) := acc in
      let exec_title := strip (nav_query_exec_title item) in
      if is_empty exec_title then append_nav_items source rest acc
      else
        let exec_key := _canonical_edge_key exec_title in
        if is_empty exec_key || bool_decide (exec_key ∈ seen_exec)
           || bool_decide (exec_key ∈ visited_exec)
        then append_nav_items source rest acc
        else
          let topic_key := _canonical_topic_key (root_topic_from_title exec_title) in
          let kind := kind_or_unknown item in
          if topic_level kind && negb (is_empty topic_key)
             && bool_decide (topic_key ∈ visited_topics)
          then append_nav_items source rest acc
          else
            append_nav_items source rest
              ({[exec_key]} ∪ seen_exec,
               out ++ [mkCandidate (nav_title item) kind (source_or_unknown item)
                         (strip (nav_query_cmd item)) exec_title
                         (_to_input_from_exec_title exec_title) source
                         (source_priority edge_strategy source) topic_key])
  end.

Definition _append_nav (include_other_queries : bool) (nav : Nav) (source : str)
    (acc : gset str * list Candidate) : gset str * list Candidate :=
  append_nav_items source
    (build_navigation_candidates nav (lit "topic_first") include_other_queries) acc.

Fixpoint _append_backlinks (inputs : list str) (acc : gset str * list Candidate)
  : gset str * list Candidate :=
  match inputs with
  | [] => acc
  | inp :: rest =>
      let '(seen_exec, out) := acc in
      let text := strip inp in
      if is_empty text then _append_backlinks rest acc
      else
        let title := default text (resolve_title_from_input text) in
        let exec_key := _canonical_edge_key title in
        if is_empty exec_key || bool_decide (exec_key ∈ seen_exec)
           || bool_decide (exec_key ∈ visited_exec)
        then _append_backlinks rest acc
        else
          let topic_key := _canonical_topic_key (root_topic_from_title title) in
          if negb (is_empty topic_key) && bool_decide (topic_key ∈ visited_topics)
          then _append_backlinks rest acc
          else
            _append_backlinks rest
              ({[exec_key]} ∪ seen_exec,
               out ++ [mkCandidate (root_topic_from_title title) (lit "backlink")
                         (lit "graph") [] title (_to_input_from_exec_title title)
                         (lit "backlink") (source_priority edge_strategy (lit "backlink"))
                         topic_key])
  end.

Definition candidate_leb (a b : Candidate) : bool :=
  not_gt (lex (Z.compare (c_priority a) (c_priority b))
           (lex (str_compare (lower (c_query_kind a)) (lower (c_query_kind b)))
                (str_compare (lower (c_query_exec_title a))
                             (lower (c_query_exec_title b))))).

(** The list [out] before it is sorted and cut. *)
Definition candidate_pool (searchin_navigation command_navigation : Nav)
    (backlink_inputs : list str) (include_other_queries : bool) : list Candidate :=
  (_append_backlinks backlink_inputs
     (_append_nav include_other_queries command_navigation (lit "command_section")
        (_append_nav include_other_queries searchin_navigation (lit "searchin_section")
           (∅, [])))).2.

Definition build_explore_candidates (searchin_navigation command_navigation : Nav)
    (backlink_inputs : list str) (include_other_queries : bool)
    (max_candidates : Z) : list Candidate :=
  take (Z.to_nat (Z.max 1 max_candidates))
    (stable_sort candidate_leb
       (candidate_pool searchin_navigation command_navigation backlink_inputs
          include_other_queries)).

End Candidates.

(** *** The collaborators *)

(** [parsed_output] when it is a dictionary. *)
Record Parsed := mkParsed {
  p_title : str;
  p_db_path : str;
  p_meta_file : str;
  p_navigation_payload : option Nav
}.

(** What [run_fn] returns; [r_returncode] is 1 when the key is absent and
    [r_parsed] is [None] when [parsed_output] is not a dictionary. *)
Record RunResult := mkRunResult {
  r_returncode : Z;
  r_stderr : str;
  r_parsed : option Parsed
}.

(** The world outside the loop.  Every call of a collaborator may change
    it; the clock and the file system are read from it. *)
Class Collaborators (World : Type) := {
  (** [run_fn(input_text=..., output_mode="json", storage_profile=...,
      network_confirmed=...)] *)
  run_impl : World -> str -> str -> bool -> RunResult * World;
  (** [graph_fn(index_dir, target, limit=..., query_filter=...)]: the
      [follow_up_inputs.upstream_topics] of the result, as [str] gives
      them; the empty list when the result has none. *)
  graph_impl : World -> str -> str -> Z -> str -> list str * World;
  (** [time.monotonic()] *)
  monotonic : World -> Q * World;
  (** the [navigation_json] entry of the metadata file at a path, empty
      when the file cannot be read *)
  meta_navigation_json : World -> str -> str;
  (** the navigation file at a path: [None] when it does not exist, the
      empty payload when it cannot be decoded *)
  read_navigation : World -> str -> option Nav;
  (** [str(Path(p).parent)] and whether that directory exists *)
  path_parent : str -> str;
  dir_exists : World -> str -> bool
}.

Section Loop.
Context {World : Type} `{Collaborators World}.

Definition _navigation_from_run_result (w : World) (run_result : RunResult)
  : Nav * str * str :=
  match r_parsed run_result with
  | None => (empty_nav, [], [])
  | Some parsed =>
      match p_navigation_payload parsed with
      | Some nav => (nav, strip (p_meta_file parsed), [])
      | None =>
          let meta_file := strip (p_meta_file parsed) in
          if is_empty meta_file then (empty_nav, [], [])
          else
            let nav_file := strip (meta_navigation_json w meta_file) in
            if is_empty nav_file then (empty_nav, meta_file, [])
            else
              match read_navigation w nav_file with
              | None => (empty_nav, meta_file, nav_file)
              | Some nav => (nav, meta_file, nav_file)
              end
      end
  end.

Definition _normalize_seed_input (seed_input : str) : str :=
  let text := strip seed_input in
  if is_empty text then []
  else if is_xlb_command text then text
  else _to_input_from_exec_title (default text (resolve_title_from_input text)).

(** An item of the frontier. *)
Record QItem := mkQItem { q_input : str; q_depth : Z; q_via : str }.

Record Enqueued := mkEnqueued {
  en_input : str;
  en_query_exec_title : str;
  en_query_kind : str;
  en_source : str
}.

(** A record of the trace.  [hop_returncode] is [None] on a hop that made
    no collaborator call. *)
Record Hop := mkHop {
  hop_input : str;
  hop_depth : Z;
  hop_via : str;
  hop_status : str;
  hop_resolved_title : str;
  hop_root_topic : str;
  hop_returncode : option Z;
  hop_candidate_count : nat;
  hop_enqueued : list Enqueued
}.

(** The budgets and switches of a run. *)
Record Config := mkConfig {
  max_steps : Z;
  max_depth : Z;
  max_seconds : Q;
  edge_strategy : str;
  include_backlinks : bool;
  include_other_queries : bool;
  max_branching : Z;
  backlink_limit : Z;
  backlink_filter : str;
  storage_profile : str;
  network_confirmed : bool;
  index_dir : str
}.

(** The loop variables, with the world and three records that the script
    does not keep: the inputs of the calls made to [run_fn], the number of
    calls made to [graph_fn], and the readings of the clock taken at the
    head of the loop. *)
Record LoopState := mkLoopState {
  world : World;
  queue : list QItem;
  visited_exec : gset str;
  visited_topics : gset str;
  trace : list Hop;
  steps_executed : Z;
  aux_fetch_count : Z;
  run_calls : list str;
  graph_calls : nat;
  clock_reads : list Q
}.

Record Report := mkExploreReport {
  rep_status : str;
  rep_steps_executed : Z;
  rep_aux_fetch_count : Z;
  rep_stop_reason : str;
  rep_frontier_remaining : nat;
  rep_queue : list QItem;
  rep_visited_exec : gset str;
  rep_visited_topics : gset str;
  rep_trace : list Hop;
  rep_run_calls : list str;
  rep_graph_calls : nat;
  rep_start_ts : Q;
  rep_clock_reads : list Q
}.

Definition section_input (topic_root suffix : str) : str :=
  lit "xlb >" ++ strip topic_root ++ suffix.

(** [section_inputs["backlink"].replace("xlb ", "", 1)]: the input is
    ["xlb ->" + topic + "/:"], whose first ["xlb "] is its prefix. *)
Definition backlink_target (topic_root : str) : str :=
  lit "->" ++ strip topic_root ++ lit "/:".

(** The body of the loop for a dequeued [item], after the two budget
    checks have passed. *)
Definition explore_item (cfg : Config) (item : QItem) (st : LoopState) : LoopState :=
  let input_text := strip (q_input item) in
  let depth := q_depth item in
  let via := strip (q_via item) in
  if is_empty input_text then st
  else
    let input_title := default input_text (resolve_title_from_input input_text) in
    let input_key := _canonical_edge_key input_title in
    if negb (is_empty input_key) && bool_decide (input_key ∈ visited_exec st) then
      mkLoopState (world st) (queue st) (visited_exec st) (visited_topics st)
        (trace st ++ [mkHop input_text depth via (lit "skipped_visited_exec")
                        input_title [] None 0 []])
        (steps_executed st) (aux_fetch_count st) (run_calls st) (graph_calls st)
        (clock_reads st)
    else
      let '(run_result, w1) :=
        run_impl (world st) input_text (storage_profile cfg) (network_confirmed cfg) in
      let steps := (steps_executed st + 1)%Z in
      let calls := run_calls st ++ [input_text] in
      let resolved_title :=
        or_else (strip (from_option p_title [] (r_parsed run_result))) input_title in
      let resolved_key := _canonical_edge_key resolved_title in
      let vexec := if is_empty input_key then visited_exec st
                   else {[input_key]} ∪ visited_exec st in
      let vexec := if is_empty resolved_key then vexec else {[resolved_key]} ∪ vexec in
      let root_topic := root_topic_from_title resolved_title in
      let root_topic_key := _canonical_topic_key root_topic in
      let vtopics := if is_empty root_topic_key then visited_topics st
                     else {[root_topic_key]} ∪ visited_topics st in
      let hop status n enq :=
        mkHop input_text depth via status resolved_title root_topic
          (Some (r_returncode run_result)) n enq in
      let ended status :=
        mkLoopState w1 (queue st) vexec vtopics (trace st ++ [hop status 0%nat []])
          steps (aux_fetch_count st) calls (graph_calls st) (clock_reads st) in
      if negb (r_returncode run_result =? 0)%Z then ended (lit "execute_failed")
      else if (max_depth cfg <=? depth)%Z then ended (lit "depth_budget_reached")
      else if is_empty root_topic then ended (lit "no_topic_root")
      else
        let searchin_input := section_input root_topic (lit "/searchin:") in
        let command_input := section_input root_topic (lit "/command:") in
        let '(searchin_run, w2) :=
          run_impl w1 searchin_input (storage_profile cfg) (network_confirmed cfg) in
        let '(searchin_nav, _, _) := _navigation_from_run_result w2 searchin_run in
        let '(command_run, w3) :=
          run_impl w2 command_input (storage_profile cfg) (network_confirmed cfg) in
        let '(command_nav, _, _) := _navigation_from_run_result w3 command_run in
        let db_path_raw := strip (from_option p_db_path [] (r_parsed run_result)) in
        let effective_index_dir :=
          if negb (is_empty db_path_raw) && dir_exists w3 (path_parent db_path_raw)
          then path_parent db_path_raw else index_dir cfg in
        let '(backlink_inputs, w4, lookups) :=
          if include_backlinks cfg then
            let '(raw_followups, w4) :=
              graph_impl w3 effective_index_dir (backlink_target root_topic)
                (Z.max 1 (backlink_limit cfg)) (backlink_filter cfg) in
            (filter (fun x => x ≠ []) (strip <$> raw_followups), w4, 1%nat)
          else ([], w3, 0%nat) in
        let candidates :=
          build_explore_candidates vexec vtopics (edge_strategy cfg)
            searchin_nav command_nav backlink_inputs (include_other_queries cfg)
            (Z.max 1 (max_branching cfg)) in
        mkLoopState w4
          (queue st ++ ((fun c => mkQItem (c_input c) (depth + 1) (c_source c)) <$> candidates))
          vexec vtopics
          (trace st ++ [hop (lit "expanded") (length candidates)
                          ((fun c => mkEnqueued (c_input c) (c_query_exec_title c)
                                       (c_query_kind c) (c_source c)) <$> candidates)])
          steps (aux_fetch_count st + 2)%Z
          (calls ++ [searchin_input; command_input]) (graph_calls st + lookups)
          (clock_reads st).

(** The first budget check at the head of the loop. *)
Definition time_up (cfg : Config) (start_ts now : Q) : bool :=
  Qltb 0 (max_seconds cfg) && Qle_bool (max_seconds cfg) (now - start_ts).

(** The loop variables after the clock was read at the head of the loop. *)
Definition tick (st : LoopState) (now : Q) (w : World) : LoopState :=
  mkLoopState w (queue st) (visited_exec st) (visited_topics st) (trace st)
    (steps_executed st) (aux_fetch_count st) (run_calls st) (graph_calls st)
    (clock_reads st ++ [now]).

(** [queue.pop(0)] *)
Definition dequeue (st : LoopState) (rest : list QItem) : LoopState :=
  mkLoopState (world st) rest (visited_exec st) (visited_topics st) (trace st)
    (steps_executed st) (aux_fetch_count st) (run_calls st) (graph_calls st)
    (clock_reads st).

(** [while queue:], at most [fuel] passes: the loop variables and the stop
    reason, or [None] when the passes did not suffice.  [start_ts] is the
    first reading of the clock. *)
Fixpoint explore_while (cfg : Config) (start_ts : Q) (fuel : nat) (st : LoopState)
  : option (LoopState * str) :=
  match queue st with
  | [] => Some (st, lit "frontier_exhausted")
  | item :: rest =>
      let '(now, w) := monotonic (world st) in
      if time_up cfg start_ts now
      then Some (tick st now w, lit "time_budget_exhausted")
      else if (max_steps cfg <=? steps_executed st)%Z
      then Some (tick st now w, lit "step_budget_exhausted")
      else
        match fuel with
        | O => None
        | S fuel' =>
            explore_while cfg start_ts fuel'
              (explore_item cfg item (dequeue (tick st now w) rest))
        end
  end.

(** Passes that always suffice: every pass takes an item off the frontier,
    and only a pass that spends a step puts items on it, at most
    [max(1, max_branching)] of them. *)
Definition pass_bound (cfg : Config) : nat :=
  S (Z.to_nat (Z.max 0 (max_steps cfg)) * Z.to_nat (Z.max 1 (max_branching cfg))).

(** What a run returns: the short report with status [invalid_seed], or
    the full report. *)
Inductive Outcome := InvalidSeed | Ran (r : Report).

(** The run with a given number of passes; [None] when they did not
    suffice. *)
Definition explore_loop_fuel (fuel : nat) (cfg : Config) (w0 : World) (seed_input : str)
    (visited_exec_titles visited_topic_keys : gset str) : option Outcome :=
  let normalized_seed := _normalize_seed_input seed_input in
  if is_empty normalized_seed then Some InvalidSeed
  else
    let '(start_ts, w) := monotonic w0 in
    '(st, reason) ← explore_while cfg start_ts fuel
       (mkLoopState w [mkQItem normalized_seed 0 (lit "seed")]
          visited_exec_titles visited_topic_keys [] 0 0 [] 0 []);
    Some (Ran (mkExploreReport (lit "ok") (steps_executed st) (aux_fetch_count st)
                 reason (length (queue st)) (queue st) (visited_exec st)
                 (visited_topics st) (trace st) (run_calls st) (graph_calls st)
                 start_ts (clock_reads st))).

Definition explore_loop (cfg : Config) (w0 : World) (seed_input : str)
    (visited_exec_titles visited_topic_keys : gset str) : option Outcome :=
  explore_loop_fuel (pass_bound cfg) cfg w0 seed_input
    visited_exec_titles visited_topic_keys.

End Loop.
End WithLib.
End Explore.

(** ** A runtime for the examples

  On text made of ASCII characters [str.lower] maps the capital letters to
  the small ones, and [html.unescape] leaves a text without ["&"] as it
  is.  The digest of the examples is the text itself. *)
Module Concrete.
Definition ascii_lower (s : str) : str := Index.ascii_fold <$> s.

Definition ascii_lib : PyLib :=
  {| lower := ascii_lower; lower_empty := eq_refl; unescape := id; sha1_hex := id |}.

(** An engine without the full-text module. *)
Definition no_fts : Index.Fts := fun _ _ _ => None.

(** A document whose first line comes before any first-level heading. *)
Definition early_group_doc : str :=
  lit "### Group" ++ [10] ++ lit "# Topic" ++ [10] ++ lit "- https://example.com/a#Alpha".

(** A query row of the examples. *)
Definition query_row (id ti co cmd : string) : Parser.Node :=
  Parser.mkNode (lit id) (lit "query") (lit "Topic") (lit "command") (lit ti)
    (lit co) [] (lit cmd) (lit cmd) (lit "kb_search") (lit "command") (lit ">topic/").

(** Two query rows whose commands find the same two rows again. *)
Definition echo_db : Index.db :=
  Index.mkDb [query_row "q1" "alpha one" "alpha" "alpha one";
              query_row "q2" "alpha two" "alpha" "alpha two"] false.


(** A link row of the examples, in the section ["section/Group"]. *)
Definition link_row (id tp ti : string) : Parser.Node :=
  Parser.mkNode (lit id) (lit "link") (lit tp) (lit "section/Group") (lit ti)
    (lit "section/Group " ++ lit ti) (lit "https://example.com/") [] [] [] []
    (lit ">topic/").

(** Two topics with a section of the same name. *)
Definition two_topic_db : Index.db :=
  Index.mkDb [link_row "a1" "Topic A" "Codex CLI in A";
              link_row "a2" "Topic A" "Other in A";
              link_row "b1" "Topic B" "Other in B"] false.

(** The three edges of the resolver's test. *)
Definition test_edges : list Graph.Edge :=
  [Graph.mkEdge (lit "Awesome Search") (lit "searchin") (lit "Vibe Coding")
     (lit ">Vibe Coding") (lit ">Vibe Coding/") (lit "topic_nav") (lit "searchin");
   Graph.mkEdge (lit "Vibe Coding") (lit "searchin") (lit "AI Model")
     (lit ">AI Model") (lit ">AI Model/") (lit "topic_nav") (lit "searchin");
   Graph.mkEdge (lit "Vibe Coding") (lit "command") (lit "codex cli")
     (lit "search(>vibe coding/codex cli)") (lit ">vibe coding/codex cli")
     (lit "kb_search") (lit "command")].

(** The payloads of the candidate test, with the visited topics extended by
    the topic of the command entry. *)
Definition test_searchin_nav : Explore.Nav :=
  Explore.mkNav
    [Explore.mkNavItem (lit "AI Model") (lit "topic_nav") (lit "searchin")
       (lit ">AI Model") (lit ">AI Model/")] [] [].

Definition codex_item : Explore.NavItem :=
  Explore.mkNavItem (lit "codex cli") (lit "kb_search") (lit "command")
    (lit "search(>vibe coding/codex cli)") (lit ">vibe coding/codex cli").

Definition test_command_nav : Explore.Nav := Explore.mkNav [] [codex_item] [].

Definition test_visited_exec : gset str := {[lit ">ai model/"]}.

Definition test_visited_topics : gset str :=
  {[lit "awesome search"; lit "vibe coding"]}.



(** The collaborators of the budget test.  The world is the number of clock
    readings so far; every reading is one second after the one before. *)
Definition ok_result (title : string) (nav : Explore.Nav) : Explore.RunResult :=
  Explore.mkRunResult 0 []
    (Some (Explore.mkParsed (lit title) [] [] (Some nav))).

Definition fake_run (w : nat) (input_text : str) (profile : str) (confirmed : bool)
  : Explore.RunResult * nat :=
  let normalized := ascii_lower (strip input_text) in
  if bool_decide (normalized = lit "xlb >seed/searchin:") then
    (ok_result ">Seed/searchin:"
       (Explore.mkNav
          [Explore.mkNavItem (lit "Topic A") (lit "topic_nav") (lit "searchin")
             (lit ">Topic A") (lit ">Topic A/")] [] []), w)
  else if bool_decide (normalized = lit "xlb >seed/command:") then
    (ok_result ">Seed/command:"
       (Explore.mkNav []
          [Explore.mkNavItem (lit "seed deep") (lit "kb_search") (lit "command")
             (lit "search(>seed/deep)") (lit ">seed/deep")] []), w)
  else (ok_result ">Seed/:" Explore.empty_nav, w).

Definition fake_world : Explore.Collaborators nat :=
  {| Explore.run_impl := fake_run;
     Explore.graph_impl := fun w _ _ _ _ => ([lit "xlb >Upstream/"], w);
     Explore.monotonic := fun w => (inject_Z (Z.of_nat w), S w);
     Explore.meta_navigation_json := fun _ _ => [];
     Explore.read_navigation := fun _ _ => None;
     Explore.path_parent := fun p => p;
     Explore.dir_exists := fun _ _ => false |}.



(** A navigation entry from whose exec title no root topic can be
    derived. *)
Definition rootless_item : Explore.NavItem :=
  Explore.mkNavItem (lit "root") (lit "topic_nav") (lit "searchin") (lit ">/") (lit ">/").

Definition rootless_nav : Explore.Nav := Explore.mkNav [rootless_item] [] [].

End Concrete.

(** ** Notions used to state the properties of the index *)
Section IndexSpec.
Import Parser Index.




(** The set of seen ids holds the ids of the rows stored so far. *)
Definition tracks (seen : gset str) (rows : list Node) : Prop :=
  forall id, id ∈ seen <-> id ∈ (node_id <$> rows).

(** The first row with a given id. *)
Definition first_with_id (id : str) (l : list Node) : option Node :=
  head (filter (fun n => node_id n = id) l).





End IndexSpec.

(** ** Notions used to state the properties of the graph resolver *)
Section GraphSpec.
Context `{PyLib}.
Import Graph.

(** Descending count, then topic name. *)
Definition upstream_order (a b : upstream) : Prop :=
  (u_count b < u_count a)%Z
  \/ (u_count a = u_count b
      /\ str_leb (lower (u_topic a)) (lower (u_topic b)) = true).

(** Kind, then exec title. *)
Definition outbound_order (a b : Edge) : Prop :=
  str_compare (lower (e_query_kind a)) (lower (e_query_kind b)) = Lt
  \/ (lower (e_query_kind a) = lower (e_query_kind b)
      /\ str_leb (lower (e_query_exec_title a)) (lower (e_query_exec_title b)) = true).

(** The edges counted under a topic. *)
Definition edges_under (topic : str) (l : list Edge) : list Edge :=
  filter (fun e => referring_topic e = topic) l.

(** An aggregate agrees with the edges it was computed from: its count is
    the number of edges under its topic, and it keeps at most 3 distinct,
    non-empty commands of those edges. *)
Definition aggregates (l : list Edge) (u : upstream) : Prop :=
  u_count u = Z.of_nat (length (edges_under (u_topic u) l))
  /\ (1 <= u_count u)%Z
  /\ (length (u_samples u) <= 3)%nat
  /\ NoDup (u_samples u)
  /\ forall s, s ∈ u_samples u ->
       s <> [] /\ exists e, e ∈ l /\ referring_topic e = u_topic u
                            /\ strip (e_query_cmd e) = s.

End GraphSpec.

(** ** Notions used to state the properties of candidate generation *)
Section ExploreSpec.
Context `{PyLib}.
Import Graph Explore.

(** The canonical exec-title key of a candidate. *)
Definition exec_key (c : Candidate) : str := _canonical_edge_key (c_query_exec_title c).

(** The topic key derived from the exec title of a candidate; it is empty
    when no root topic can be derived. *)
Definition derived_topic_key (c : Candidate) : str :=
  _canonical_topic_key (root_topic_from_title (c_query_exec_title c)).

(** A candidate that passes the two visited filters. *)
Definition passes_filters (visited_exec visited_topics : gset str) (c : Candidate) : Prop :=
  exec_key c <> []
  /\ (exec_key c ∉ visited_exec)
  /\ c_topic_key c = derived_topic_key c
  /\ (topic_level (c_query_kind c) = true -> derived_topic_key c <> [] ->
      derived_topic_key c ∉ visited_topics).

(** The canonical exec-title key of a navigation entry. *)
Definition nav_exec_key (item : NavItem) : str :=
  _canonical_edge_key (strip (nav_query_exec_title item)).

(** The entries of a payload that candidate generation reads. *)
Definition nav_entries (include_other_queries : bool) (nav : Nav) : list NavItem :=
  topic_navigation nav ++ knowledge_search nav
  ++ (if include_other_queries then other_queries nav else []).

(** The keys seen so far are the keys of the records collected so far. *)
Definition seen_collected (acc : gset str * list Candidate) : Prop :=
  forall k, k ∈ acc.1 -> exists c, c ∈ acc.2 /\ exec_key c = k.

End ExploreSpec.

(** ** Notions used to state the round trip of the visited-state files *)
Section VisitedSpec.


Definition str_le (a b : str) : Prop := str_leb a b = true.

End VisitedSpec.

(** ** Notions used to state the properties of the explore loop *)
Section LoopSpec.
Context `{PyLib} {World : Type} `{!Explore.Collaborators World}.
Import Graph Explore.






End LoopSpec.

(** ** Further functions of the script *)

(** *** Inputs and entry queries built from a topic *)
Module Topics.
Import Graph.

(** [None] stands for the empty dictionary; the three inputs are those
    under ["searchin"], ["command"] and ["backlink"]. *)
Definition topic_section_inputs (topic_root : str) : option (str * str * str) :=
  let topic := strip topic_root in
  if is_empty topic then None
  else Some (lit "xlb >" ++ topic ++ lit "/searchin:",
             lit "xlb >" ++ topic ++ lit "/command:",
             lit "xlb ->" ++ topic ++ lit "/:").

Definition _build_topic_entry_query (topic : str) : str :=
  let clean := strip topic in
  if is_empty clean then lit ">unknown-topic/" else lit ">" ++ clean ++ lit "/".

Definition _build_topic_entry_input (topic : str) : str :=
  lit "xlb " ++ _build_topic_entry_query topic.

End Topics.

(** ** Notions used to state the shape of the parsed nodes *)
Section ParserSpec.
Context `{PyLib}.
Import Parser.

(** The five kinds [_classify_query_kind] gives. *)
Definition query_kinds : list str :=
  [lit "topic_nav"; lit "kb_search"; lit "topic_lookup"; lit "query"; lit "unknown"].

(** The three shapes of a node: a link carries a URL and no query field, a
    query carries a command and no URL, a category carries neither. *)
Definition node_shape (n : Node) : Prop :=
  (node_type n = lit "link" /\ is_http (url n) = true
   /\ query_cmd n = [] /\ query_exec_title n = [] /\ query_kind n = []
   /\ query_source n = [])
  \/ (node_type n = lit "query" /\ url n = []
      /\ query_cmd n <> [] /\ strip (query_cmd n) = query_cmd n
      /\ query_kind n ∈ query_kinds)
  \/ (node_type n = lit "category" /\ url n = []
      /\ query_cmd n = [] /\ query_exec_title n = [] /\ query_kind n = []
      /\ query_source n = [] /\ content n = lit "category " ++ title n).

(** A line that appends a node: a third-level heading or a bullet with a
    web address. *)
Definition node_line (raw_line : str) : bool :=
  let line := strip raw_line in
  startswith (lit "### ") line
  || startswith (lit "- http://") line || startswith (lit "- https://") line.

End ParserSpec.

(** ** Notions used to state the structure of a search result *)
Section SearchSpec.
Import Parser Index.

(** The id of the node of a hit. *)
Definition hit_id (h : hit) : str := node_id (hit_node h).

(** What the expansion passes keep true of the seen ids and the merged
    hits: the merged hits are the direct hits followed by appended hits
    with pairwise distinct, non-empty ids that no direct hit has, and the
    id of every merged hit is seen. *)
Definition merged_after (direct : list hit) (rows : list Node)
    (acc : gset str * list hit) : Prop :=
  exists extra,
    acc.2 = direct ++ extra
    /\ NoDup (hit_id <$> extra)
    /\ Forall (fun h => hit_id h <> [] /\ (hit_id h ∉ (hit_id <$> direct))
                        /\ hit_node h ∈ rows
                        /\ (match_type h = lit "category_child"
                            \/ match_type h = lit "section_related")) extra
    /\ forall h, h ∈ acc.2 -> hit_id h ∈ acc.1.

End SearchSpec.

(** ** Notions used to state the accounts of the explore loop *)
Section LoopAccounts.
Context `{PyLib} {World : Type} `{!Explore.Collaborators World}.
Import Graph Explore.







End LoopAccounts.

(** ** Notions used to state the order and the shape of the candidates *)
Section CandidateSpec.
Context `{PyLib}.
Import Graph Explore.

(** Priority, then kind, then exec title, the last two in lower case. *)
Definition candidate_order (a b : Candidate) : Prop :=
  (c_priority a < c_priority b)%Z
  \/ (c_priority a = c_priority b
      /\ (str_compare (lower (c_query_kind a)) (lower (c_query_kind b)) = Lt
          \/ (lower (c_query_kind a) = lower (c_query_kind b)
              /\ str_leb (lower (c_query_exec_title a)) (lower (c_query_exec_title b))
                 = true))).

(** A record as candidate generation builds it: a title that is not empty
    and has no whitespace around it, the input built from it, which is an
    xlb command, one of the three sources and the priority of the source. *)
Definition candidate_built (edge_strategy : str) (c : Candidate) : Prop :=
  c_query_exec_title c <> []
  /\ strip (c_query_exec_title c) = c_query_exec_title c
  /\ c_input c = _to_input_from_exec_title (c_query_exec_title c)
  /\ is_xlb_command (c_input c) = true
  /\ c_source c ∈ [lit "searchin_section"; lit "command_section"; lit "backlink"]
  /\ c_priority c = source_priority edge_strategy (c_source c)
  /\ (c_source c = lit "backlink" -> c_query_kind c = lit "backlink").

(** The records collected so far have pairwise distinct keys, all seen. *)
Definition pool_distinct (edge_strategy : str) (acc : gset str * list Candidate) : Prop :=
  NoDup (exec_key <$> acc.2)
  /\ (forall c, c ∈ acc.2 -> exec_key c ∈ acc.1)
  /\ Forall (candidate_built edge_strategy) acc.2.

(** The key [build_navigation_candidates] deduplicates by. *)
Definition nav_key (item : NavItem) : str * str * str :=
  (kind_or_unknown item, source_or_unknown item, nav_exec_key item).

(** The entries in the order a strategy reads them. *)
Definition nav_ordered (nav : Nav) (strategy : str) (include_other_queries : bool)
  : list NavItem :=
  (if bool_decide (strategy = lit "search_first")
   then knowledge_search nav ++ topic_navigation nav
   else if bool_decide (strategy = lit "mixed")
   then interleave (topic_navigation nav) (knowledge_search nav)
   else topic_navigation nav ++ knowledge_search nav)
  ++ (if include_other_queries then other_queries nav else []).

End CandidateSpec.

(** *** The seed of an automatic exploration *)
Module Seeds.
Import Graph.

(** The text after the four letters of [^[Aa][Uu][Tt][Oo]]. *)
Definition auto_prefix (text : str) : option str :=
  match text with
  | a :: u :: t :: o :: r =>
      if ((a =? 65) || (a =? 97)) && ((u =? 85) || (u =? 117))
         && ((t =? 84) || (t =? 116)) && ((o =? 79) || (o =? 111))
      then Some r else None
  | _ => None
  end.

(** Group 1 of [\s+(.+)$] matched where [r] begins, for a text that does
    not end in whitespace: what follows the whitespace run, when it holds
    no line feed. *)
Definition after_spaces (r : str) : option str :=
  match r with
  | c :: r' =>
      if is_space c then
        let rest := lstrip r' in
        if is_empty rest || has_char 10 rest then None else Some rest
      else None
  | [] => None
  end.

(** Group 1 of [re.match(r"^[Xx][Ll][Bb]\s+auto\s+(.+)$", text)]. *)
Definition xlb_auto_payload (text : str) : option str :=
  match xlb_prefix text with
  | Some (c :: r) =>
      if is_space c then
        let r1 := lstrip r in
        if startswith (lit "auto") r1 then after_spaces (drop 4 r1) else None
      else None
  | _ => None
  end.

(** Group 1 of [re.match(r"^[Aa][Uu][Tt][Oo]\s+(.+)$", text)]. *)
Definition auto_payload (text : str) : option str :=
  match auto_prefix text with
  | Some r => after_spaces r
  | None => None
  end.

Definition normalize_auto_explore_seed (raw_input : str) : str :=
  let text := strip raw_input in
  if is_empty text then []
  else
    let text :=
      match xlb_auto_payload text with
      | Some g => strip g
      | None =>
          match auto_payload text with
          | Some g => strip g
          | None => text
          end
      end in
    if is_empty text then []
    else
      let title :=
        if is_xlb_command text then default text (resolve_title_from_input text)
        else if startswith (lit ">") text || startswith (lit "??") text
                || startswith (lit "->") text
        then text
        else lit ">" ++ text ++ lit "/:" in
      let title :=
        if (startswith (lit ">") title || startswith (lit "->") title)
           && negb (endswith (lit ":") title)
        then title ++ lit ":" else title in
      _to_input_from_exec_title title.

End Seeds.

(** ** Notions used to state the properties of the automatic seed *)
Section SeedSpec.
Import Graph Seeds.

(** A topic name as a user writes it: not empty, without whitespace around
    it and without a line feed, and neither a command nor a title. *)
Definition plain_topic (T : str) : Prop :=
  T <> [] /\ strip T = T /\ has_char 10 T = false
  /\ is_xlb_command T = false /\ auto_payload T = None
  /\ startswith (lit ">") T = false /\ startswith (lit "??") T = false
  /\ startswith (lit "->") T = false.

End SeedSpec.

(** *** Grouping nodes by topic *)
Module Summaries.
Import Parser Topics.

(** [grouped.setdefault(key, []).append(x)] on a dictionary, which keeps
    its keys in insertion order. *)
Fixpoint group_add {A} (key : str) (x : A) (grouped : list (str * list A))
  : list (str * list A) :=
  match grouped with
  | [] => [(key, [x])]
  | (k, xs) :: rest =>
      if decide (k = key) then (k, xs ++ [x]) :: rest
      else (k, xs) :: group_add key x rest
  end.

Definition group_by {A} (key_of : A -> str) (l : list A) : list (str * list A) :=
  foldl (fun grouped x => group_add (key_of x) x grouped) [] l.

(** The key of [_group_nodes_by_topic]. *)
Definition group_topic (node : Node) : str :=
  or_else (strip (or_else (topic node) (lit "unknown-topic"))) (lit "unknown-topic").

Definition _group_nodes_by_topic (nodes : list Node) : list (str * list Node) :=
  group_by group_topic nodes.

Section WithLib.
Context `{PyLib}.

Definition topic_name_leb {A} (a b : str * A) : bool :=
  str_leb (lower a.1) (lower b.1).

(** The [topic_count] and the [topics] of the document
    [write_topics_json] writes, each topic with its [node_count]. *)
Definition write_topics_json (nodes : list Node) : nat * list (str * nat) :=
  let groups := _group_nodes_by_topic nodes in
  (length groups,
   (fun g => (g.1, length g.2)) <$> stable_sort topic_name_leb groups).

(** The key of [summarize_topics]. *)
Definition summary_topic (node : Node) : str :=
  or_else (strip (topic node)) (lit "unknown-topic").

(** The loop that collects the sample titles of a topic. *)
Fixpoint sample_titles (cap : nat) (samples : list str) (arr : list Node) : list str :=
  match arr with
  | [] => samples
  | node :: rest =>
      let t := strip (title node) in
      let samples' :=
        if negb (is_empty t) && bool_decide (t ∉ samples) then samples ++ [t]
        else samples in
      if (cap <=? length samples')%nat then samples'
      else sample_titles cap samples' rest
  end.

Record topic_summary := mkTopicSummary {
  ts_topic : str;
  ts_count : nat;
  ts_samples : list str;
  ts_entry_query : str;
  ts_entry_input : str
}.

Record summary := mkSummary {
  sum_topic_count : nat;
  sum_topics : list topic_summary;
  sum_recommended_topic : str
}.

Definition summary_leb (a b : topic_summary) : bool :=
  not_gt (lex (Z.compare (- Z.of_nat (ts_count a)) (- Z.of_nat (ts_count b)))
              (str_compare (lower (ts_topic a)) (lower (ts_topic b)))).

Definition summarize_group (sample_per_topic : Z) (g : str * list Node) : topic_summary :=
  mkTopicSummary g.1 (length g.2)
    (sample_titles (Z.to_nat (Z.max 1 sample_per_topic)) [] g.2)
    (_build_topic_entry_query g.1) (_build_topic_entry_input g.1).

Definition summarize_topics (nodes : list Node) (limit sample_per_topic : Z) : summary :=
  let by_topic := group_by summary_topic nodes in
  let items := stable_sort summary_leb (summarize_group sample_per_topic <$> by_topic) in
  let top_items := take (Z.to_nat (Z.max 1 limit)) items in
  mkSummary (length by_topic) top_items
    (match top_items with [] => [] | t :: _ => ts_topic t end).

End WithLib.
End Summaries.

(** ** Notions used to state the properties of the summaries *)
Section SummarySpec.
Context `{PyLib}.
Import Parser Summaries.

(** The nodes with a given key, in their order. *)
Definition with_key {A} (key_of : A -> str) (k : str) (l : list A) : list A :=
  filter (fun x => key_of x = k) l.

(** The groups of a list: one group per key that occurs, holding the
    elements with that key in their order. *)
Definition groups_of {A} (key_of : A -> str) (l : list A)
    (grouped : list (str * list A)) : Prop :=
  NoDup (fst <$> grouped)
  /\ Forall (fun g => g.2 <> [] /\ g.2 = with_key key_of g.1 l) grouped
  /\ forall x, x ∈ l -> key_of x ∈ (fst <$> grouped).

(** Descending count, then topic name in lower case. *)
Definition summary_order (a b : topic_summary) : Prop :=
  (ts_count b < ts_count a)%nat
  \/ (ts_count a = ts_count b
      /\ str_leb (lower (ts_topic a)) (lower (ts_topic b)) = true).

(** What an entry of the summary says of the nodes of its topic. *)
Definition summarizes (nodes : list Node) (sample_per_topic : Z) (t : topic_summary)
  : Prop :=
  ts_count t = length (with_key summary_topic (ts_topic t) nodes)
  /\ (1 <= ts_count t)%nat
  /\ (Z.of_nat (length (ts_samples t)) <= Z.max 1 sample_per_topic)%Z
  /\ NoDup (ts_samples t)
  /\ Forall (fun s => s <> []
                      /\ exists n, n ∈ nodes /\ summary_topic n = ts_topic t
                                   /\ strip (title n) = s) (ts_samples t)
  /\ ts_entry_query t = Topics._build_topic_entry_query (ts_topic t)
  /\ ts_entry_input t = lit "xlb " ++ ts_entry_query t.

End SummarySpec.

(** *** The navigation document *)
Module Navigation.
Import Parser.

(** An entry of the navigation document. *)
Record NavEntry := mkNavEntry {
  ne_node_id : str;
  ne_topic : str;
  ne_section : str;
  ne_title : str;
  ne_query_cmd : str;
  ne_query_exec_title : str;
  ne_query_kind : str;
  ne_query_source : str
}.

(** The key [write_navigation_json] deduplicates the query nodes by. *)
Definition node_nav_key (node : Node) : str * str * str * str :=
  (query_kind node, strip (query_exec_title node), topic node, section node).

Definition entry_of (node : Node) : NavEntry :=
  mkNavEntry (node_id node) (topic node) (section node) (title node) (query_cmd node)
    (strip (query_exec_title node))
    (or_else (query_kind node) (lit "unknown"))
    (or_else (query_source node) (lit "unknown")).

(** The loop over the nodes: the entries appended, in order. *)
Fixpoint navigation_items (seen : gset (str * str * str * str)) (nodes : list Node)
  : list NavEntry :=
  match nodes with
  | [] => []
  | node :: rest =>
      if bool_decide (node_type node <> lit "query") then navigation_items seen rest
      else if is_empty (strip (query_exec_title node)) then navigation_items seen rest
      else if decide (node_nav_key node ∈ seen) then navigation_items seen rest
      else entry_of node :: navigation_items ({[node_nav_key node]} ∪ seen) rest
  end.

(** The three lists of the document. *)
Record navigation := mkNavigation {
  doc_topic_navigation : list NavEntry;
  doc_knowledge_search : list NavEntry;
  doc_other_queries : list NavEntry
}.

Definition write_navigation_json (nodes : list Node) : navigation :=
  let items := navigation_items ∅ nodes in
  mkNavigation
    (filter (fun i => ne_query_kind i = lit "topic_nav") items)
    (filter (fun i => ne_query_kind i = lit "kb_search") items)
    (filter (fun i => ne_query_kind i ∉ [lit "topic_nav"; lit "kb_search"]) items).

(** The document as [build_navigation_candidates] reads it back. *)
Definition read_entry (e : NavEntry) : Explore.NavItem :=
  Explore.mkNavItem (ne_title e) (ne_query_kind e) (ne_query_source e)
    (ne_query_cmd e) (ne_query_exec_title e).

Definition read_document (doc : navigation) : Explore.Nav :=
  Explore.mkNav (read_entry <$> doc_topic_navigation doc)
    (read_entry <$> doc_knowledge_search doc)
    (read_entry <$> doc_other_queries doc).

(** The query nodes the document is made from: the first node of every
    key, among the query nodes with an exec title that is not blank. *)
Fixpoint navigation_nodes (seen : gset (str * str * str * str)) (nodes : list Node)
  : list Node :=
  match nodes with
  | [] => []
  | node :: rest =>
      if bool_decide (node_type node <> lit "query") then navigation_nodes seen rest
      else if is_empty (strip (query_exec_title node)) then navigation_nodes seen rest
      else if decide (node_nav_key node ∈ seen) then navigation_nodes seen rest
      else node :: navigation_nodes ({[node_nav_key node]} ∪ seen) rest
  end.

(** A node that can give an entry. *)
Definition navigable (node : Node) : Prop :=
  node_type node = lit "query" /\ strip (query_exec_title node) <> [].

End Navigation.

(** *** Links of a search result *)
Module Links.
Import Parser.

(** An element of a list of hits: a dictionary, of which the text [str]
    gives for its [node_type] and its [url] is kept (empty for a missing
    key), or anything else. *)
Inductive jhit := HitDict (hit_type hit_url : str) | HitOther.

(** A decoded result: a dictionary, with the list under ["hits"] ([None]
    when the value under that key is not a list, the empty list when the
    key is missing), a list, or anything else. *)
Inductive result_payload :=
| ResultDict (raw_hits : option (list jhit))
| ResultList (items : list jhit)
| ResultOther.

Definition dict_hits (l : list jhit) : list (str * str) :=
  omap (fun h => match h with HitDict ty u => Some (ty, u) | HitOther => None end) l.

Definition _extract_hits_from_result_payload (payload : result_payload)
  : list (str * str) :=
  match payload with
  | ResultDict (Some raw_hits) => dict_hits raw_hits
  | ResultDict None => []
  | ResultList items => dict_hits items
  | ResultOther => []
  end.

(** The loop of [extract_link_urls_from_hits_payload], from the URLs
    collected so far; it ends as soon as [cap] URLs are collected. *)
Fixpoint link_urls (cap : nat) (seen : gset str) (urls : list str)
    (hits : list (str * str)) : list str :=
  match hits with
  | [] => urls
  | (ty, u) :: rest =>
      if bool_decide (ty <> lit "link") then link_urls cap seen urls rest
      else
        let url := strip u in
        if is_empty url || bool_decide (url ∈ seen) then link_urls cap seen urls rest
        else
          let urls' := urls ++ [url] in
          if (cap <=? length urls')%nat then urls'
          else link_urls cap ({[url]} ∪ seen) urls' rest
  end.

Definition extract_link_urls_from_hits_payload (payload : result_payload) (limit : Z)
  : list str :=
  link_urls (Z.to_nat (Z.max 1 limit)) ∅ [] (_extract_hits_from_result_payload payload).

Definition _normalize_open_url (url : str) (strip_fragment : bool) : str :=
  let out := strip url in
  if strip_fragment && has_char 35 out then
    match split_once 35 out with
    | Some (before, _) => strip before
    | None => out
    end
  else out.

(** The URLs of the link hits of a payload, stripped, the empty ones
    left out, in the order of the hits. *)
Definition link_hit_urls (payload : result_payload) : list str :=
  filter (fun u => u <> [])
    ((fun h => strip h.2)
       <$> filter (fun h => h.1 = lit "link") (_extract_hits_from_result_payload payload)).

End Links.

(** ** The query file of the benchmark *)

(** [bench/run_benchmark.py]: the lines of the query file. *)
Module Bench.

(** [s.split(sep, 1)] for a separator that occurs in [s]: the text before
    and after its first occurrence. *)
Fixpoint split_once_at (sep s : str) : option (str * str) :=
  if startswith sep s then Some ([], drop (length sep) s)
  else
    match s with
    | [] => None
    | c :: r => '(a, b) ← split_once_at sep r; Some (c :: a, b)
    end.

Definition parse_query_line (line : str) : str * str :=
  let text := strip line in
  if is_empty text || startswith (lit "#") text then ([], [])
  else if has_char 9 text then
    match split_once 9 text with
    | Some (before, after) => (strip before, strip after)
    | None => (text, [])
    end
  else if contains (lit " | ") text then
    match split_once_at (lit " | ") text with
    | Some (before, after) => (strip before, strip after)
    | None => (text, [])
    end
  else (text, []).

(** The loop of [load_queries] over the lines of the file. *)
Fixpoint query_items (lines : list str) : list (str * str) :=
  match lines with
  | [] => []
  | raw :: rest =>
      let '(xlb_input, retrieval_query) := parse_query_line raw in
      if is_empty xlb_input then query_items rest
      else (xlb_input, retrieval_query) :: query_items rest
  end.

(** [load_queries] on the text of the file. *)
Definition load_queries (content : str) : list (str * str) :=
  query_items (splitlines content).

End Bench.

(** ** Notions used to state the properties of the query file *)
Section BenchSpec.

(** A line that is neither blank nor a comment. *)
Definition query_line (line : str) : Prop :=
  strip line <> [] /\ startswith (lit "#") (strip line) = false.

#[global] Instance query_line_dec line : Decision (query_line line).
Proof. unfold query_line. apply _. Defined.

(** An entry of the list of queries: an input that is not empty, has no
    surrounding whitespace and contains no tab, and a query without
    surrounding whitespace. *)
Definition query_item (item : str * str) : Prop :=
  item.1 <> [] /\ strip item.1 = item.1 /\ (9 ∉ item.1) /\ strip item.2 = item.2.

End BenchSpec.

(** ** Opening URLs in a local application *)
Module Opening.
Import Parser Links.

(** The ["status"] of the result of [open_url_in_local_app]. *)
Inductive open_status := Opened | DryRun | OpenError.

#[global] Instance open_status_eq_dec : EqDecision open_status.
Proof. solve_decision. Defined.

(** What [open_urls_in_local_app] returns; of each result the URL and the
    status are kept. *)
Record open_report := mkOpenReport {
  o_count : nat;
  o_opened : nat;
  o_errors : nat;
  o_results : list (str * open_status)
}.

Definition is_error (status : open_status) : bool :=
  bool_decide (status = OpenError).

(** The first loop of [open_urls_in_local_app]: the stripped URLs that are
    not empty, the first occurrence of each. *)
Fixpoint unique_urls (seen : gset str) (urls : list str) : list str :=
  match urls with
  | [] => []
  | u :: rest =>
      let raw := strip u in
      if is_empty raw || bool_decide (raw ∈ seen) then unique_urls seen rest
      else raw :: unique_urls ({[raw]} ∪ seen) rest
  end.

Section WithSystem.
Context {World : Type}.

(** What [open_url_in_local_app] does after its dry-run return: the check
    of the platform, then the actions [_build_open_actions] gives for the
    URL, the application and the path of Atlas, run one after the other.
    The boolean tells that the platform is Darwin and every command
    returned 0. *)
Variable run_open_actions : World -> str -> str -> str -> bool * World.

(** [time.sleep(seconds)] *)
Variable sleep : World -> Q -> World.

Definition open_url_in_local_app (w : World) (url app : str)
    (strip_fragment dry_run : bool) (atlas_app_path : str) : open_status * World :=
  let normalized_url := _normalize_open_url url strip_fragment in
  if is_empty normalized_url then (OpenError, w)
  else if dry_run then (DryRun, w)
  else
    let '(ok, w) := run_open_actions w normalized_url app atlas_app_path in
    (if ok then Opened else OpenError, w).

(** The second loop of [open_urls_in_local_app]. *)
Fixpoint open_each (w : World) (uniq : list str) (app : str)
    (strip_fragment dry_run : bool) (atlas_app_path : str)
    (delay_between_sec : Q) (stop_on_error : bool)
  : list (str * open_status) * World :=
  match uniq with
  | [] => ([], w)
  | u :: rest =>
      let '(status, w) :=
        open_url_in_local_app w u app strip_fragment dry_run atlas_app_path in
      if is_error status && stop_on_error then ([(u, status)], w)
      else
        let w := if (0 <? length rest)%nat && Qltb 0 delay_between_sec
                 then sleep w delay_between_sec else w in
        let '(results, w) :=
          open_each w rest app strip_fragment dry_run atlas_app_path
            delay_between_sec stop_on_error in
        ((u, status) :: results, w)
  end.

Definition open_urls_in_local_app (w : World) (urls : list str) (app : str)
    (strip_fragment dry_run : bool) (atlas_app_path : str)
    (delay_between_sec : Q) (stop_on_error : bool) : open_report * World :=
  let uniq := unique_urls ∅ urls in
  let '(results, w) :=
    open_each w uniq app strip_fragment dry_run atlas_app_path
      delay_between_sec stop_on_error in
  (mkOpenReport (length uniq)
     (length (filter (fun r => r.2 = Opened \/ r.2 = DryRun) results))
     (length (filter (fun r => r.2 = OpenError) results))
     results, w).

(** [_cmd_open_hits] on the decoded file of hits: the report and the exit
    code. *)
Definition _cmd_open_hits (w : World) (payload : result_payload) (limit : Z)
    (app : str) (keep_fragment dry_run : bool) (atlas_app_path : str)
    (delay_between_sec : Q) (stop_on_error : bool) : open_report * Z * World :=
  let urls := extract_link_urls_from_hits_payload payload (Z.max 1 limit) in
  let '(result, w) :=
    open_urls_in_local_app w urls app (negb keep_fragment) dry_run atlas_app_path
      delay_between_sec stop_on_error in
  (result, if (o_errors result =? 0)%nat then 0%Z else 1%Z, w).

End WithSystem.
End Opening.

(** ** Notions used to state the properties of opening URLs *)
Section OpeningSpec.
Import Links Opening.

(** No result but the last is an error. *)
Definition stops_at_error (results : list (str * open_status)) : Prop :=
  forall before r after, results = before ++ r :: after -> after <> [] ->
    r.2 <> OpenError.

(** The status a dry run gives a URL. *)
Definition dry_status (strip_fragment : bool) (url : str) : open_status :=
  if is_empty (_normalize_open_url url strip_fragment) then OpenError else DryRun.

End OpeningSpec.

(** ** The edges of the graph index *)
Module Edges.
Import Parser Graph.

(** A file [*.db] of the index directory: one that [sqlite3.connect]
    cannot open; one on which a statement raises (a file that is no
    database, or a table [nodes] that lacks a selected column); one whose
    table [nodes] is missing or lacks one of the three required columns;
    or one with the table [_create_tables] declares, of which the rows are
    given in the order the [SELECT] reads them. *)
Inductive database :=
| Unopenable
| Broken
| Foreign
| Indexed (rows : list Node).

Definition edge_key (row : Node) : str * str * str * str * str :=
  (topic row, section row, query_exec_title row, query_kind row, query_source row).

(** The item of a row as [graph_neighbors_from_edges] reads it. *)
Definition edge_of (item : str * Node) : Edge :=
  let row := item.2 in
  mkEdge (topic row) (section row) (title row) (query_cmd row)
    (query_exec_title row) (query_kind row) (query_source row).

Section WithLib.
Context `{PyLib}.

(** [WHERE node_type='query' AND query_exec_title != ''] *)
Definition selected (rows : list Node) : list Node :=
  filter (fun row => node_type row = lit "query" /\ query_exec_title row <> []) rows.

Definition haystack (row : Node) : str :=
  lower (topic row ++ lit " " ++ section row ++ lit " " ++ title row ++ lit " "
         ++ query_cmd row ++ lit " " ++ query_exec_title row).

(** The loop over the rows of one database; every item it appends
    carries the path of the database. *)
Fixpoint collect_rows (filter_key db_path : str) (rows : list Node)
    (acc : gset (str * str * str * str * str) * list (str * Node))
  : gset (str * str * str * str * str) * list (str * Node) :=
  match rows with
  | [] => acc
  | row :: rest =>
      let '(seen, edges) := acc in
      if negb (is_empty filter_key) && negb (contains filter_key (haystack row))
      then collect_rows filter_key db_path rest acc
      else if decide (edge_key row ∈ seen) then collect_rows filter_key db_path rest acc
      else collect_rows filter_key db_path rest
             ({[edge_key row]} ∪ seen, edges ++ [(db_path, row)])
  end.

(** The loop over the databases; [None] when a statement raises. *)
Fixpoint collect_databases (filter_key : str) (dbs : list (str * database))
    (acc : gset (str * str * str * str * str) * list (str * Node))
  : option (list (str * Node)) :=
  match dbs with
  | [] => Some acc.2
  | (db_path, db) :: rest =>
      match db with
      | Unopenable => collect_databases filter_key rest acc
      | Broken => None
      | Foreign => collect_databases filter_key rest acc
      | Indexed rows =>
          collect_databases filter_key rest
            (collect_rows filter_key db_path (selected rows) acc)
      end
  end.

(** [index_dir] is [None] when the directory does not exist, and
    otherwise its files [*.db] with their paths, in the order of the
    paths. *)
Definition collect_query_edges_from_index_dir
    (index_dir : option (list (str * database))) (query_filter : str)
  : option (list (str * Node)) :=
  match index_dir with
  | None => Some []
  | Some dbs => collect_databases (lower (strip query_filter)) dbs (∅, [])
  end.

(** [graph_neighbors]: the neighbours and [edge_pool_size]. *)
Definition graph_neighbors (index_dir : option (list (str * database)))
    (target_title : str) (limit : Z) (query_filter : str) : option (neighbors * nat) :=
  edges ← collect_query_edges_from_index_dir index_dir query_filter;
  Some (graph_neighbors_from_edges (edge_of <$> edges) target_title limit, length edges).

End WithLib.
End Edges.

(** ** Notions used to state the properties of the edges *)
Section EdgesSpec.
Context `{PyLib}.
Import Parser Graph Edges.

(** What two edges must not share: topic, section, exec title, kind and
    source. *)
Definition edge_keys (edges : list (str * Node)) : list (str * str * str * str * str) :=
  (fun item => edge_key item.2) <$> edges.

(** The rows the databases of a directory offer as edges under a filter,
    each with the path of its database, in the order they are read. *)
Definition offered (filter_key : str) (dbs : list (str * database)) : list (str * Node) :=
  dbs ≫= (fun d =>
    match d.2 with
    | Indexed rows =>
        (fun row => (d.1, row))
          <$> filter (fun row => filter_key = [] \/ contains filter_key (haystack row) = true)
                (selected rows)
    | _ => []
    end).

End EdgesSpec.

(** ** The command [explore-next] *)
Module ExploreNext.
Import Graph Visited Explore.

(** What [_load_json] gives for the metadata file: a value that counts as
    false (the empty dictionary of a file that cannot be read among them),
    a dictionary, of which the text [str] gives for its
    [navigation_json] is kept (empty for a missing key), or any other
    value. *)
Inductive meta_document := MetaEmpty | MetaDict (navigation_json : str) | MetaOther.

(** The navigation file at a path: none, one that decodes to a payload
    (the empty one when it cannot be decoded), or one that decodes to
    anything else. *)
Inductive navigation_file := NavAbsent | NavPayload (nav : Nav) | NavOther.

Record next_args := mkNextArgs {
  a_strategy : str;
  a_include_other_queries : bool;
  a_visited_file : str;
  a_update_visited : bool;
  a_select_index : Z;
  a_max_candidates : Z;
  a_dry_run : bool;
  a_output_mode : str;
  a_storage_profile : str;
  a_network_confirmed : bool
}.

Inductive next_status :=
| NoCandidate | InvalidSelectIndex | Selected | Executed | ExecuteFailed.

#[global] Instance next_status_eq_dec : EqDecision next_status.
Proof. solve_decision. Defined.

(** The result the command prints: of a candidate the entry and its
    ["input"] are kept; [n_returncode] is that of ["execute"]. *)
Record next_result := mkNextResult {
  n_candidate_count : nat;
  n_candidates : list (NavItem * str);
  n_status : next_status;
  n_selected_index : option Z;
  n_selected : option (NavItem * str);
  n_returncode : option Z;
  n_visited_count : option nat
}.

Inductive next_output := NextError (error : str) | NextResult (result : next_result).

Section WithSystem.
Context `{PyLib}.

(** [run_retrieve_for_explore(input_text=..., output_mode=...,
    storage_profile=..., network_confirmed=...)]: the return code of the
    script, and the files after it ran. *)
Variable run_retrieve_for_explore :
  gmap str file -> str -> str -> str -> bool -> Z * gmap str file.

(** The loop that drops the candidates already visited. *)
Definition unvisited (visited : gset str) (candidates : list NavItem) : list NavItem :=
  filter (fun item =>
            let key := _canonical_edge_key (nav_query_exec_title item) in
            ~ (key <> [] /\ key ∈ visited)) candidates.

Definition listed (c : NavItem) : NavItem * str :=
  (c, _to_input_from_exec_title (nav_query_exec_title c)).

(** [None] stands for the exception an unexpected document raises; the
    other components are the exit code and the files after the
    command. *)
Definition _cmd_explore_next (disk : gmap str file) (meta : meta_document)
    (navigation : str -> navigation_file) (args : next_args)
  : option (next_output * Z * gmap str file) :=
  match meta with
  | MetaEmpty => Some (NextError (lit "meta_not_found"), 1%Z, disk)
  | MetaOther => None
  | MetaDict navigation_json =>
      let navigation_path_raw := strip navigation_json in
      if is_empty navigation_path_raw
      then Some (NextError (lit "navigation_json_missing"), 1%Z, disk)
      else
        match navigation navigation_path_raw with
        | NavAbsent => Some (NextError (lit "navigation_json_not_found"), 1%Z, disk)
        | NavOther => None
        | NavPayload nav_payload =>
            let candidates :=
              build_navigation_candidates nav_payload (a_strategy args)
                (a_include_other_queries args) in
            let visited := load_visited_exec_titles disk (a_visited_file args) in
            let filtered := unvisited visited candidates in
            let result :=
              mkNextResult (length filtered)
                (listed <$> take (Z.to_nat (Z.max 1 (a_max_candidates args))) filtered) in
            match filtered with
            | [] => Some (NextResult (result NoCandidate None None None None), 0%Z, disk)
            | _ :: _ =>
                let idx := Z.max 0 (a_select_index args) in
                match filtered !! Z.to_nat idx with
                | None =>
                    Some (NextResult (result InvalidSelectIndex (Some idx) None None None),
                          1%Z, disk)
                | Some selected =>
                    let exec_title := strip (nav_query_exec_title selected) in
                    let next_input := _to_input_from_exec_title exec_title in
                    let selected_payload :=
                      (mkNavItem (nav_title selected) (nav_query_kind selected)
                         (nav_query_source selected) (nav_query_cmd selected) exec_title,
                       next_input) in
                    if a_dry_run args
                    then Some (NextResult (result Selected (Some idx)
                                             (Some selected_payload) None None),
                               0%Z, disk)
                    else
                      let '(returncode, disk) :=
                        run_retrieve_for_explore disk next_input (a_output_mode args)
                          (a_storage_profile args) (a_network_confirmed args) in
                      let status := if (returncode =? 0)%Z then Executed else ExecuteFailed in
                      let code := if (returncode =? 0)%Z then 0%Z else 1%Z in
                      let key := _canonical_edge_key exec_title in
                      if negb (is_empty (a_visited_file args)) && a_update_visited args
                         && (returncode =? 0)%Z && negb (is_empty key)
                      then
                        let visited := {[key]} ∪ visited in
                        Some (NextResult (result status (Some idx) (Some selected_payload)
                                            (Some returncode) (Some (size visited))),
                              code,
                              save_visited_exec_titles disk (a_visited_file args) visited)
                      else
                        Some (NextResult (result status (Some idx) (Some selected_payload)
                                            (Some returncode) None),
                              code, disk)
                end
            end
        end
  end.

End WithSystem.
End ExploreNext.

(** ** Notions used to state the properties of [explore-next] *)
Section ExploreNextSpec.
Context `{PyLib}.
Import Graph Visited Explore ExploreNext.

(** A candidate the command may offer: an entry of the navigation
    candidates with an exec title that is not blank, whose key is empty or
    not visited. *)
Definition offerable (pool : list NavItem) (visited : gset str) (c : NavItem) : Prop :=
  c ∈ pool
  /\ strip (nav_query_exec_title c) <> []
  /\ (_canonical_edge_key (nav_query_exec_title c) = []
      \/ _canonical_edge_key (nav_query_exec_title c) ∉ visited).

(** The statuses with which the command exits with 0. *)
Definition succeeded (status : next_status) : Prop :=
  status = NoCandidate \/ status = Selected \/ status = Executed.

End ExploreNextSpec.

(** ** Data of the examples, further *)
Module Samples.
Import Explore ExploreNext.

(** A library whose digest of a text is the text read backwards, so that
    the first 16 characters [_hash] keeps tell the nodes of the examples
    apart. *)
Definition reversing_lib : PyLib :=
  {| lower := Concrete.ascii_lower; lower_empty := eq_refl; unescape := id;
     sha1_hex := reverse |}.

(** The document of the test of [graph_neighbors]. *)
Definition neighbors_doc : str :=
  lit "# Awesome Search" ++ [10] ++ lit "## searchin:" ++ [10]
  ++ lit "### Vibe Coding" ++ [10] ++ lit "### >Vibe Coding" ++ [10]
  ++ lit "# Vibe Coding" ++ [10] ++ lit "## searchin:" ++ [10]
  ++ lit "### AI Model" ++ [10] ++ lit "### >AI Model" ++ [10]
  ++ lit "## command:" ++ [10] ++ lit "### codex cli" ++ [10]
  ++ lit "### search(>vibe coding/codex cli)" ++ [10].

(** The navigation document of the test of [explore-next]. *)
Definition test_navigation : Nav :=
  mkNav
    [mkNavItem (lit "AI Model") (lit "topic_nav") (lit "searchin")
       (lit ">AI Model") (lit ">AI Model/")]
    [mkNavItem (lit "vibe coding") (lit "kb_search") (lit "command")
       (lit "search(>vibe coding/vibe)") (lit ">vibe coding/vibe")]
    [].

(** The arguments of the test: a dry run with the defaults. *)
Definition dry_run_args : next_args :=
  mkNextArgs (lit "topic_first") false [] false 0 10 true (lit "json") (lit "minimal") false.

(** A script that returns 0 and writes no file. *)
Definition quiet_retrieve (disk : gmap str Visited.file) (input_text output_mode profile : str)
    (confirmed : bool) : Z * gmap str Visited.file := (0%Z, disk).

(** The URLs of the test of [open_urls_in_local_app]. *)
Definition test_urls : list str :=
  [lit "https://example.com/a#x"; lit "https://example.com/a#x"; lit "https://example.com/b"].

(** A system on which every action succeeds. *)
Definition every_action_succeeds (w : unit) (url app atlas_app_path : str) : bool * unit :=
  (true, w).

Definition no_sleep (w : unit) (seconds : Q) : unit := w.

End Samples.

(** * Properties *)

(** ** Text primitives *)
Section TextFacts.

Lemma startswith_app (p s : str) : startswith p (p ++ s) = true.
Proof. induction p as [|c p IH]; simpl; [done|]. by rewrite N.eqb_refl. Qed.

Lemma startswith_prefix (p s : str) : startswith p s = true <-> exists r, s = p ++ r.
Proof.
  split.
  - revert s. induction p as [|c p IH]; intros s Hs; [by exists s|].
    destruct s as [|d s]; simpl in Hs; [done|].
    apply andb_true_iff in Hs as [Hc Hp]. apply N.eqb_eq in Hc as ->.
    destruct (IH _ Hp) as [r ->]. by exists r.
  - intros [r ->]. apply startswith_app.
Qed.

Lemma or_else_nonempty (a b : str) : b <> [] -> or_else a b <> [].
Proof. by destruct a. Qed.

Lemma or_else_empty_l (b : str) : or_else [] b = b.
Proof. done. Qed.

Lemma is_empty_true (s : str) : is_empty s = true <-> s = [].
Proof. by destruct s. Qed.

Lemma is_empty_false (s : str) : is_empty s = false <-> s <> [].
Proof. by destruct s. Qed.

End TextFacts.

(** ** The document parser *)
Section ParserFacts.
Context `{PyLib}.
Import Parser.

Lemma normalize_marked raw sec fb :
  directive_marked (_normalize_query_exec_title raw sec fb).
Proof.
  unfold _normalize_query_exec_title, directive_marked.
  repeat case_match; auto.
Qed.

(** What holds of every node a line can append holds of every node of a
    document. *)
Lemma parse_lines_Forall (P : Node -> Prop) src :
  (forall st l st' n, parse_line src st l = (st', Some n) -> P n) ->
  forall lines st, Forall P (parse_lines src st lines).
Proof.
  intros Hline lines. induction lines as [|l ls IH]; intros st; simpl; [constructor|].
  destruct (parse_line src st l) as [st' [n|]] eqn:E; [|apply IH].
  constructor; [by eapply Hline|apply IH].
Qed.

Lemma parse_line_marked src st l st' n :
  parse_line src st l = (st', Some n) -> directive_marked (query_exec_title n).
Proof.
  destruct st as [t s g p]. unfold parse_line.
  repeat case_match; intros [= <- <-]; simpl;
    first [apply normalize_marked | by left].
Qed.

Lemma parse_line_topic src st l st' n :
  parse_line src st l = (st', Some n) ->
  topic n = or_else (cur_topic st) (lit "unknown-topic").
Proof.
  destruct st as [t s g p]. unfold parse_line.
  repeat case_match; intros [= <- <-]; reflexivity.
Qed.

Lemma parse_line_topic_empty src st l :
  cur_topic st = [] -> keeps_topic_empty l ->
  cur_topic (parse_line src st l).1 = [].
Proof.
  destruct st as [t s g p]. unfold keeps_topic_empty, parse_line. simpl.
  intros -> Hl. repeat case_match; simpl; auto.
Qed.

Lemma parse_lines_app src st l1 l2 :
  parse_lines src st (l1 ++ l2)
  = parse_lines src st l1 ++ parse_lines src (pstate_after src st l1) l2.
Proof.
  revert st. induction l1 as [|l ls IH]; intros st; simpl; [done|].
  destruct (parse_line src st l) as [st' [n|]] eqn:E; simpl; by rewrite IH.
Qed.

Lemma parse_lines_unknown_topic src lines :
  forall st, cur_topic st = [] -> Forall keeps_topic_empty lines ->
  Forall (fun n => topic n = lit "unknown-topic") (parse_lines src st lines).
Proof.
  induction lines as [|l ls IH]; intros st Ht Hall; simpl; [constructor|].
  inversion Hall as [|? ? Hl Hls]; subst.
  pose proof (parse_line_topic_empty src st l Ht Hl) as Ht'.
  destruct (parse_line src st l) as [st' [n|]] eqn:E; simpl in Ht'; [|by apply IH].
  constructor; [|by apply IH].
  rewrite (parse_line_topic _ _ _ _ _ E), Ht. reflexivity.
Qed.

(** C8: the [query_exec_title] that [_normalize_query_exec_title] computes
    is empty or begins with [">"] or ["??"], for every raw query, section
    and fallback title; so is the [query_exec_title] of every node that
    [parse_markdown_to_nodes] returns. *)
Theorem query_exec_title_marked :
  (forall raw_query section fallback_title,
      directive_marked (_normalize_query_exec_title raw_query section fallback_title))
  /\ (forall markdown source_title,
        Forall (fun n => directive_marked (query_exec_title n))
               (parse_markdown_to_nodes markdown source_title)).
Proof.
  split; [apply normalize_marked|].
  intros md src. apply parse_lines_Forall. apply parse_line_marked.
Qed.

(** C10: every node that [parse_markdown_to_nodes] returns has a non-empty
    topic.  The nodes of a stretch of lines that starts where the current
    topic is empty (the start of the document, or after a first-level
    heading whose cleaned text is empty) and holds no first-level heading
    with a non-empty cleaned text carry the topic ["unknown-topic"]. *)
Theorem parsed_topic_nonempty :
  (forall markdown source_title,
      Forall (fun n => topic n <> []) (parse_markdown_to_nodes markdown source_title))
  /\ (forall markdown source_title pre mid post,
        splitlines markdown = pre ++ mid ++ post ->
        cur_topic (pstate_after source_title initial_pstate pre) = [] ->
        Forall keeps_topic_empty mid ->
        exists before stretch after,
          parse_markdown_to_nodes markdown source_title = before ++ stretch ++ after
          /\ stretch = parse_lines source_title
                         (pstate_after source_title initial_pstate pre) mid
          /\ Forall (fun n => topic n = lit "unknown-topic") stretch)
  /\ cur_topic initial_pstate = []
  /\ (forall source_title st l,
        startswith (lit "# ") (strip l) = true ->
        _clean_label (strip (drop 2 (strip l))) = [] ->
        cur_topic (parse_line source_title st l).1 = []).
Proof.
  split; [|split; [|split]].
  - intros md src. apply parse_lines_Forall. intros st l st' n E.
    rewrite (parse_line_topic _ _ _ _ _ E). by apply or_else_nonempty.
  - intros md src pre mid post Hsplit Ht Hmid.
    unfold parse_markdown_to_nodes. rewrite Hsplit, !parse_lines_app.
    eexists _, _, _. split; [reflexivity|]. split; [reflexivity|].
    by apply parse_lines_unknown_topic.
  - reflexivity.
  - intros src st l Hh Hc. destruct st as [t s g p]. unfold parse_line.
    destruct (is_empty (strip l)) eqn:E.
    + apply is_empty_true in E. rewrite E in Hh. done.
    + rewrite Hh. simpl. exact Hc.
Qed.

End ParserFacts.

(** ** Instances on concrete documents *)
Section ParserExamples.
Import Parser Concrete.
#[local] Existing Instance ascii_lib.

Lemma parsed_topic_nonempty_witness :
  exists before stretch after,
    parse_markdown_to_nodes early_group_doc (lit ">topic/") = before ++ stretch ++ after
    /\ stretch = parse_lines (lit ">topic/") (pstate_after (lit ">topic/") initial_pstate [])
                   [lit "### Group"]
    /\ Forall (fun n => topic n = lit "unknown-topic") stretch.
Proof.
  apply (proj1 (proj2 parsed_topic_nonempty) early_group_doc (lit ">topic/")
           [] [lit "### Group"] [lit "# Topic"; lit "- https://example.com/a#Alpha"]).
  - vm_compute. reflexivity.
  - reflexivity.
  - constructor; [|constructor]. intros Hh. vm_compute in Hh. discriminate.
Defined.

End ParserExamples.

(** ** The retrieval index: build *)
Section BuildFacts.
Context `{PyLib}.
Import Parser Index.

Lemma tracks_empty : tracks ∅ [].
Proof. intros id. set_solver. Qed.

Lemma tracks_insert seen rows node :
  tracks seen rows -> tracks ({[node_id node]} ∪ seen) (rows ++ [node]).
Proof.
  intros Ht id. rewrite fmap_app, elem_of_app, elem_of_union, (Ht id). simpl.
  rewrite elem_of_singleton, list_elem_of_singleton. tauto.
Qed.

Lemma insert_nodes_NoDup input : forall seen rows,
  tracks seen rows -> NoDup (node_id <$> rows) ->
  NoDup (node_id <$> insert_nodes seen rows input).
Proof.
  induction input as [|node rest IH]; intros seen rows Ht Hnd; simpl; [done|].
  destruct (decide (node_id node ∈ seen)) as [Hin|Hout]; [by apply IH|].
  apply IH; [by apply tracks_insert|].
  rewrite fmap_app. apply NoDup_app. split; [done|]. split.
  - intros id Hid Hid'. simpl in Hid'. apply list_elem_of_singleton in Hid' as ->.
    by apply Hout, Ht.
  - simpl. apply NoDup_singleton.
Qed.

Lemma first_with_id_app id l1 l2 :
  first_with_id id (l1 ++ l2)
  = match first_with_id id l1 with Some n => Some n | None => first_with_id id l2 end.
Proof.
  unfold first_with_id. rewrite filter_app.
  by destruct (filter (fun n => node_id n = id) l1).
Qed.

Lemma first_with_id_elem id l :
  id ∈ (node_id <$> l) -> is_Some (first_with_id id l).
Proof.
  intros (n & -> & Hn)%list_elem_of_fmap. unfold first_with_id.
  assert (n ∈ filter (fun m => node_id m = node_id n) l) as Hf
      by (by apply list_elem_of_filter).
  destruct (filter _ l); [by apply not_elem_of_nil in Hf|by eexists].
Qed.

Lemma insert_nodes_first input : forall seen rows id,
  tracks seen rows ->
  first_with_id id (insert_nodes seen rows input) = first_with_id id (rows ++ input).
Proof.
  induction input as [|node rest IH]; intros seen rows id Ht; simpl.
  - by rewrite app_nil_r.
  - destruct (decide (node_id node ∈ seen)) as [Hin|Hout].
    + rewrite IH by done. rewrite !first_with_id_app.
      destruct (first_with_id id rows) as [n|] eqn:E; [done|].
      unfold first_with_id at 2. rewrite filter_cons.
      destruct (decide (node_id node = id)) as [<-|]; [|done].
      apply Ht, first_with_id_elem in Hin. rewrite E in Hin. by destruct Hin.
    + rewrite IH by (by apply tracks_insert). by rewrite <- app_assoc.
Qed.

Lemma insert_nodes_sublist input : forall seen rows,
  exists kept, insert_nodes seen rows input = rows ++ kept /\ kept `sublist_of` input.
Proof.
  induction input as [|node rest IH]; intros seen rows; simpl.
  - exists []. by rewrite app_nil_r.
  - destruct (decide (node_id node ∈ seen)).
    + destruct (IH seen rows) as (kept & -> & Hs). exists kept. split; [done|].
      by apply sublist_cons.
    + destruct (IH ({[node_id node]} ∪ seen) (rows ++ [node])) as (kept & -> & Hs).
      exists (node :: kept). rewrite <- app_assoc. split; [done|].
      by apply sublist_skip.
Qed.

(** C4: the store [build_index] leaves holds at most one row per
    [node_id]; the row with a given id is the first node of the input with
    that id, every later one is dropped, and the rows keep the order of
    the input. *)
Theorem build_index_first_wins (fts_created : bool) (input : list Node) :
  NoDup (node_id <$> nodes (build_index fts_created input))
  /\ (forall id, first_with_id id (nodes (build_index fts_created input))
                 = first_with_id id input)
  /\ nodes (build_index fts_created input) `sublist_of` input.
Proof.
  unfold build_index. simpl. split; [|split].
  - apply insert_nodes_NoDup; [apply tracks_empty|constructor].
  - intros id. by rewrite insert_nodes_first by apply tracks_empty.
  - destruct (insert_nodes_sublist input ∅ []) as (kept & -> & Hs). done.
Qed.

End BuildFacts.

(** ** Stable sorting *)
Section SortFacts.
Context {A : Type} (le : A -> A -> bool).

Lemma insert_sorted_perm x l : insert_sorted le x l ≡ₚ x :: l.
Proof.
  induction l as [|y l IH]; simpl; [done|].
  destruct (le x y); [done|]. rewrite IH. apply Permutation_swap.
Qed.

Lemma stable_sort_perm l : stable_sort le l ≡ₚ l.
Proof.
  induction l as [|x l IH]; simpl; [done|].
  rewrite insert_sorted_perm. by constructor.
Qed.

Lemma elem_of_stable_sort x l : x ∈ stable_sort le l <-> x ∈ l.
Proof. by rewrite stable_sort_perm. Qed.

Lemma length_stable_sort l : length (stable_sort le l) = length l.
Proof. by rewrite stable_sort_perm. Qed.

(** Every two elements compare one way or the other. *)
Hypothesis le_total : forall x y, le x y = true \/ le y x = true.

Lemma insert_sorted_Sorted x l :
  Sorted (fun a b => le a b = true) l ->
  Sorted (fun a b => le a b = true) (insert_sorted le x l).
Proof.
  induction 1 as [|y l Hs IH Hhd]; simpl; [by repeat constructor|].
  destruct (le x y) eqn:E.
  - constructor; [by constructor|by constructor].
  - constructor; [done|].
    destruct l as [|z l]; simpl.
    + constructor. by destruct (le_total x y); [congruence|].
    + destruct (le x z); constructor.
      * by destruct (le_total x y); [congruence|].
      * by inversion Hhd.
Qed.

Lemma stable_sort_Sorted l : Sorted (fun a b => le a b = true) (stable_sort le l).
Proof.
  induction l as [|x l IH]; simpl; [constructor|]. by apply insert_sorted_Sorted.
Qed.

End SortFacts.

(** Orders given by a comparison that is reversed when its arguments are
  exchanged are total. *)
Section CompareFacts.

Lemma str_compare_opp a : forall b, str_compare b a = CompOpp (str_compare a b).
Proof.
  induction a as [|x a IH]; intros [|y b]; simpl; try done.
  rewrite (N.compare_antisym x y). destruct (x ?= y)%N; simpl; auto.
Qed.

Lemma lex_opp c1 c2 : lex (CompOpp c1) (CompOpp c2) = CompOpp (lex c1 c2).
Proof. by destruct c1. Qed.

Lemma not_gt_total c : not_gt c = true \/ not_gt (CompOpp c) = true.
Proof. destruct c; simpl; auto. Qed.

Lemma str_compare_eq a : forall b, str_compare a b = Eq <-> a = b.
Proof.
  induction a as [|x a IH]; intros [|y b]; simpl; try done.
  destruct (x ?= y)%N eqn:E.
  - apply N.compare_eq in E as ->. rewrite IH. split; congruence.
  - split; [done|]. intros [= -> ->]. by rewrite N.compare_refl in E.
  - split; [done|]. intros [= -> ->]. by rewrite N.compare_refl in E.
Qed.

Lemma str_compare_refl a : str_compare a a = Eq.
Proof. by apply str_compare_eq. Qed.

Lemma str_compare_lt_trans a : forall b c,
  str_compare a b = Lt -> str_compare b c = Lt -> str_compare a c = Lt.
Proof.
  induction a as [|x a IH]; intros [|y b] [|z c]; simpl; try done.
  destruct (x ?= y)%N eqn:Exy; try done; destruct (y ?= z)%N eqn:Eyz; try done.
  - apply N.compare_eq in Exy as ->. rewrite Eyz. apply IH.
  - apply N.compare_eq in Exy as ->. by rewrite Eyz.
  - apply N.compare_eq in Eyz as <-. by rewrite Exy.
  - intros _ _. rewrite N.compare_lt_iff in *. 
    assert (x < z)%N as Hlt by lia. apply N.compare_lt_iff in Hlt. by rewrite Hlt.
Qed.

Lemma str_leb_total a b : str_leb a b = true \/ str_leb b a = true.
Proof. unfold str_leb. rewrite (str_compare_opp a b). apply not_gt_total. Qed.

Lemma str_leb_antisym a b : str_leb a b = true -> str_leb b a = true -> a = b.
Proof.
  unfold str_leb. rewrite (str_compare_opp a b).
  destruct (str_compare a b) eqn:E; simpl; try done.
  intros _ _. by apply str_compare_eq.
Qed.

Lemma str_leb_trans a b c : str_leb a b = true -> str_leb b c = true -> str_leb a c = true.
Proof.
  unfold str_leb.
  destruct (str_compare a b) eqn:Eab; try done;
    destruct (str_compare b c) eqn:Ebc; try done; intros _ _.
  - apply str_compare_eq in Eab as ->. by rewrite Ebc.
  - apply str_compare_eq in Eab as ->. by rewrite Ebc.
  - apply str_compare_eq in Ebc as <-. by rewrite Eab.
  - by rewrite (str_compare_lt_trans _ _ _ Eab Ebc).
Qed.

End CompareFacts.

(** ** The retrieval index: expansion *)
Section ExpansionFacts.
Context `{PyLib} `{Index.Fts}.
Import Parser Index.

Lemma prefix_elem_of {A} (l1 l2 : list A) (x : A) :
  l1 `prefix_of` l2 -> x ∈ l1 -> x ∈ l2.
Proof. intros [k ->] Hx. apply elem_of_app. by left. Qed.

Lemma sql_limit_subseteq {A} (n : Z) (rows : list A) : sql_limit n rows ⊆ rows.
Proof.
  unfold sql_limit. destruct (n <? 0)%Z; [done|].
  apply subseteq_take.
Qed.

Lemma section_children_spec rows t s lim r :
  r ∈ section_children rows t s lim ->
  r ∈ rows /\ topic r = t /\ section r = s /\ node_type r <> lit "category".
Proof.
  unfold section_children, order_by_content_length.
  intros Hr%sql_limit_subseteq. apply elem_of_stable_sort in Hr.
  apply list_elem_of_filter in Hr. tauto.
Qed.

(** A hit was already merged, or it is one of the rows read, with the tag
    of the pass. *)
Lemma append_children_spec mt children : forall acc h,
  h ∈ (append_children mt children acc).2 ->
  h ∈ acc.2 \/ (match_type h = mt /\ hit_node h ∈ children).
Proof.
  induction children as [|row rest IH]; intros [seen merged] h; simpl; [auto|].
  destruct (is_empty (node_id row) || bool_decide (node_id row ∈ seen)).
  - intros [?|[? ?]]%IH; [auto|]. right. split; [done|]. by right.
  - intros [Hh|[? ?]]%IH.
    + simpl in Hh. apply elem_of_app in Hh as [?|Hh]; [auto|].
      apply list_elem_of_singleton in Hh as ->. right. split; [done|]. by left.
    + right. split; [done|]. by right.
Qed.

Lemma append_children_prefix mt children : forall acc,
  acc.2 `prefix_of` (append_children mt children acc).2.
Proof.
  induction children as [|row rest IH]; intros [seen merged]; simpl; [done|].
  destruct (is_empty (node_id row) || bool_decide (node_id row ∈ seen)); [apply IH|].
  etrans; [|apply IH]. simpl. by apply prefix_app_r.
Qed.

Lemma expand_keys_spec rows lim mt keys : forall acc h,
  h ∈ (foldl (_append_section_children rows lim mt) acc keys).2 ->
  h ∈ acc.2
  \/ (match_type h = mt /\ hit_node h ∈ rows
      /\ node_type (hit_node h) <> lit "category"
      /\ (topic (hit_node h), section (hit_node h)) ∈ keys).
Proof.
  induction keys as [|[t s] keys IH]; intros acc h; simpl; [auto|].
  intros [Hh|(? & ? & ? & ?)]%IH.
  - unfold _append_section_children in Hh.
    destruct (is_empty s || is_empty t); [auto|].
    apply append_children_spec in Hh as [?|[Hmt Hc]]; [auto|].
    apply section_children_spec in Hc as (? & <- & <- & ?).
    right. repeat split; try done. by left.
  - right. repeat split; try done. by right.
Qed.

Lemma expand_keys_prefix rows lim mt keys : forall acc,
  acc.2 `prefix_of` (foldl (_append_section_children rows lim mt) acc keys).2.
Proof.
  induction keys as [|[t s] keys IH]; intros acc; simpl; [done|].
  etrans; [|apply IH]. unfold _append_section_children.
  destruct (is_empty s || is_empty t); [done|]. apply append_children_prefix.
Qed.

(** The direct hit of a given type that gave a key. *)
Lemma key_from_direct (ty : str) (hits : list hit) (key : str * str) :
  key ∈ topic_section <$> filter (fun h => node_type (hit_node h) = ty) hits ->
  exists dh, dh ∈ hits /\ node_type (hit_node dh) = ty /\ topic_section dh = key.
Proof.
  intros (dh & -> & Hd)%list_elem_of_fmap. apply list_elem_of_filter in Hd as [? ?].
  by exists dh.
Qed.

(** C3: every hit that [search_index] returns with the tag
    ["section_related"] has the topic, and the section, of a direct hit of
    type [link] in the same result, the one whose topic and section were
    used to read it; likewise a hit tagged ["category_child"] and a direct
    hit of type [category].  Every row appended by an expansion is read
    with the topic of a direct hit. *)
Theorem expansion_stays_in_topic (d : db) (query : str) (limit : Z)
    (expand_categories : bool) (expand_limit_per_category : Z)
    (expand_related_sections : bool) (related_limit_per_section : Z) (h : hit) :
  let result := search_index d query limit expand_categories
                  expand_limit_per_category expand_related_sections
                  related_limit_per_section in
  h ∈ result ->
  (match_type h = lit "section_related" ->
     exists dh, dh ∈ result /\ match_type dh = lit "direct"
                /\ node_type (hit_node dh) = lit "link"
                /\ topic (hit_node h) = topic (hit_node dh)
                /\ section (hit_node h) = section (hit_node dh))
  /\ (match_type h = lit "category_child" ->
        exists dh, dh ∈ result /\ match_type dh = lit "direct"
                   /\ node_type (hit_node dh) = lit "category"
                   /\ topic (hit_node h) = topic (hit_node dh)
                   /\ section (hit_node h) = section (hit_node dh))
  /\ (match_type h <> lit "direct" ->
        exists dh, dh ∈ result /\ match_type dh = lit "direct"
                   /\ topic (hit_node h) = topic (hit_node dh)).
Proof.
  intros result. unfold search_index in result.
  set (hits := (fun r => mkHit r (lit "direct")) <$> direct_rows d query limit) in *.
  assert (Hdirect : forall x, x ∈ hits -> match_type x = lit "direct").
  { intros x (r & -> & _)%list_elem_of_fmap. done. }
  destruct expand_categories; simpl in result.
  2:{ intros Hh. apply Hdirect in Hh. rewrite Hh. repeat split; intros; done. }
  set (ckeys := topic_section <$>
                  filter (fun h => node_type (hit_node h) = lit "category") hits) in *.
  set (rkeys := stable_sort key_leb (remove_dups (topic_section <$>
                  filter (fun h => node_type (hit_node h) = lit "link") hits))) in *.
  set (seen0 := list_to_set ((fun h => node_id (hit_node h)) <$> hits) : gset str) in *.
  set (acc1 := foldl (_append_section_children (nodes d) expand_limit_per_category
                        (lit "category_child")) (seen0, hits) ckeys) in *.
  set (acc2 := foldl (_append_section_children (nodes d) related_limit_per_section
                        (lit "section_related")) acc1 rkeys) in *.
  assert (Hp1 : hits `prefix_of` acc1.2) by apply (expand_keys_prefix _ _ _ _ (seen0, hits)).
  assert (Hp2 : acc1.2 `prefix_of` acc2.2) by apply expand_keys_prefix.
  assert (Hsub : hits ⊆ result).
  { intros x Hx. subst result. destruct expand_related_sections.
    - eapply prefix_elem_of; [apply Hp2|]. by eapply prefix_elem_of.
    - by eapply prefix_elem_of. }
  assert (Hcat : forall x, x ∈ acc1.2 ->
            x ∈ hits \/ (match_type x = lit "category_child"
                         /\ topic_section x ∈ ckeys)).
  { intros x [?|(? & _ & _ & ?)]%expand_keys_spec; [by left|by right]. }
  assert (Hall : h ∈ result ->
            h ∈ hits
            \/ (match_type h = lit "category_child" /\ topic_section h ∈ ckeys)
            \/ (match_type h = lit "section_related" /\ topic_section h ∈ rkeys)).
  { subst result. destruct expand_related_sections.
    - intros [Hx|(? & _ & _ & ?)]%expand_keys_spec; [|by right; right].
      destruct (Hcat _ Hx); auto.
    - intros Hx. destruct (Hcat _ Hx); auto. }
  intros Hh. destruct (Hall Hh) as [Hd|[[Hmt Hk]|[Hmt Hk]]].
  - apply Hdirect in Hd. rewrite Hd. repeat split; intros; done.
  - apply key_from_direct in Hk as (dh & Hdh & Hty & Hkey).
    injection Hkey as Ht Hs.
    rewrite Hmt. repeat split; try done; intros _;
      exists dh; repeat split; auto.
  - apply elem_of_stable_sort, elem_of_remove_dups, key_from_direct in Hk
      as (dh & Hdh & Hty & Hkey).
    injection Hkey as Ht Hs.
    rewrite Hmt. repeat split; try done; intros _;
      exists dh; repeat split; auto.
Qed.

End ExpansionFacts.

(** ** The [LIKE] matcher *)
Section LikeFacts.
Import Parser Index.

Lemma Sorted_mono {A} (R R' : A -> A -> Prop) (l : list A) :
  (forall a b, R a b -> R' a b) -> Sorted R l -> Sorted R' l.
Proof.
  intros HR. induction 1 as [|x l Hs IH Hhd]; constructor; [done|].
  destruct Hhd; constructor; auto.
Qed.

Lemma Sorted_prefix {A} (R : A -> A -> Prop) (l1 l2 : list A) :
  l1 `prefix_of` l2 -> Sorted R l2 -> Sorted R l1.
Proof.
  intros [k ->]. induction l1 as [|x l1 IH]; simpl; [constructor|].
  intros Hs. inversion Hs as [|? ? Hs' Hhd]; subst.
  constructor; [by apply IH|]. destruct l1; simpl in *; [constructor|].
  inversion Hhd; subst. by constructor.
Qed.




Lemma contains_unfold (sub s : str) :
  contains sub s
  = startswith sub s || match s with [] => false | _ :: r => contains sub r end.
Proof. by destruct s. Qed.

Lemma contains_spec (sub s : str) :
  contains sub s = true <-> exists a b, s = a ++ sub ++ b.
Proof.
  split.
  - induction s as [|c s IH]; simpl.
    + rewrite orb_false_r. intros [r Hr]%startswith_prefix. by exists [], r.
    + intros [[r Hr]%startswith_prefix|Hs]%orb_true_iff; [by exists [], r|].
      destruct (IH Hs) as (a & b & ->). by exists (c :: a), b.
  - intros (a & b & ->). induction a as [|c a IH]; simpl.
    + by rewrite contains_unfold, startswith_app.
    + by rewrite IH, orb_true_r.
Qed.












End LikeFacts.

(** ** The fallback tokenizer *)
Section TokenFacts.
Context `{PyLib}.
Import Parser Index.


Lemma token_runs_cons_other c s :
  is_token_char c = false -> token_runs (c :: s) = token_runs s.
Proof. intros Hc. simpl. by rewrite Hc. Qed.

(** Characters outside the class separate the runs. *)
Lemma token_runs_separator sep s :
  Forall (fun c => is_token_char c = false) sep -> token_runs (sep ++ s) = token_runs s.
Proof.
  induction 1 as [|c sep Hc _ IH]; [done|].
  change (token_runs (c :: (sep ++ s)) = token_runs s).
  by rewrite token_runs_cons_other.
Qed.








End TokenFacts.

(** ** The substring matcher *)
Section MatcherFacts.
Context `{PyLib}.
Import Parser Index.

Lemma like_clause_nil r : like_clause [] r = false.
Proof. reflexivity. Qed.






End MatcherFacts.

Section MatcherExamples.
Import Parser Index Concrete.
#[local] Existing Instance ascii_lib.



End MatcherExamples.

(** ** Iterative search *)
Section IterativeFacts.
Context `{PyLib} `{Index.Fts}.
Import Parser Index.






End IterativeFacts.

Section IterativeExamples.
Import Parser Index Concrete.
#[local] Existing Instance ascii_lib.
#[local] Existing Instance no_fts.



End IterativeExamples.

Section ExpansionExamples.
Import Parser Index Concrete.
#[local] Existing Instance ascii_lib.
#[local] Existing Instance no_fts.

Lemma expansion_stays_in_topic_witness :
  search_index two_topic_db (lit "Codex CLI") 5 true 200 true 20
  = [mkHit (link_row "a1" "Topic A" "Codex CLI in A") (lit "direct");
     mkHit (link_row "a2" "Topic A" "Other in A") (lit "section_related")]
  /\ exists dh,
       dh ∈ search_index two_topic_db (lit "Codex CLI") 5 true 200 true 20
       /\ match_type dh = lit "direct"
       /\ node_type (hit_node dh) = lit "link"
       /\ lit "Topic A" = topic (hit_node dh)
       /\ lit "section/Group" = section (hit_node dh).
Proof.
  split; [vm_compute; reflexivity|].
  apply (expansion_stays_in_topic two_topic_db (lit "Codex CLI") 5 true 200 true 20
           (mkHit (link_row "a2" "Topic A" "Other in A") (lit "section_related"))).
  - vm_compute. right. left.
  - reflexivity.
Defined.

End ExpansionExamples.

(** ** The graph neighbour resolver *)
Section GraphFacts.
Context `{PyLib}.
Import Graph.

Lemma bump_topics t c acc :
  u_topic <$> bump t c acc
  = if decide (t ∈ (u_topic <$> acc)) then u_topic <$> acc else (u_topic <$> acc) ++ [t].
Proof.
  induction acc as [|u acc IH].
  - destruct (decide (t ∈ (u_topic <$> []))) as [Hin|_]; [|done].
    by apply not_elem_of_nil in Hin.
  - cbn [bump]. destruct (decide (u_topic u = t)) as [<-|Hne]; rewrite !fmap_cons.
    + change (u_topic (count_edge c u)) with (u_topic u).
      destruct (decide (u_topic u ∈ u_topic u :: (u_topic <$> acc))) as [_|Hout]; [done|].
      exfalso. apply Hout. by left.
    + rewrite IH. destruct (decide (t ∈ (u_topic <$> acc))) as [Hin|Hout];
        destruct (decide (t ∈ u_topic u :: (u_topic <$> acc))) as [Hin'|Hout']; try done.
      * exfalso. apply Hout'. by right.
      * exfalso. apply elem_of_cons in Hin' as [?|?]; [congruence|done].
Qed.

(** An entry after the update is an untouched entry of another topic, the
    updated entry of the topic, or the entry made for a new topic. *)
Lemma bump_elem t c acc u' :
  NoDup (u_topic <$> acc) -> u' ∈ bump t c acc ->
  (u' ∈ acc /\ u_topic u' <> t)
  \/ (exists u, u ∈ acc /\ u_topic u = t /\ u' = count_edge c u)
  \/ ((t ∉ (u_topic <$> acc)) /\ u' = count_edge c (mkUpstream t 0 [])).
Proof.
  induction acc as [|u acc IH]; simpl; intros Hnd.
  - intros ->%list_elem_of_singleton. right. right. split; [apply not_elem_of_nil|done].
  - apply NoDup_cons in Hnd as [Hu Hnd].
    destruct (decide (u_topic u = t)) as [Ht|Hne].
    + intros [->|Hu']%elem_of_cons.
      * right. left. exists u. split; [by left|done].
      * left. split; [by right|]. intros Ht'. apply Hu. rewrite Ht, <- Ht'.
        apply list_elem_of_fmap. by exists u'.
    + intros [->|Hu']%elem_of_cons.
      * left. split; [by left|done].
      * destruct (IH Hnd Hu') as [[? ?]|[(u0 & ? & ? & ?)|[Hout ?]]].
        -- left. split; [by right|done].
        -- right. left. exists u0. split; [by right|done].
        -- right. right. split; [|done].
           intros [?|?]%elem_of_cons; [congruence|done].
Qed.

Lemma edges_under_snoc topic l e :
  edges_under topic (l ++ [e])
  = edges_under topic l ++ (if decide (referring_topic e = topic) then [e] else []).
Proof.
  unfold edges_under. by rewrite filter_app.
Qed.

Lemma aggregates_other l e u :
  referring_topic e <> u_topic u -> aggregates l u -> aggregates (l ++ [e]) u.
Proof.
  intros Hne (Hc & H1 & H3 & Hnd & Hs). repeat split; try done.
  - rewrite edges_under_snoc. destruct (decide _); [done|]. by rewrite app_nil_r.
  - by apply Hs.
  - destruct (Hs s) as [_ (e' & ? & ? & ?)]; [done|].
    exists e'. split; [|done]. apply elem_of_app. by left.
Qed.

Lemma count_edge_aggregates l e u :
  u_topic u = referring_topic e ->
  u_count u = Z.of_nat (length (edges_under (u_topic u) l)) ->
  (length (u_samples u) <= 3)%nat -> NoDup (u_samples u) ->
  (forall s, s ∈ u_samples u ->
     s <> [] /\ exists e', e' ∈ l /\ referring_topic e' = u_topic u
                           /\ strip (e_query_cmd e') = s) ->
  aggregates (l ++ [e]) (count_edge (strip (e_query_cmd e)) u).
Proof.
  intros Ht Hc H3 Hnd Hs. unfold aggregates, count_edge. simpl.
  set (c := strip (e_query_cmd e)).
  assert (Hold : forall s, s ∈ u_samples u ->
            s <> [] /\ exists e', e' ∈ l ++ [e] /\ referring_topic e' = u_topic u
                                  /\ strip (e_query_cmd e') = s).
  { intros s Hin. destruct (Hs s Hin) as [? (e' & ? & ? & ?)]. split; [done|].
    exists e'. split; [|done]. apply elem_of_app. by left. }
  split; [|split].
  - rewrite edges_under_snoc, length_app. destruct (decide _); [simpl; lia|congruence].
  - lia.
  - destruct (negb (is_empty c) && bool_decide (c ∉ u_samples u)
              && (length (u_samples u) <? 3)%nat) eqn:E.
    + apply andb_true_iff in E as [E El]. apply andb_true_iff in E as [Ee Ein].
      apply Nat.ltb_lt in El. apply bool_decide_eq_true in Ein.
      apply negb_true_iff, is_empty_false in Ee.
      split; [rewrite length_app; simpl; lia|]. split.
      * apply NoDup_app. split; [done|]. split; [|apply NoDup_singleton].
        intros s Hin ->%list_elem_of_singleton. done.
      * intros s [Hin|Hin]%elem_of_app; [by apply Hold|].
        apply list_elem_of_singleton in Hin as ->.
        split; [done|]. exists e. split; [|done].
        apply elem_of_app. right. by left.
    + done.
Qed.

(** The aggregation loop keeps one entry per topic, in agreement with the
    edges read so far, and every edge read has an entry. *)
Lemma aggregate_spec l :
  NoDup (u_topic <$> aggregate l)
  /\ (forall u, u ∈ aggregate l -> aggregates l u)
  /\ (forall e, e ∈ l -> referring_topic e ∈ (u_topic <$> aggregate l)).
Proof.
  induction l as [|e l IH] using rev_ind.
  - split; [constructor|]. split; intros ? ?%not_elem_of_nil; done.
  - destruct IH as (Hnd & Hall & Hcov).
    unfold aggregate in *. rewrite foldl_snoc.
    set (acc := foldl _ [] l) in *.
    set (t := referring_topic e). set (c := strip (e_query_cmd e)).
    split; [|split].
    + rewrite bump_topics. destruct (decide _) as [|Hout]; [done|].
      apply NoDup_app. split; [done|]. split; [|apply NoDup_singleton].
      intros x Hx ->%list_elem_of_singleton. done.
    + intros u' [[Hu Hne]|[(u & Hu & Ht & ->)|[Hout ->]]]%bump_elem; [| |
        |done].
      * apply aggregates_other; [done|by apply Hall].
      * destruct (Hall u Hu) as (? & ? & ? & ? & ?).
        by apply count_edge_aggregates.
      * apply count_edge_aggregates; simpl; try done; [|lia|constructor|].
        -- assert (edges_under t l = []) as ->; [|done].
           unfold edges_under.
           destruct (filter _ l) as [|e' k] eqn:E; [done|]. exfalso.
           assert (e' ∈ filter (fun e0 => referring_topic e0 = t) l) as Hin
               by (rewrite E; by left).
           apply list_elem_of_filter in Hin as [<- Hin]. by apply Hout, Hcov.
        -- intros s ?%not_elem_of_nil. done.
    + intros e' [Hin|Hin]%elem_of_app; rewrite bump_topics;
        destruct (decide (t ∈ (u_topic <$> acc))) as [Hin'|Hout].
      * by apply Hcov.
      * apply elem_of_app. left. by apply Hcov.
      * by apply list_elem_of_singleton in Hin as ->.
      * apply list_elem_of_singleton in Hin as ->. apply elem_of_app. right. by left.
Qed.

Lemma upstream_leb_total a b : upstream_leb a b = true \/ upstream_leb b a = true.
Proof.
  unfold upstream_leb.
  rewrite (Z.compare_antisym (- u_count a) (- u_count b)).
  rewrite (str_compare_opp (lower (u_topic a)) (lower (u_topic b))).
  rewrite lex_opp. apply not_gt_total.
Qed.

Lemma outbound_leb_total a b : outbound_leb a b = true \/ outbound_leb b a = true.
Proof.
  unfold outbound_leb.
  rewrite (str_compare_opp (lower (e_query_kind a)) (lower (e_query_kind b))).
  rewrite (str_compare_opp (lower (e_query_exec_title a)) (lower (e_query_exec_title b))).
  rewrite lex_opp. apply not_gt_total.
Qed.

Lemma upstream_leb_order a b : upstream_leb a b = true -> upstream_order a b.
Proof.
  unfold upstream_leb, upstream_order, str_leb.
  destruct (- u_count a ?= - u_count b)%Z eqn:E; simpl; intros Hle; try done.
  - apply Z.compare_eq, Z.opp_inj in E. by right.
  - apply Z.compare_lt_iff, Z.opp_lt_mono in E. by left.
Qed.

Lemma outbound_leb_order a b : outbound_leb a b = true -> outbound_order a b.
Proof.
  unfold outbound_leb, outbound_order, str_leb.
  destruct (str_compare (lower (e_query_kind a)) (lower (e_query_kind b))) eqn:E;
    simpl; intros Hle; try done.
  - apply str_compare_eq in E. by right.
  - by left.
Qed.

Lemma outbound_inputs_elem l : forall seen inp,
  inp ∈ outbound_inputs seen l ->
  (lower inp ∉ seen)
  /\ exists e, e ∈ l /\ strip (e_query_exec_title e) <> []
               /\ inp = _to_input_from_exec_title (strip (e_query_exec_title e)).
Proof.
  induction l as [|e l IH]; intros seen inp; simpl; [by intros ?%not_elem_of_nil|].
  destruct (is_empty (strip (e_query_exec_title e))) eqn:Ee.
  - intros Hin. apply IH in Hin as [? (e' & ? & ? & ?)]. split; [done|].
    exists e'. split; [by right|done].
  - apply is_empty_false in Ee. destruct (decide _) as [Hs|Hs].
    + intros Hin. apply IH in Hin as [? (e' & ? & ? & ?)]. split; [done|].
      exists e'. split; [by right|done].
    + intros [->|Hin]%elem_of_cons.
      * split; [done|]. exists e. split; [by left|done].
      * apply IH in Hin as [Hout (e' & ? & ? & ?)]. split.
        -- intros Hx. apply Hout, elem_of_union. by right.
        -- exists e'. split; [by right|done].
Qed.

Lemma outbound_inputs_NoDup l : forall seen, NoDup (lower <$> outbound_inputs seen l).
Proof.
  induction l as [|e l IH]; intros seen; simpl; [constructor|].
  destruct (is_empty (strip (e_query_exec_title e))); [apply IH|].
  destruct (decide _); [apply IH|].
  rewrite fmap_cons. constructor; [|apply IH].
  intros (inp & Hl & Hin)%list_elem_of_fmap.
  apply outbound_inputs_elem in Hin as [Hout _]. rewrite <- Hl in Hout.
  apply Hout, elem_of_union. left. by apply elem_of_singleton.
Qed.

Lemma slice_cap_length {A} (limit : Z) (l : list A) :
  (Z.of_nat (length (take (slice_cap limit) l)) <= Z.max 1 limit)%Z.
Proof. rewrite length_take. unfold slice_cap. lia. Qed.

(** C9, amended: [graph_neighbors_from_edges] returns at most
    [max(1, limit)] inbound edges and at most [max(1, limit)] outbound
    edges.  The inbound edges it kept are aggregated per referring topic:
    one aggregate per topic, with the number of those edges and at most 3
    distinct, non-empty raw commands of them; the aggregates are sorted by
    descending count, then by topic name in lower case.  The outbound edges
    are sorted by kind, then exec title, both in lower case, and the
    follow-up inputs derived from their exec titles are pairwise distinct
    in lower case. *)
Theorem graph_neighbors_spec (edges : list Edge) (target_title : str) (limit : Z) :
  let r := graph_neighbors_from_edges edges target_title limit in
  (Z.of_nat (length (inbound_edges r)) <= Z.max 1 limit)%Z
  /\ (Z.of_nat (length (outbound_edges r)) <= Z.max 1 limit)%Z
  /\ (forall e, e ∈ inbound_edges r ->
        e ∈ edges
        /\ _canonical_exec_title_key (e_query_exec_title e) = canonical_target r)
  /\ (forall e, e ∈ outbound_edges r ->
        e ∈ edges
        /\ _canonical_topic_key (e_topic e)
           = _topic_key_from_exec_title (target_exec_title r))
  /\ NoDup (u_topic <$> upstream_topics r)
  /\ (forall u, u ∈ upstream_topics r -> aggregates (inbound_edges r) u)
  /\ (forall e, e ∈ inbound_edges r ->
        referring_topic e ∈ (u_topic <$> upstream_topics r))
  /\ Sorted upstream_order (upstream_topics r)
  /\ Sorted outbound_order (outbound_edges r)
  /\ NoDup (lower <$> outbound_followups r)
  /\ (forall inp, inp ∈ outbound_followups r ->
        exists e, e ∈ outbound_edges r /\ strip (e_query_exec_title e) <> []
                  /\ inp = _to_input_from_exec_title (strip (e_query_exec_title e))).
Proof.
  intros r. unfold graph_neighbors_from_edges in r. subst r. simpl.
  set (target := _normalize_graph_target_title target_title).
  set (inbound := take (slice_cap limit) (stable_sort inbound_leb _)).
  set (outbound := take (slice_cap limit) (stable_sort outbound_leb _)).
  destruct (aggregate_spec inbound) as (Hnd & Hall & Hcov).
  repeat apply conj.
  - apply slice_cap_length.
  - apply slice_cap_length.
  - intros e He. apply subseteq_take, elem_of_stable_sort, list_elem_of_filter in He.
    tauto.
  - intros e He. apply subseteq_take, elem_of_stable_sort, list_elem_of_filter in He.
    tauto.
  - by rewrite stable_sort_perm.
  - intros u Hu. apply Hall. by apply elem_of_stable_sort in Hu.
  - intros e He. rewrite stable_sort_perm. by apply Hcov.
  - eapply Sorted_mono; [apply upstream_leb_order|].
    apply stable_sort_Sorted, upstream_leb_total.
  - eapply Sorted_prefix; [apply prefix_take|].
    eapply Sorted_mono; [apply outbound_leb_order|].
    apply stable_sort_Sorted, outbound_leb_total.
  - rewrite fmap_take. eapply sublist_NoDup; [|apply sublist_take].
    apply outbound_inputs_NoDup.
  - intros inp Hin. apply subseteq_take in Hin.
    by apply outbound_inputs_elem in Hin as [_ ?].
Qed.

End GraphFacts.

Section GraphExamples.
Import Graph Concrete.
#[local] Existing Instance ascii_lib.

Lemma graph_neighbors_spec_witness :
  let r := graph_neighbors_from_edges test_edges (lit "->vibe coding/:") 20 in
  test_edges !! 0%nat = Some (mkEdge (lit "Awesome Search") (lit "searchin")
     (lit "Vibe Coding") (lit ">Vibe Coding") (lit ">Vibe Coding/") (lit "topic_nav")
     (lit "searchin"))
  /\ aggregates (inbound_edges r) (mkUpstream (lit "Awesome Search") 1 [lit ">Vibe Coding"]).
Proof.
  split; [reflexivity|].
  apply (graph_neighbors_spec test_edges (lit "->vibe coding/:") 20).
  vm_compute. by left.
Defined.

(** C9 as stated fails: with [limit = 0] the resolver still returns one
    inbound and one outbound edge, since both lists are cut at
    [max(1, limit)]. *)
Lemma graph_neighbors_counterexample :
  let r := graph_neighbors_from_edges test_edges (lit "->vibe coding/:") 0 in
  length (inbound_edges r) = 1%nat /\ length (outbound_edges r) = 1%nat
  /\ ~ (Z.of_nat (length (inbound_edges r)) <= 0)%Z.
Proof. vm_compute. repeat split; congruence. Qed.

End GraphExamples.

(** ** Candidate generation *)
Section CandidateFacts.
Context `{PyLib}.
Import Graph Explore.
Variables (Ve Vt : gset str) (es : str).

Lemma append_nav_items_spec source items : forall acc c,
  c ∈ (append_nav_items Ve Vt es source items acc).2 ->
  c ∈ acc.2 \/ passes_filters Ve Vt c.
Proof.
  induction items as [|item rest IH]; intros [seen out] c; simpl; [auto|].
  destruct (is_empty (strip (nav_query_exec_title item))); [apply IH|].
  set (k := _canonical_edge_key (strip (nav_query_exec_title item))).
  destruct (is_empty k || bool_decide (k ∈ seen) || bool_decide (k ∈ Ve)) eqn:Ek;
    [apply IH|].
  set (tk := _canonical_topic_key (root_topic_from_title (strip (nav_query_exec_title item)))).
  destruct (topic_level (kind_or_unknown item) && negb (is_empty tk)
            && bool_decide (tk ∈ Vt)) eqn:Et; [apply IH|].
  intros Hc. apply IH in Hc as [Hc|?]; [|by right]. simpl in Hc.
  apply elem_of_app in Hc as [?|Hc]; [by left|]. right.
  apply list_elem_of_singleton in Hc as ->.
  apply orb_false_iff in Ek as [Ek Eve]. apply orb_false_iff in Ek as [Eke _].
  apply bool_decide_eq_false in Eve. apply is_empty_false in Eke.
  repeat split; try done. simpl. intros Htl Hne.
  change (tk <> []) in Hne. change (tk ∉ Vt). rewrite Htl in Et. simpl in Et.
  apply is_empty_false in Hne. rewrite Hne in Et. simpl in Et.
  by apply bool_decide_eq_false in Et.
Qed.

Lemma append_backlinks_spec inputs : forall acc c,
  c ∈ (_append_backlinks Ve Vt es inputs acc).2 ->
  c ∈ acc.2 \/ passes_filters Ve Vt c.
Proof.
  induction inputs as [|inp rest IH]; intros [seen out] c; simpl; [auto|].
  destruct (is_empty (strip inp)); [apply IH|].
  set (title := default (strip inp) (resolve_title_from_input (strip inp))).
  set (k := _canonical_edge_key title).
  destruct (is_empty k || bool_decide (k ∈ seen) || bool_decide (k ∈ Ve)) eqn:Ek;
    [apply IH|].
  set (tk := _canonical_topic_key (root_topic_from_title title)).
  destruct (negb (is_empty tk) && bool_decide (tk ∈ Vt)) eqn:Et; [apply IH|].
  intros Hc. apply IH in Hc as [Hc|?]; [|by right]. simpl in Hc.
  apply elem_of_app in Hc as [?|Hc]; [by left|]. right.
  apply list_elem_of_singleton in Hc as ->.
  apply orb_false_iff in Ek as [Ek Eve]. apply orb_false_iff in Ek as [Eke _].
  apply bool_decide_eq_false in Eve. apply is_empty_false in Eke.
  repeat split; try done. simpl. intros _ Hne.
  change (tk <> []) in Hne. change (tk ∉ Vt). apply is_empty_false in Hne. rewrite Hne in Et. simpl in Et.
  by apply bool_decide_eq_false in Et.
Qed.

(** The keys seen and the records collected only grow, and stay in step. *)
Lemma append_nav_items_grows source items : forall acc,
  (forall k, k ∈ acc.1 -> k ∈ (append_nav_items Ve Vt es source items acc).1)
  /\ (seen_collected acc ->
      seen_collected (append_nav_items Ve Vt es source items acc)).
Proof.
  induction items as [|item rest IH]; intros [seen out]; simpl; [done|].
  destruct (is_empty (strip (nav_query_exec_title item))); [apply (IH (seen, out))|].
  destruct (_ || _ || _); [apply (IH (seen, out))|].
  destruct (_ && _ && _); [apply (IH (seen, out))|].
  destruct (IH ({[_canonical_edge_key (strip (nav_query_exec_title item))]} ∪ seen,
               out ++ [mkCandidate (nav_title item) (kind_or_unknown item)
                         (source_or_unknown item) (strip (nav_query_cmd item))
                         (strip (nav_query_exec_title item))
                         (_to_input_from_exec_title (strip (nav_query_exec_title item)))
                         source (source_priority es source)
                         (_canonical_topic_key
                            (root_topic_from_title (strip (nav_query_exec_title item))))]))
    as [Hmono Hcol].
  split.
  - intros k Hk. apply Hmono. simpl. apply elem_of_union. by right.
  - intros Hsc. apply Hcol. intros k Hk. simpl in Hk.
    apply elem_of_union in Hk as [Hk|Hk].
    + apply elem_of_singleton in Hk as ->. eexists. split.
      * simpl. apply elem_of_app. right. by left.
      * reflexivity.
    + destruct (Hsc k Hk) as (c & Hc & <-). exists c. split; [|done].
      simpl. apply elem_of_app. by left.
Qed.

Lemma append_backlinks_grows inputs : forall acc,
  (forall k, k ∈ acc.1 -> k ∈ (_append_backlinks Ve Vt es inputs acc).1)
  /\ (seen_collected acc -> seen_collected (_append_backlinks Ve Vt es inputs acc)).
Proof.
  induction inputs as [|inp rest IH]; intros [seen out]; simpl; [done|].
  destruct (is_empty (strip inp)); [apply (IH (seen, out))|].
  destruct (_ || _ || _); [apply (IH (seen, out))|].
  destruct (_ && _); [apply (IH (seen, out))|].
  set (title := default (strip inp) (resolve_title_from_input (strip inp))).
  destruct (IH ({[_canonical_edge_key title]} ∪ seen,
               out ++ [mkCandidate (root_topic_from_title title) (lit "backlink")
                         (lit "graph") [] title (_to_input_from_exec_title title)
                         (lit "backlink") (source_priority es (lit "backlink"))
                         (_canonical_topic_key (root_topic_from_title title))]))
    as [Hmono Hcol].
  split.
  - intros k Hk. apply Hmono. simpl. apply elem_of_union. by right.
  - intros Hsc. apply Hcol. intros k Hk. simpl in Hk.
    apply elem_of_union in Hk as [Hk|Hk].
    + apply elem_of_singleton in Hk as ->. eexists. split.
      * simpl. apply elem_of_app. right. by left.
      * reflexivity.
    + destruct (Hsc k Hk) as (c & Hc & <-). exists c. split; [|done].
      simpl. apply elem_of_app. by left.
Qed.

(** An entry whose kind is not topic-level and whose key is fresh has its
    key among the keys seen after the loop, whatever the visited topics. *)
Lemma append_nav_items_covers source items : forall acc item,
  item ∈ items ->
  strip (nav_query_exec_title item) <> [] ->
  nav_exec_key item <> [] -> nav_exec_key item ∉ Ve ->
  topic_level (kind_or_unknown item) = false ->
  nav_exec_key item ∈ (append_nav_items Ve Vt es source items acc).1.
Proof.
  induction items as [|it rest IH]; intros [seen out] item; [by intros ?%not_elem_of_nil|].
  intros [->|Hin]%elem_of_cons Hq Hk Hve Htl; simpl.
  - apply is_empty_false in Hq. rewrite Hq.
    fold (nav_exec_key it).
    apply is_empty_false in Hk. rewrite Hk. simpl.
    rewrite (bool_decide_eq_false_2 (nav_exec_key it ∈ Ve)) by done.
    rewrite orb_false_r. rewrite Htl. simpl.
    case_bool_decide as Es.
    + by apply append_nav_items_grows.
    + apply append_nav_items_grows. simpl. apply elem_of_union. left.
      by apply elem_of_singleton.
  - destruct (is_empty (strip (nav_query_exec_title it))); [by apply IH|].
    destruct (_ || _ || _); [by apply IH|].
    destruct (_ && _ && _); by apply IH.
Qed.

Lemma dedup_nav_covers ordered : forall seen item,
  item ∈ ordered -> strip (nav_query_exec_title item) <> [] ->
  (kind_or_unknown item, source_or_unknown item, nav_exec_key item) ∈ seen
  \/ exists item', item' ∈ dedup_nav seen ordered
       /\ strip (nav_query_exec_title item') <> []
       /\ kind_or_unknown item' = kind_or_unknown item
       /\ nav_exec_key item' = nav_exec_key item.
Proof.
  induction ordered as [|it rest IH]; intros seen item; [by intros ?%not_elem_of_nil|].
  intros [->|Hin]%elem_of_cons Hq; simpl.
  - pose proof Hq as Hq'. apply is_empty_false in Hq'. rewrite Hq'.
    fold (nav_exec_key it).
    destruct (decide _) as [Hs|Hs]; [by left|].
    right. exists it. split; [by left|done].
  - destruct (is_empty (strip (nav_query_exec_title it))) eqn:Ei.
    + destruct (IH seen item Hin Hq) as [?|(item' & ? & ?)]; [by left|].
      right. by exists item'.
    + fold (nav_exec_key it). destruct (decide _) as [Hs|Hs].
      * destruct (IH seen item Hin Hq) as [?|(item' & ? & ?)]; [by left|].
        right. by exists item'.
      * destruct (IH ({[(kind_or_unknown it, source_or_unknown it, nav_exec_key it)]} ∪ seen)
                    item Hin Hq) as [Hk|(item' & ? & ?)].
        -- apply elem_of_union in Hk as [Hk|Hk]; [|by left].
           apply elem_of_singleton in Hk. injection Hk as Hkind _ Hkey.
           right. exists it. split; [by left|]. apply is_empty_false in Ei. done.
        -- right. exists item'. split; [by right|done].
Qed.

Lemma build_navigation_candidates_covers nav io item :
  item ∈ nav_entries io nav -> strip (nav_query_exec_title item) <> [] ->
  exists item', item' ∈ build_navigation_candidates nav (lit "topic_first") io
    /\ strip (nav_query_exec_title item') <> []
    /\ kind_or_unknown item' = kind_or_unknown item
    /\ nav_exec_key item' = nav_exec_key item.
Proof.
  intros Hin Hq. unfold build_navigation_candidates.
  case_bool_decide; [done|]. case_bool_decide; [done|].
  assert (item ∈ (if io then (topic_navigation nav ++ knowledge_search nav)
                             ++ other_queries nav
                  else topic_navigation nav ++ knowledge_search nav)) as Hin'.
  { unfold nav_entries in Hin. destruct io.
    - by rewrite <- app_assoc.
    - by rewrite app_nil_r in Hin. }
  destruct (dedup_nav_covers _ ∅ item Hin' Hq) as [Hk|?]; [|done].
  by apply not_elem_of_empty in Hk.
Qed.

End CandidateFacts.

Section CandidateTheorem.
Context `{PyLib}.
Import Graph Explore.

Lemma canonical_edge_key_empty : _canonical_edge_key [] = [].
Proof. unfold _canonical_edge_key. apply lower_empty. Qed.

Lemma kb_search_not_topic_level : topic_level (lit "kb_search") = false.
Proof. vm_compute. reflexivity. Qed.

(** C2, amended: every candidate that [build_explore_candidates] returns
    has an exec-title key outside the visited exec titles, and, when its
    kind is topic-level ([topic_nav] or [backlink]) and the topic key
    derived from its exec title is not empty, that key is outside the
    visited topics.  An entry
    of kind [kb_search] with a fresh exec-title key is not subject to the
    topic filter: whatever the visited topics, a candidate with its key is
    among the ranked candidates, of which the result is the first
    [max(1, max_candidates)]. *)
Theorem candidates_respect_visited (visited_exec visited_topics : gset str)
    (edge_strategy : str) (searchin_navigation command_navigation : Nav)
    (backlink_inputs : list str) (include_other_queries : bool) (max_candidates : Z) :
  let result :=
    build_explore_candidates visited_exec visited_topics edge_strategy
      searchin_navigation command_navigation backlink_inputs include_other_queries
      max_candidates in
  let ranked :=
    stable_sort candidate_leb
      (candidate_pool visited_exec visited_topics edge_strategy searchin_navigation
         command_navigation backlink_inputs include_other_queries) in
  (forall c, c ∈ result -> passes_filters visited_exec visited_topics c)
  /\ result = take (Z.to_nat (Z.max 1 max_candidates)) ranked
  /\ (forall nav item,
        nav = searchin_navigation \/ nav = command_navigation ->
        item ∈ nav_entries include_other_queries nav ->
        kind_or_unknown item = lit "kb_search" ->
        nav_exec_key item <> [] -> nav_exec_key item ∉ visited_exec ->
        exists c, c ∈ ranked /\ exec_key c = nav_exec_key item).
Proof.
  intros result ranked. subst result ranked.
  unfold build_explore_candidates, candidate_pool.
  set (acc1 := _append_nav visited_exec visited_topics edge_strategy
                 include_other_queries searchin_navigation (lit "searchin_section") (∅, [])).
  set (acc2 := _append_nav visited_exec visited_topics edge_strategy
                 include_other_queries command_navigation (lit "command_section") acc1).
  set (acc3 := _append_backlinks visited_exec visited_topics edge_strategy
                 backlink_inputs acc2).
  split; [|split; [done|]].
  - intros c Hc. apply subseteq_take, elem_of_stable_sort in Hc.
    apply append_backlinks_spec in Hc as [Hc|?]; [|done].
    apply append_nav_items_spec in Hc as [Hc|?]; [|done].
    apply append_nav_items_spec in Hc as [Hc|?]; [|done].
    by apply not_elem_of_nil in Hc.
  - intros nav item Hnav Hin Hkind Hkey Hfresh.
    assert (strip (nav_query_exec_title item) <> []) as Hq.
    { intros E. apply Hkey. unfold nav_exec_key. rewrite E.
      apply canonical_edge_key_empty. }
    destruct (build_navigation_candidates_covers nav include_other_queries item Hin Hq)
      as (item' & Hin' & Hq' & Hk' & Hkey').
    assert (Hsc1 : seen_collected acc1).
    { apply append_nav_items_grows. intros k Hk. by apply not_elem_of_empty in Hk. }
    assert (Hsc2 : seen_collected acc2) by (by apply append_nav_items_grows).
    assert (Hsc3 : seen_collected acc3) by (by apply append_backlinks_grows).
    assert (Hcov : forall source acc,
              nav_exec_key item ∈
                (_append_nav visited_exec visited_topics edge_strategy
                   include_other_queries nav source acc).1).
    { intros source acc. rewrite <- Hkey'. apply append_nav_items_covers; try done.
      - by rewrite Hkey'.
      - by rewrite Hkey'.
      - rewrite Hk', Hkind. apply kb_search_not_topic_level. }
    assert (nav_exec_key item ∈ acc3.1) as Hseen.
    { apply append_backlinks_grows. destruct Hnav as [->| ->].
      - apply append_nav_items_grows. apply Hcov.
      - apply Hcov. }
    destruct (Hsc3 _ Hseen) as (c & Hc & Hck).
    exists c. split; [|done]. by apply elem_of_stable_sort.
Qed.

End CandidateTheorem.

Section CandidateExamples.
Import Graph Explore Concrete.
#[local] Existing Instance ascii_lib.

Lemma candidates_respect_visited_witness :
  (exists c, c ∈ stable_sort candidate_leb
                   (candidate_pool test_visited_exec test_visited_topics
                      (lit "searchin_command_backlink") test_searchin_nav
                      test_command_nav [lit "xlb >Awesome Search/"] false)
             /\ exec_key c = nav_exec_key codex_item)
  /\ c_input <$> build_explore_candidates test_visited_exec test_visited_topics
                   (lit "searchin_command_backlink") test_searchin_nav test_command_nav
                   [lit "xlb >Awesome Search/"] false 10
     = [lit "xlb >vibe coding/codex cli"].
Proof.
  split; [|vm_compute; reflexivity].
  destruct (candidates_respect_visited test_visited_exec test_visited_topics
              (lit "searchin_command_backlink") test_searchin_nav test_command_nav
              [lit "xlb >Awesome Search/"] false 10) as (_ & _ & Hkb).
  apply (Hkb test_command_nav codex_item).
  - by right.
  - vm_compute. by left.
  - vm_compute. reflexivity.
  - vm_compute. discriminate.
  - unfold test_visited_exec. intros Hin%elem_of_singleton.
    vm_compute in Hin. discriminate.
Defined.

(** C2 as stated fails: no root topic can be derived from the exec title
    [">/"], so the derived topic key is empty, and the topic filter lets an
    empty key through.  With the empty string among the visited topics the
    entry, of kind [topic_nav], is still returned. *)
Lemma candidates_respect_visited_counterexample :
  exists c,
    c ∈ build_explore_candidates ∅ {[ [] ]} (lit "searchin_command_backlink")
          rootless_nav empty_nav [] false 10
    /\ c_query_kind c = lit "topic_nav"
    /\ topic_level (c_query_kind c) = true
    /\ derived_topic_key c ∈ ({[ [] ]} : gset str).
Proof.
  eexists. split; [vm_compute; left|]. split; [reflexivity|].
  split; [vm_compute; reflexivity|].
  apply elem_of_singleton. vm_compute. reflexivity.
Qed.

End CandidateExamples.

(** ** The visited-state files *)
Section VisitedFacts.
Context `{PyLib}.
Import Graph Visited.

#[local] Instance str_le_trans : Transitive str_le.
Proof. intros a b c. apply str_leb_trans. Qed.

#[local] Instance str_le_antisym : AntiSymm (=) str_le.
Proof. intros a b. apply str_leb_antisym. Qed.









End VisitedFacts.

Section VisitedExamples.
Import Graph Visited Concrete.
#[local] Existing Instance ascii_lib.



End VisitedExamples.

(** ** The explore loop *)
Section LoopFacts.
Context `{PyLib} {World : Type} `{!Explore.Collaborators World}.
Import Graph Explore.




End LoopFacts.

Section LoopTheorem.
Context `{PyLib} {World : Type} `{!Explore.Collaborators World}.
Import Graph Explore.






End LoopTheorem.

Section LoopExamples.
Import Graph Explore Concrete.
#[local] Existing Instance ascii_lib.
#[local] Existing Instance fake_world.



End LoopExamples.

(** * Further properties *)

(** ** Stripping *)
Section StripFacts.
Variable p : N -> bool.

Lemma lstrip_with_cons_false c r : p c = false -> lstrip_with p (c :: r) = c :: r.
Proof. intros Hc. simpl. by rewrite Hc. Qed.

Lemma rstrip_with_cons_false c r :
  p c = false -> rstrip_with p (c :: r) = c :: rstrip_with p r.
Proof. intros Hc. simpl. destruct (rstrip_with p r); [by rewrite Hc|done]. Qed.

Lemma rstrip_with_cons_keep c r :
  rstrip_with p r <> [] -> rstrip_with p (c :: r) = c :: rstrip_with p r.
Proof. intros Hr. simpl. by destruct (rstrip_with p r). Qed.

Lemma lstrip_with_suffix s : lstrip_with p s `suffix_of` s.
Proof.
  induction s as [|c r IH]; simpl; [done|].
  destruct (p c); [by apply suffix_cons_r|done].
Qed.

Lemma rstrip_with_prefix s : rstrip_with p s `prefix_of` s.
Proof.
  induction s as [|c r IH]; simpl; [done|].
  destruct (rstrip_with p r) as [|d r'] eqn:E.
  - destruct (p c); [apply prefix_nil|]. apply prefix_cons, prefix_nil.
  - by apply prefix_cons.
Qed.

Lemma lstrip_with_head s :
  match lstrip_with p s with [] => True | c :: _ => p c = false end.
Proof.
  induction s as [|c r IH]; simpl; [done|].
  destruct (p c) eqn:E; [done|]. simpl. done.
Qed.

Lemma lstrip_with_idem s : lstrip_with p (lstrip_with p s) = lstrip_with p s.
Proof.
  pose proof (lstrip_with_head s) as Hh.
  destruct (lstrip_with p s) as [|c r]; [done|]. by apply lstrip_with_cons_false.
Qed.

Lemma rstrip_with_idem s : rstrip_with p (rstrip_with p s) = rstrip_with p s.
Proof.
  induction s as [|c r IH]; simpl; [done|].
  destruct (rstrip_with p r) as [|d r'] eqn:E.
  - destruct (p c) eqn:Ec; [done|]. simpl. by rewrite Ec.
  - rewrite rstrip_with_cons_keep; rewrite IH; done.
Qed.

Lemma rstrip_with_head c r :
  p c = false -> exists r', rstrip_with p (c :: r) = c :: r'.
Proof. intros Hc. rewrite rstrip_with_cons_false by done. by eexists. Qed.

Lemma rstrip_with_snoc_false s c : p c = false -> rstrip_with p (s ++ [c]) = s ++ [c].
Proof.
  intros Hc. induction s as [|d s IH]; simpl; [by rewrite Hc|].
  rewrite IH. by destruct s.
Qed.

Lemma rstrip_with_app a b :
  rstrip_with p b <> [] -> rstrip_with p (a ++ b) = a ++ rstrip_with p b.
Proof.
  intros Hb. induction a as [|c a IH]; [done|].
  rewrite <- app_comm_cons, rstrip_with_cons_keep; rewrite IH; [done|].
  by destruct a, (rstrip_with p b).
Qed.

Lemma rstrip_with_nonempty s : s <> [] -> rstrip_with p s = s -> rstrip_with p s <> [].
Proof. intros Hs ->. done. Qed.

End StripFacts.

Section StripSpace.

Lemma strip_idem s : strip (strip s) = strip s.
Proof.
  unfold strip, lstrip, rstrip.
  pose proof (lstrip_with_head is_space s) as Hh.
  destruct (lstrip_with is_space s) as [|c r]; [done|].
  destruct (rstrip_with_head is_space c r Hh) as [r' E]. rewrite E.
  rewrite lstrip_with_cons_false by done. rewrite <- E. apply rstrip_with_idem.
Qed.

Lemma strip_subseteq s x : x ∈ strip s -> x ∈ s.
Proof.
  intros Hx. unfold strip, rstrip, lstrip in Hx.
  eapply prefix_elem_of in Hx; [|apply rstrip_with_prefix].
  destruct (lstrip_with_suffix is_space s) as [k ->].
  apply elem_of_app. by right.
Qed.

(** A text that [strip] leaves as it is begins and ends with characters
    that are not whitespace. *)
Lemma strip_fixed s : strip s = s -> lstrip s = s /\ rstrip s = s.
Proof.
  intros E. destruct s as [|c r]; [done|].
  assert (Hc : is_space c = false).
  { destruct (is_space c) eqn:Ec; [|done]. exfalso.
    assert (length (strip (c :: r)) <= length r)%nat; [|rewrite E in *; simpl in *; lia].
    unfold strip, lstrip, rstrip. simpl. rewrite Ec.
    etrans; [apply prefix_length, rstrip_with_prefix|].
    apply suffix_length, lstrip_with_suffix. }
  assert (El : lstrip (c :: r) = c :: r) by (by apply lstrip_with_cons_false).
  split; [done|]. unfold strip in E. by rewrite El in E.
Qed.

Lemma strip_head s : match strip s with [] => True | c :: _ => is_space c = false end.
Proof.
  pose proof (strip_fixed (strip s) (strip_idem s)) as [El _].
  pose proof (lstrip_with_head is_space (strip s)) as Hh.
  unfold lstrip in El. rewrite El in Hh. done.
Qed.

(** A prefix that begins with a character other than whitespace, before a
    non-empty text that [strip] leaves as it is. *)
Lemma strip_app_fixed c a t :
  is_space c = false -> t <> [] -> strip t = t -> strip (c :: a ++ t) = c :: a ++ t.
Proof.
  intros Hc Ht E. apply strip_fixed in E as [_ Er].
  unfold strip, lstrip. rewrite lstrip_with_cons_false by done.
  unfold rstrip in *. change (c :: a ++ t) with ((c :: a) ++ t).
  rewrite (rstrip_with_app is_space (c :: a) t); rewrite Er; done.
Qed.

Lemma strip_snoc_fixed c s d :
  is_space c = false -> is_space d = false -> strip (c :: s ++ [d]) = c :: s ++ [d].
Proof.
  intros Hc Hd. unfold strip, lstrip. rewrite lstrip_with_cons_false by done.
  apply (rstrip_with_snoc_false is_space (c :: s) d Hd).
Qed.

End StripSpace.

Section TitleFacts.
Import Graph.

Lemma rstrip_with_app_inv p (a b : str) :
  b <> [] -> rstrip_with p (a ++ b) = a ++ b -> rstrip_with p b = b.
Proof.
  intros Hb. induction a as [|c a IH]; [done|].
  rewrite <- app_comm_cons. simpl.
  destruct (rstrip_with p (a ++ b)) as [|d r'] eqn:E.
  - destruct (p c); intros [=]. by destruct a, b.
  - intros [= E']. apply IH. by rewrite E'.
Qed.

Lemma strip_suffix_fixed (a b : str) :
  strip (a ++ b) = a ++ b -> b <> [] -> lstrip b = b -> strip b = b.
Proof.
  intros E Hb El. apply strip_fixed in E as [_ Er].
  unfold strip. rewrite El. by apply (rstrip_with_app_inv is_space a b).
Qed.

Lemma xlb_prefix_Some text r :
  xlb_prefix text = Some r -> exists x l b, text = x :: l :: b :: r.
Proof.
  destruct text as [|x [|l [|b r']]]; try done. simpl.
  destruct (_ && _ && _); [|done]. intros [= ->]. by eexists _, _, _.
Qed.

(** The payload of an xlb command whose text [strip] leaves as it is: what
    follows the whitespace after the three letters. *)
Lemma xlb_payload_Some text g :
  strip text = text -> xlb_payload text = Some g ->
  g <> [] /\ strip g = g /\ is_xlb_command text = true.
Proof.
  intros Es. unfold xlb_payload, is_xlb_command.
  destruct (xlb_prefix text) as [[|c r]|] eqn:Ep; try done.
  destruct (is_space c) eqn:Ec; [|done].
  destruct (is_empty (lstrip r) || has_char 10 (lstrip r)) eqn:Ee; [done|].
  intros [= <-]. apply orb_false_iff in Ee as [Ee _]. apply is_empty_false in Ee.
  split; [done|]. split; [|done].
  apply xlb_prefix_Some in Ep as (x & l & b & ->).
  destruct (lstrip_with_suffix is_space r) as [k Hk].
  apply (strip_suffix_fixed ([x; l; b; c] ++ k) (lstrip r)); [|done|apply lstrip_with_idem].
  rewrite <- app_assoc. unfold lstrip. rewrite <- Hk. done.
Qed.

Lemma is_xlb_command_not_marker text :
  is_xlb_command text = true -> startswith (lit ">") text = false.
Proof.
  unfold is_xlb_command. destruct text as [|x [|l [|b r]]]; try done. simpl.
  destruct (x =? 88) eqn:E1; [apply N.eqb_eq in E1 as ->; done|].
  destruct (x =? 120) eqn:E2; [apply N.eqb_eq in E2 as ->; done|]. done.
Qed.

Lemma resolve_title_stripped raw t :
  resolve_title_from_input raw = Some t -> t <> [] /\ strip t = t.
Proof.
  unfold resolve_title_from_input.
  destruct (is_empty (strip raw)) eqn:Ee; [done|]. apply is_empty_false in Ee.
  destruct (startswith (lit ">") (strip raw)).
  { intros [= <-]. split; [done|apply strip_idem]. }
  destruct (xlb_payload (strip raw)) as [g|] eqn:Ex.
  { destruct (is_empty (strip g)) eqn:Eg; [done|]. intros [= <-].
    apply is_empty_false in Eg. split; [done|apply strip_idem]. }
  destruct (if startswith _ _ then _ else None) as [g|].
  - destruct (is_empty _); [done|]. intros [= <-]. split; [done|].
    change (lit ">" ++ strip_topic_suffix (strip g) ++ lit "/")
      with (62 :: strip_topic_suffix (strip g) ++ [47]).
    by apply strip_snoc_fixed.
  - intros [= <-]. split; [done|apply strip_idem].
Qed.

(** X1: [resolve_title_from_input] raises [ValueError] on a blank input,
    and otherwise only on an input that begins with the two characters of
    the implicit topic query.  When it returns, the title is not empty and
    has no whitespace around it; an input that begins with [">"] is
    returned stripped, whatever follows the marker. *)
Theorem resolve_title_from_input_spec (raw_input : str) :
  match resolve_title_from_input raw_input with
  | None => strip raw_input = [] \/ startswith [26597; 35810] (strip raw_input) = true
  | Some t =>
      strip raw_input <> [] /\ t <> [] /\ strip t = t
      /\ (startswith (lit ">") (strip raw_input) = true -> t = strip raw_input)
  end.
Proof.
  destruct (resolve_title_from_input raw_input) as [t|] eqn:E.
  - destruct (resolve_title_stripped _ _ E) as [Ht Es].
    unfold resolve_title_from_input in E.
    destruct (is_empty (strip raw_input)) eqn:Ee; [done|]. apply is_empty_false in Ee.
    repeat split; try done. intros Hm. rewrite Hm in E. by injection E.
  - unfold resolve_title_from_input in E.
    destruct (is_empty (strip raw_input)) eqn:Ee; [left; by apply is_empty_true|].
    destruct (startswith (lit ">") (strip raw_input)); [done|].
    destruct (xlb_payload (strip raw_input)) as [g|] eqn:Ex.
    { apply xlb_payload_Some in Ex as (Hg & Eg & _); [|apply strip_idem].
      rewrite Eg in E. by destruct g. }
    destruct (startswith [26597; 35810] (strip raw_input)); [by right|done].
Qed.

Lemma resolve_title_from_input_spec_witness :
  resolve_title_from_input (lit " >Vibe Coding/ ") = Some (lit ">Vibe Coding/").
Proof.
  pose proof (resolve_title_from_input_spec (lit " >Vibe Coding/ ")) as Hs.
  destruct (resolve_title_from_input (lit " >Vibe Coding/ ")) as [t|] eqn:E.
  - destruct Hs as (_ & _ & _ & Ht). rewrite Ht; [reflexivity|]. vm_compute. reflexivity.
  - vm_compute in E. discriminate.
Defined.

(** The input built from a title is an xlb command that [strip] leaves as
    it is. *)
Lemma to_input_command t :
  t <> [] -> strip t = t ->
  is_xlb_command (_to_input_from_exec_title t) = true
  /\ strip (_to_input_from_exec_title t) = _to_input_from_exec_title t
  /\ _to_input_from_exec_title t <> [].
Proof.
  intros Ht Es. unfold _to_input_from_exec_title. rewrite Es.
  destruct (is_empty t) eqn:Ee; [by apply is_empty_true in Ee|].
  destruct (is_xlb_command t) eqn:Ex; [done|].
  destruct (_ || _).
  - split; [done|]. split; [|done].
    change (lit "xlb " ++ t) with (120 :: lit "lb " ++ t). by apply strip_app_fixed.
  - split; [done|]. split; [|done].
    change (lit "xlb >" ++ t) with (120 :: lit "lb >" ++ t). by apply strip_app_fixed.
Qed.

Lemma xlb_payload_command (t : str) :
  t <> [] -> lstrip t = t -> has_char 10 t = false ->
  xlb_payload (lit "xlb " ++ t) = Some t.
Proof.
  intros Ht El Hn. unfold xlb_payload. simpl. rewrite El, Hn.
  by destruct t.
Qed.

(** X2: the input [_to_input_from_exec_title] builds from a title leads
    back to the title.  For a title that is not empty, has no whitespace
    around it, holds no line feed and is not itself an xlb command, the
    input is an xlb command from which [resolve_title_from_input] gives the
    title again when it begins with [">"] or ["??"], and the title behind a
    [">"] otherwise. *)
Theorem resolve_after_to_input (t : str) :
  t <> [] -> strip t = t -> has_char 10 t = false -> is_xlb_command t = false ->
  is_xlb_command (_to_input_from_exec_title t) = true
  /\ resolve_title_from_input (_to_input_from_exec_title t)
     = Some (if startswith (lit ">") t || startswith (lit "??") t
             then t else lit ">" ++ t).
Proof.
  intros Ht Es Hn Hx. split; [by apply to_input_command|].
  destruct (to_input_command t Ht Es) as (_ & Ei & _).
  unfold resolve_title_from_input. rewrite Ei.
  unfold _to_input_from_exec_title. rewrite Es.
  destruct (is_empty t) eqn:Ee; [by apply is_empty_true in Ee|]. rewrite Hx.
  apply strip_fixed in Es as Hf. destruct Hf as [El Er].
  destruct (startswith (lit ">") t || startswith (lit "??") t) eqn:Em.
  - change (is_empty (lit "xlb " ++ t)) with false.
    change (startswith (lit ">") (lit "xlb " ++ t)) with false. cbv iota.
    rewrite xlb_payload_command by done. by rewrite Es, Ee.
  - change (is_empty (lit "xlb >" ++ t)) with false.
    change (startswith (lit ">") (lit "xlb >" ++ t)) with false. cbv iota.
    change (lit "xlb >" ++ t) with (lit "xlb " ++ (62 :: t)).
    rewrite xlb_payload_command; [|done|done|by simpl].
    assert (strip (62 :: t) = 62 :: t) as ->
      by (apply (strip_app_fixed 62 [] t); done).
    done.
Qed.

Lemma resolve_after_to_input_witness :
  resolve_title_from_input (_to_input_from_exec_title (lit "Vibe Coding/"))
  = Some (lit ">Vibe Coding/").
Proof.
  destruct (resolve_after_to_input (lit "Vibe Coding/")) as [_ E];
    [discriminate|reflexivity|reflexivity|reflexivity|]. exact E.
Defined.

End TitleFacts.

Section SplitFacts.

Lemma has_char_false c (s : str) : has_char c s = false <-> c ∉ s.
Proof.
  unfold has_char. induction s as [|d s IH]; simpl.
  - split; [intros _; apply not_elem_of_nil|done].
  - rewrite orb_false_iff, IH, not_elem_of_cons, N.eqb_neq. done.
Qed.

Lemma has_char_app c (a b : str) : has_char c (a ++ b) = has_char c a || has_char c b.
Proof. unfold has_char. apply existsb_app. Qed.

Lemma split_on_nonempty c s : split_on c s <> [].
Proof.
  destruct s as [|d r]; simpl; [done|].
  destruct (split_on c r); [done|]. by destruct (c =? d).
Qed.

(** No piece of [s.split(c)] holds the separator. *)
Lemma split_on_no_sep c s : Forall (fun w => c ∉ w) (split_on c s).
Proof.
  induction s as [|d r IH]; simpl.
  - constructor; [apply not_elem_of_nil|constructor].
  - destruct (split_on c r) as [|w ws] eqn:E.
    { by destruct (split_on_nonempty c r). }
    inversion IH as [|? ? Hw Hws]; subst.
    destruct (c =? d) eqn:Ec.
    + constructor; [apply not_elem_of_nil|]. by constructor.
    + apply N.eqb_neq in Ec. constructor; [|done].
      apply not_elem_of_cons. done.
Qed.

(** A text without the separator before the first separator is the first
    piece. *)
Lemma split_on_first c (t rest : str) :
  c ∉ t -> split_on c (t ++ c :: rest) = t :: split_on c rest.
Proof.
  induction t as [|d t IH]; intros Hc.
  - simpl. rewrite N.eqb_refl. destruct (split_on c rest) eqn:E; [|done].
    by destruct (split_on_nonempty c rest).
  - apply not_elem_of_cons in Hc as [Hd Ht].
    rewrite <- app_comm_cons. simpl. rewrite (IH Ht).
    apply N.eqb_neq in Hd. by rewrite Hd.
Qed.

Lemma rstrip_with_snoc_true p (s : str) c :
  p c = true -> rstrip_with p (s ++ [c]) = rstrip_with p s.
Proof.
  intros Hc. induction s as [|d s IH]; simpl; [by rewrite Hc|]. by rewrite IH.
Qed.

End SplitFacts.

Section RootFacts.
Import Graph Topics.

Lemma root_topic_piece raw :
  root_topic_from_title raw = []
  \/ exists text q, q ∈ split_on 47 text /\ root_topic_from_title raw = strip q.
Proof.
  unfold root_topic_from_title.
  destruct (is_empty (strip raw)); [by left|].
  destruct (if is_xlb_command _ then _ else _) as [text|]; [|by left].
  destruct (is_empty _); [by left|].
  match goal with |- context [split_on 47 ?t] => set (txt := t) end.
  destruct (filter _ _) as [|p ps] eqn:Ef; [by left|]. right.
  assert (Hp : p ∈ filter (fun p : str => p <> []) (strip <$> split_on 47 txt))
    by (rewrite Ef; by left).
  apply list_elem_of_filter in Hp as [_ Hp].
  apply list_elem_of_fmap in Hp as (q & -> & Hq). by exists txt, q.
Qed.

(** X3: the root topic [root_topic_from_title] derives from a title holds
    no ["/"] and has no whitespace around it, and whitespace around the
    title does not change it. *)
Theorem root_topic_from_title_shape (raw_title : str) :
  (47 ∉ root_topic_from_title raw_title)
  /\ strip (root_topic_from_title raw_title) = root_topic_from_title raw_title
  /\ root_topic_from_title (strip raw_title) = root_topic_from_title raw_title.
Proof.
  split; [|split].
  - destruct (root_topic_piece raw_title) as [->|(text & q & Hq & ->)];
      [apply not_elem_of_nil|].
    intros Hin%strip_subseteq.
    pose proof (split_on_no_sep 47 text) as Hall.
    rewrite Forall_forall in Hall. by apply (Hall q).
  - destruct (root_topic_piece raw_title) as [->|(text & q & Hq & ->)];
      [done|apply strip_idem].
  - unfold root_topic_from_title. by rewrite strip_idem.
Qed.

Lemma rstrip_char_colon_tail (a : str) :
  rstrip_char 58 (a ++ lit ":") = rstrip_char 58 a.
Proof. apply (rstrip_with_snoc_true (N.eqb 58) a 58). done. Qed.

Lemma rstrip_char_keep (a : str) d :
  d <> 58 -> rstrip_char 58 (a ++ [d]) = a ++ [d].
Proof.
  intros Hd. apply (rstrip_with_snoc_false (N.eqb 58) a d).
  apply N.eqb_neq. congruence.
Qed.

Lemma nonempty_head_nonspace (T : str) :
  T <> [] -> strip T = T -> exists c r, T = c :: r /\ is_space c = false.
Proof.
  intros Ht Es. pose proof (strip_head T) as Hh. rewrite Es in Hh.
  destruct T as [|c r]; [done|]. by exists c, r.
Qed.

(** The root topic of [">" ++ T ++ "/" ++ w], of ["->" ++ T ++ "/" ++ w]
    and of the same with a colon at the end, for a word [w] of letters. *)
Lemma root_topic_marker_path (marker T w : str) (colon : bool) :
  marker = lit ">" \/ marker = lit "->" ->
  T <> [] -> strip T = T -> 47 ∉ T ->
  Forall (fun c => is_space c = false /\ c <> 58) (47 :: w) ->
  root_topic_from_title (marker ++ T ++ 47 :: w ++ (if colon then lit ":" else [])) = T.
Proof.
  intros Hm Ht Es Hs Hw.
  destruct (nonempty_head_nonspace T Ht Es) as (c & r & ET & Hc).
  set (tailc := w ++ (if colon then lit ":" else [])).
  assert (Hlast : exists body d, 47 :: w = body ++ [d] /\ is_space d = false /\ d <> 58).
  { destruct (@exists_last _ (47 :: w)) as (body & d & E); [done|].
    exists body, d. split; [done|]. rewrite E in Hw.
    apply Forall_app in Hw as [_ Hd]. by inversion Hd. }
  destruct Hlast as (body & d & Ebody & Hd & Hd58).
  assert (Erc : rstrip_char 58 (T ++ 47 :: tailc) = T ++ 47 :: w).
  { unfold tailc. destruct colon.
    - change (T ++ 47 :: w ++ lit ":") with (T ++ (47 :: w) ++ lit ":").
      rewrite app_assoc, rstrip_char_colon_tail, Ebody, app_assoc.
      by apply rstrip_char_keep.
    - rewrite app_nil_r, Ebody, app_assoc. by apply rstrip_char_keep. }
  assert (Efix : strip (T ++ 47 :: w) = T ++ 47 :: w).
  { rewrite Ebody, ET. rewrite <- app_comm_cons, app_assoc.
    by apply strip_snoc_fixed. }
  assert (Hroot : forall text, strip text = text -> text <> [] ->
            is_xlb_command text = false ->
            (if startswith (lit "->") text then lstrip (drop 2 text)
             else if startswith (lit ">") text then lstrip (drop 1 text)
             else if startswith (lit "??") text then lstrip (drop 2 text)
             else text) = T ++ 47 :: tailc ->
            root_topic_from_title text = T).
  { intros text Etext Hne Hx Hbody. unfold root_topic_from_title.
    rewrite Etext. destruct (is_empty text) eqn:Ee; [by apply is_empty_true in Ee|].
    rewrite Hx, Hbody, Erc, Efix. clear Ee.
    assert (is_empty (T ++ 47 :: w) = false) as -> by (rewrite ET; done).
    rewrite split_on_first by done. rewrite fmap_cons, Es.
    by rewrite filter_cons_True by done. }
  assert (Hend : exists pre e, T ++ 47 :: tailc = pre ++ [e] /\ is_space e = false).
  { unfold tailc. destruct colon.
    - exists (T ++ 47 :: w), 58. split; [|done].
      rewrite <- app_assoc. reflexivity.
    - exists (T ++ body), d. split; [|done].
      rewrite app_nil_r, Ebody. by rewrite <- app_assoc. }
  destruct Hend as (pre & e & Epre & He).
  assert (El : lstrip (T ++ 47 :: tailc) = T ++ 47 :: tailc).
  { rewrite ET. by apply lstrip_with_cons_false. }
  fold tailc.
  destruct Hm as [-> | ->].
  - apply Hroot.
    + change (lit ">" ++ T ++ 47 :: tailc) with (62 :: T ++ 47 :: tailc).
      rewrite Epre. change (62 :: pre ++ [e]) with (62 :: pre ++ [e]).
      by apply strip_snoc_fixed.
    + done.
    + rewrite ET. by destruct r.
    + change (startswith (lit "->") (lit ">" ++ T ++ 47 :: tailc)) with false.
      cbv iota. change (startswith (lit ">") (lit ">" ++ T ++ 47 :: tailc)) with true.
      cbv iota. exact El.
  - apply Hroot.
    + change (lit "->" ++ T ++ 47 :: tailc) with (45 :: [62] ++ T ++ 47 :: tailc).
      rewrite Epre. rewrite app_assoc. by apply strip_snoc_fixed.
    + done.
    + rewrite ET. reflexivity.
    + change (startswith (lit "->") (lit "->" ++ T ++ 47 :: tailc)) with true.
      cbv iota. exact El.
Qed.

(** An xlb command has the root topic of its payload. *)
Lemma root_topic_xlb (t : str) :
  t <> [] -> strip t = t -> has_char 10 t = false -> is_xlb_command t = false ->
  root_topic_from_title (lit "xlb " ++ t) = root_topic_from_title t.
Proof.
  intros Ht Es Hn Hx. apply strip_fixed in Es as Hf. destruct Hf as [El Er].
  unfold root_topic_from_title.
  assert (strip (lit "xlb " ++ t) = lit "xlb " ++ t) as ->.
  { change (lit "xlb " ++ t) with (120 :: lit "lb " ++ t). by apply strip_app_fixed. }
  rewrite Es. destruct (is_empty t) eqn:Ee; [by apply is_empty_true in Ee|].
  change (is_empty (lit "xlb " ++ t)) with false.
  change (is_xlb_command (lit "xlb " ++ t)) with true. rewrite Hx. cbv iota.
  unfold resolve_title_from_input.
  assert (strip (lit "xlb " ++ t) = lit "xlb " ++ t) as ->.
  { change (lit "xlb " ++ t) with (120 :: lit "lb " ++ t). by apply strip_app_fixed. }
  change (is_empty (lit "xlb " ++ t)) with false.
  change (startswith (lit ">") (lit "xlb " ++ t)) with false. cbv iota.
  rewrite xlb_payload_command by done. by rewrite Es, Ee.
Qed.

(** X4: the inputs built from a topic lead back to the topic.  For a topic
    that is not blank and holds neither ["/"] nor a line feed,
    [topic_section_inputs] gives the three inputs the explore loop issues
    for it, and [root_topic_from_title] gives the stripped topic for each
    of them, as it does for the entry query and the entry input of the
    topic. *)
Theorem section_inputs_lead_back (topic_root : str) :
  strip topic_root <> [] -> 47 ∉ topic_root -> 10 ∉ topic_root ->
  exists searchin command backlink,
    topic_section_inputs topic_root = Some (searchin, command, backlink)
    /\ searchin = Explore.section_input topic_root (lit "/searchin:")
    /\ command = Explore.section_input topic_root (lit "/command:")
    /\ backlink = lit "xlb " ++ Explore.backlink_target topic_root
    /\ root_topic_from_title searchin = strip topic_root
    /\ root_topic_from_title command = strip topic_root
    /\ root_topic_from_title backlink = strip topic_root
    /\ root_topic_from_title (_build_topic_entry_query topic_root) = strip topic_root
    /\ root_topic_from_title (_build_topic_entry_input topic_root) = strip topic_root.
Proof.
  intros Hne Hs Hn.
  set (T := strip topic_root) in *.
  assert (Es : strip T = T) by apply strip_idem.
  assert (HsT : 47 ∉ T) by (intros Hin%strip_subseteq; done).
  assert (HnT : has_char 10 T = false).
  { apply has_char_false. intros Hin%strip_subseteq. done. }
  assert (Hpath : forall (marker w : str) (colon : bool),
            marker = lit ">" \/ marker = lit "->" ->
            Forall (fun c => is_space c = false /\ c <> 58) (47 :: w) ->
            has_char 10 w = false ->
            root_topic_from_title
              (lit "xlb " ++ marker ++ T ++ 47 :: w ++ (if colon then lit ":" else [])) = T
            /\ root_topic_from_title
                 (marker ++ T ++ 47 :: w ++ (if colon then lit ":" else [])) = T).
  { intros marker w colon Hm Hw Hnw.
    pose proof (root_topic_marker_path marker T w colon Hm Hne Es HsT Hw) as Hr.
    split; [|done]. rewrite root_topic_xlb; [done| | | |].
    - destruct Hm as [-> | ->]; done.
    - destruct (nonempty_head_nonspace T Hne Es) as (c & r & ET & Hc).
      destruct (@exists_last _ (47 :: w ++ (if colon then lit ":" else [])))
        as (body & d & E); [done|].
      assert (Hd : is_space d = false).
      { assert (Hall : Forall (fun c => is_space c = false)
                         (47 :: w ++ (if colon then lit ":" else []))).
        { apply Forall_cons. split; [done|]. apply Forall_app. split.
          - inversion Hw as [|? ? _ Hw']; subst.
            eapply Forall_impl; [exact Hw'|]. by intros ? [? _].
          - destruct colon; repeat constructor. }
        rewrite E in Hall. apply Forall_app in Hall as [_ Hd]. by inversion Hd. }
      rewrite E. destruct Hm as [-> | ->].
      + change (lit ">" ++ T ++ body ++ [d]) with (62 :: T ++ body ++ [d]).
        rewrite app_assoc. by apply strip_snoc_fixed.
      + change (lit "->" ++ T ++ body ++ [d]) with (45 :: [62] ++ T ++ body ++ [d]).
        rewrite !app_assoc. by apply strip_snoc_fixed.
    - rewrite !has_char_app. change (47 :: w ++ (if colon then lit ":" else []))
        with ([47] ++ w ++ (if colon then lit ":" else [])).
      rewrite !has_char_app, HnT, Hnw. by destruct Hm as [-> | ->], colon.
    - destruct (nonempty_head_nonspace T Hne Es) as (c & r & -> & Hc).
      destruct Hm as [-> | ->]; [by destruct r|done]. }
  unfold topic_section_inputs, _build_topic_entry_input, _build_topic_entry_query.
  fold T. destruct (is_empty T) eqn:Ee; [by apply is_empty_true in Ee|].
  eexists _, _, _. split; [reflexivity|].
  split; [reflexivity|]. split; [reflexivity|]. split; [reflexivity|].
  repeat split.
  - apply (Hpath (lit ">") (lit "searchin") true); [by left| |done].
    repeat constructor; done.
  - apply (Hpath (lit ">") (lit "command") true); [by left| |done].
    repeat constructor; done.
  - apply (Hpath (lit "->") [] true); [by right| |done].
    repeat constructor; done.
  - destruct (Hpath (lit ">") [] false) as [_ Hr]; [by left| |done|].
    { repeat constructor; done. }
    exact Hr.
  - destruct (Hpath (lit ">") [] false) as [Hr _]; [by left| |done|].
    { repeat constructor; done. }
    exact Hr.
Qed.

Lemma section_inputs_lead_back_witness :
  Explore.section_input (lit " Vibe Coding ") (lit "/searchin:")
  = lit "xlb >Vibe Coding/searchin:"
  /\ root_topic_from_title (lit "xlb >Vibe Coding/searchin:") = lit "Vibe Coding".
Proof.
  destruct (section_inputs_lead_back (lit " Vibe Coding "))
    as (s & c & b & Hsome & -> & _ & _ & Hs & _).
  - vm_compute. discriminate.
  - intros Hin. vm_compute in Hin. by repeat (apply elem_of_cons in Hin as [?|Hin]; [done|]);
      apply not_elem_of_nil in Hin.
  - intros Hin. by repeat (apply elem_of_cons in Hin as [?|Hin]; [done|]);
      apply not_elem_of_nil in Hin.
  - split; [reflexivity|]. exact Hs.
Defined.

End RootFacts.

Section SeedFacts.
Context `{PyLib} {World : Type} `{!Explore.Collaborators World}.
Import Graph Explore.

Lemma normalize_seed_command seed :
  strip seed <> [] ->
  _normalize_seed_input seed <> []
  /\ is_xlb_command (_normalize_seed_input seed) = true
  /\ strip (_normalize_seed_input seed) = _normalize_seed_input seed.
Proof.
  intros Hne. unfold _normalize_seed_input.
  destruct (is_empty (strip seed)) eqn:Ee; [by apply is_empty_true in Ee|].
  destruct (is_xlb_command (strip seed)) eqn:Ex.
  { split; [done|]. split; [done|apply strip_idem]. }
  assert (Ht : default (strip seed) (resolve_title_from_input (strip seed)) <> []
               /\ strip (default (strip seed) (resolve_title_from_input (strip seed)))
                  = default (strip seed) (resolve_title_from_input (strip seed))).
  { destruct (resolve_title_from_input (strip seed)) as [t|] eqn:Er; simpl.
    - by apply resolve_title_stripped in Er.
    - split; [done|apply strip_idem]. }
  destruct Ht as [Ht Es].
  destruct (to_input_command _ Ht Es) as (? & ? & ?). done.
Qed.

(** X5: [_normalize_seed_input] gives the empty string exactly for a blank
    seed, and [explore_loop] reports [invalid_seed] exactly then.  The
    normalised form of any other seed is an xlb command without whitespace
    around it, and normalising it again changes nothing. *)
Theorem normalize_seed_input_spec (cfg : Config) (w0 : World) (seed_input : str)
    (visited_exec_titles visited_topic_keys : gset str) :
  let normalized := _normalize_seed_input seed_input in
  (normalized = [] <-> strip seed_input = [])
  /\ (explore_loop cfg w0 seed_input visited_exec_titles visited_topic_keys
      = Some InvalidSeed <-> strip seed_input = [])
  /\ (normalized = []
      \/ (is_xlb_command normalized = true /\ strip normalized = normalized))
  /\ _normalize_seed_input normalized = normalized.
Proof.
  intros normalized.
  assert (Hblank : strip seed_input = [] -> normalized = []).
  { intros E. unfold normalized, _normalize_seed_input. by rewrite E. }
  assert (Hiff : normalized = [] <-> strip seed_input = []).
  { split; [|done]. intros E.
    destruct (decide (strip seed_input = [])) as [|Hne]; [done|].
    by destruct (normalize_seed_command _ Hne) as [? _]. }
  split; [done|]. split; [|split].
  - rewrite <- Hiff. unfold explore_loop, explore_loop_fuel. fold normalized.
    destruct (is_empty normalized) eqn:Ee.
    + apply is_empty_true in Ee. done.
    + apply is_empty_false in Ee. split; [|done].
      destruct (monotonic w0) as [start w].
      destruct (explore_while _ _ _ _) as [[st reason]|]; done.
  - destruct (decide (strip seed_input = [])) as [E|Hne]; [left; auto|right].
    destruct (normalize_seed_command _ Hne) as (_ & ? & ?). done.
  - destruct (decide (strip seed_input = [])) as [E|Hne].
    + rewrite (Hblank E). done.
    + destruct (normalize_seed_command _ Hne) as (Hn & Hx & Es). fold normalized in Hn, Hx, Es.
      unfold _normalize_seed_input at 1. rewrite Es, Hx.
      by destruct normalized.
Qed.

End SeedFacts.

Section ParserShape.
Context `{PyLib}.
Import Parser.

Lemma join_section_path_nonempty s g : _join_section_path s g <> [].
Proof.
  unfold _join_section_path.
  destruct (is_empty (strip g)) eqn:Eg.
  - by apply or_else_nonempty.
  - apply is_empty_false in Eg. destruct (is_empty (strip s)); [done|].
    destruct (strip s); [done|]. done.
Qed.

(** Stripping keeps a prefix without whitespace. *)
Lemma strip_keeps_prefix (P r : str) :
  P <> [] -> Forall (fun c => is_space c = false) P ->
  exists r', strip (P ++ r) = P ++ r'.
Proof.
  intros Hne HP. destruct P as [|c P]; [done|].
  inversion HP as [|? ? Hc HP']; subst.
  unfold strip, lstrip. rewrite <- app_comm_cons, lstrip_with_cons_false by done.
  clear Hne HP. revert c Hc. induction P as [|d P IH]; intros c Hc.
  - unfold rstrip. simpl app. rewrite rstrip_with_cons_false by done. by eexists.
  - inversion HP' as [|? ? Hd HP'']; subst.
    unfold rstrip. rewrite <- app_comm_cons, rstrip_with_cons_false by done.
    destruct (IH HP'' d Hd) as [r' E]. unfold rstrip in E.
    rewrite <- app_comm_cons in E. rewrite E. by eexists.
Qed.

Lemma split_once_keeps_prefix c (P r : str) :
  c ∉ P ->
  match split_once c (P ++ r) with
  | None => True
  | Some (u, a) => exists u', u = P ++ u'
  end.
Proof.
  induction P as [|d P IH]; intros Hc; simpl.
  - destruct (split_once c r) as [[u a]|]; [by eexists|done].
  - apply not_elem_of_cons in Hc as [Hd HP]. apply N.eqb_neq in Hd. rewrite Hd.
    specialize (IH HP). destruct (split_once c (P ++ r)) as [[u a]|]; simpl; [|done].
    destruct IH as [u' ->]. by eexists.
Qed.

Lemma url_keeps_prefix (P p : str) :
  P <> [] -> Forall (fun c => is_space c = false) P -> 35 ∉ P ->
  startswith P p = true -> startswith P (_split_url_and_anchor p).1 = true.
Proof.
  intros Hne HP Hh [r ->]%startswith_prefix. unfold _split_url_and_anchor.
  destruct (strip_keeps_prefix P r Hne HP) as [r' ->].
  pose proof (split_once_keeps_prefix 35 P r' Hh) as Hs.
  destruct (split_once 35 (P ++ r')) as [[u a]|]; simpl.
  - destruct Hs as [u' ->]. destruct (strip_keeps_prefix P u' Hne HP) as [u'' ->].
    apply startswith_app.
  - apply startswith_app.
Qed.

Lemma url_is_http p : is_http p = true -> is_http (_split_url_and_anchor p).1 = true.
Proof.
  unfold is_http. intros [Hp|Hp]%orb_true_iff; apply orb_true_iff; [left|right];
    (apply url_keeps_prefix; [done|repeat constructor| |done]);
    intros Hin; repeat (apply elem_of_cons in Hin as [?|Hin]; [done|]);
    by apply not_elem_of_nil in Hin.
Qed.

Lemma is_http_strip p : is_http p = true -> is_http (strip p) = true.
Proof.
  unfold is_http. intros [Hp|Hp]%orb_true_iff; apply orb_true_iff; [left|right];
    apply startswith_prefix in Hp as [r ->];
    match goal with |- startswith ?P _ = true =>
      destruct (strip_keeps_prefix P r) as [r' ->];
        [done|repeat constructor|apply startswith_app] end.
Qed.

Lemma query_payload_nonempty p : _is_query_payload p = true -> p <> [].
Proof. by intros Hp ->. Qed.

Lemma classify_query_kind_kinds s e : _classify_query_kind s e ∈ query_kinds.
Proof.
  unfold _classify_query_kind, query_kinds. repeat case_match; set_solver.
Qed.

Lemma parse_line_shape src st l st' n :
  parse_line src st l = (st', Some n) ->
  source_title n = src /\ section n <> [] /\ node_shape n.
Proof.
  destruct st as [t s g p]. unfold parse_line.
  destruct (is_empty (strip l)); [done|].
  destruct (startswith (lit "# ") (strip l)); [done|].
  destruct (startswith (lit "## ") (strip l)); [done|].
  destruct (startswith (lit "### ") (strip l)).
  - destruct (is_http (strip (drop 4 (strip l)))) eqn:Eh.
    + destruct (_split_url_and_anchor _) as [u a] eqn:Eu. intros [= <- <-]. simpl.
      split; [done|]. split; [apply join_section_path_nonempty|]. left.
      repeat split; try done.
      apply url_is_http in Eh. by rewrite Eu in Eh.
    + destruct (_is_query_payload _) eqn:Eq; intros [= <- <-]; simpl.
      * split; [done|]. split; [apply join_section_path_nonempty|]. right. left.
        repeat split; try done.
        -- by apply query_payload_nonempty.
        -- apply strip_idem.
        -- apply classify_query_kind_kinds.
      * split; [done|]. split; [apply join_section_path_nonempty|]. right. right.
        repeat split; done.
  - destruct (_ || _) eqn:Eb; [|done].
    destruct (_split_url_and_anchor _) as [u a] eqn:Eu. intros [= <- <-]. simpl.
    split; [done|]. split; [apply join_section_path_nonempty|]. left.
    repeat split; try done.
    assert (Hh : is_http (strip (drop 2 (strip l))) = true).
    { apply is_http_strip. unfold is_http.
      apply orb_true_iff in Eb as [Eb|Eb]; apply startswith_prefix in Eb as [r ->];
        apply orb_true_iff; [left|right]; vm_compute; reflexivity. }
    apply url_is_http in Hh. by rewrite Eu in Hh.
Qed.

(** X6: every node [parse_markdown_to_nodes] returns carries the source
    title it was given and a non-empty section, and has one of three
    shapes: a link with a URL that begins with [http://] or [https://] and
    no query field; a query with a command that is not empty and has no
    whitespace around it, one of the five query kinds and no URL; a category
    with neither, whose content is its title after ["category "]. *)
Theorem parsed_nodes_shape (markdown source_title0 : str) :
  Forall (fun n => source_title n = source_title0 /\ section n <> [] /\ node_shape n)
    (parse_markdown_to_nodes markdown source_title0).
Proof. apply parse_lines_Forall. apply parse_line_shape. Qed.

Lemma parse_line_node_line src st l :
  is_Some (parse_line src st l).2 <-> node_line l = true.
Proof.
  destruct st as [t s g p]. unfold parse_line, node_line.
  destruct (is_empty (strip l)) eqn:Ee.
  { apply is_empty_true in Ee. rewrite Ee. simpl. split; [by intros [? ?]|done]. }
  destruct (startswith (lit "# ") (strip l)) eqn:E1.
  { apply startswith_prefix in E1 as [r ->]. simpl. split; [by intros [? ?]|done]. }
  destruct (startswith (lit "## ") (strip l)) eqn:E2.
  { apply startswith_prefix in E2 as [r ->]. simpl. split; [by intros [? ?]|done]. }
  destruct (startswith (lit "### ") (strip l)) eqn:E3.
  { simpl. split; [done|]. intros _.
    destruct (is_http _); [destruct (_split_url_and_anchor _)|destruct (_is_query_payload _)];
      simpl; by eexists. }
  simpl. destruct (_ || _) eqn:Eb.
  - split; [done|]. intros _. destruct (_split_url_and_anchor _). simpl. by eexists.
  - simpl. split; [by intros [? ?]|done].
Qed.

Lemma parse_lines_count src lines : forall st,
  length (parse_lines src st lines) = length (filter (fun l => node_line l = true) lines).
Proof.
  induction lines as [|l ls IH]; intros st; simpl; [done|].
  pose proof (parse_line_node_line src st l) as Hl.
  destruct (parse_line src st l) as [st' [n|]] eqn:E; simpl in Hl.
  - rewrite filter_cons_True by (apply Hl; by eexists). simpl. by rewrite IH.
  - rewrite filter_cons_False; [apply IH|].
    intros Hn. apply Hl in Hn as [? ?]. done.
Qed.

(** X7: [parse_markdown_to_nodes] returns exactly one node for every line
    that, stripped, begins with ["### "], ["- http://"] or ["- https://"],
    and none for any other line: there are as many nodes as such lines. *)
Theorem parsed_nodes_count (markdown source_title0 : str) :
  length (parse_markdown_to_nodes markdown source_title0)
  = length (filter (fun l => node_line l = true) (splitlines markdown)).
Proof. apply parse_lines_count. Qed.

End ParserShape.

(** ** The retrieval index, further *)
Section BuildMore.
Context `{PyLib}.
Import Parser Index.

Lemma insert_nodes_distinct input : forall seen rows,
  tracks seen rows -> NoDup (node_id <$> (rows ++ input)) ->
  insert_nodes seen rows input = rows ++ input.
Proof.
  induction input as [|node rest IH]; intros seen rows Ht Hnd; simpl.
  - by rewrite app_nil_r.
  - destruct (decide (node_id node ∈ seen)) as [Hin|Hout].
    + exfalso. apply Ht in Hin. rewrite fmap_app in Hnd.
      apply NoDup_app in Hnd as (_ & Hd & _). apply (Hd _ Hin). simpl. by left.
    + rewrite IH; [by rewrite <- app_assoc|by apply tracks_insert|].
      by rewrite <- app_assoc.
Qed.

Lemma insert_nodes_ids input : forall seen rows id,
  tracks seen rows ->
  id ∈ (node_id <$> insert_nodes seen rows input) <-> id ∈ (node_id <$> (rows ++ input)).
Proof.
  induction input as [|node rest IH]; intros seen rows id Ht; simpl.
  - by rewrite app_nil_r.
  - destruct (decide (node_id node ∈ seen)) as [Hin|Hout].
    + rewrite IH by done. rewrite !fmap_app, !elem_of_app, fmap_cons, elem_of_cons.
      apply Ht in Hin. split; [tauto|]. intros [?|[->|?]]; auto.
    + rewrite IH by (by apply tracks_insert). by rewrite <- app_assoc.
Qed.

(** X8: [build_index] stores a list of nodes with pairwise distinct ids as
    it is.  Building the index again from the rows it stored gives the
    same rows, and the number of rows is the number of distinct ids of the
    input. *)
Theorem build_index_distinct (fts_created : bool) (input : list Node) :
  (NoDup (node_id <$> input) -> nodes (build_index fts_created input) = input)
  /\ build_index fts_created (nodes (build_index fts_created input))
     = build_index fts_created input
  /\ length (nodes (build_index fts_created input))
     = size (list_to_set (node_id <$> input) : gset str).
Proof.
  assert (Hd : forall l, NoDup (node_id <$> l) -> insert_nodes ∅ [] l = l).
  { intros l Hl. by rewrite insert_nodes_distinct; [|apply tracks_empty|]. }
  assert (Hnd : NoDup (node_id <$> insert_nodes ∅ [] input)).
  { apply insert_nodes_NoDup; [apply tracks_empty|constructor]. }
  split; [|split].
  - intros Hl. unfold build_index. simpl. by apply Hd.
  - unfold build_index. simpl. f_equal. by apply Hd.
  - unfold build_index. simpl. rewrite <- (length_fmap node_id).
    rewrite <- (size_list_to_set (C := gset str)) by done.
    f_equal. apply set_eq. intros id. rewrite !elem_of_list_to_set.
    by rewrite insert_nodes_ids by apply tracks_empty.
Qed.

End BuildMore.

Section BuildMoreExamples.
Import Parser Index Concrete.
#[local] Existing Instance ascii_lib.

Lemma build_index_distinct_witness :
  nodes (build_index true (nodes two_topic_db)) = nodes two_topic_db.
Proof.
  destruct (build_index_distinct true (nodes two_topic_db)) as [Hid _].
  apply Hid. vm_compute.
  repeat (constructor; [intros Hin; repeat (apply elem_of_cons in Hin as [Hin|Hin];
                                            [discriminate|]);
                        by apply not_elem_of_nil in Hin|]).
  constructor.
Defined.

End BuildMoreExamples.

Section SearchStructure.
Context `{PyLib} `{Index.Fts}.
Import Parser Index.

Lemma append_children_merged direct rows mt children : forall acc,
  mt = lit "category_child" \/ mt = lit "section_related" ->
  Forall (fun r => r ∈ rows) children ->
  merged_after direct rows acc ->
  merged_after direct rows (append_children mt children acc).
Proof.
  intros acc Hmt. revert acc.
  induction children as [|row rest IH]; intros [seen merged] Hall Hinv; simpl; [done|].
  inversion Hall as [|? ? Hrow Hrest]; subst.
  destruct (is_empty (node_id row)) eqn:Ee; simpl; [by apply IH|].
  case_bool_decide as Hs; [by apply IH|].
  apply IH; [done|]. apply is_empty_false in Ee.
  destruct Hinv as (extra & Em & Hnd & Hall' & Hseen). cbn [fst snd] in *.
  assert (Hfresh : node_id row ∉ (hit_id <$> merged)).
  { intros (h & Eh & Hh)%list_elem_of_fmap. apply Hs. rewrite Eh. by apply Hseen. }
  exists (extra ++ [mkHit row mt]). cbn [fst snd]. split; [by rewrite Em, app_assoc|].
  rewrite Em, fmap_app, not_elem_of_app in Hfresh. destruct Hfresh as [Hd He].
  split; [|split].
  - rewrite fmap_app. apply NoDup_app. split; [done|]. split; [|apply NoDup_singleton].
    intros id Hid Hid'. simpl in Hid'. apply list_elem_of_singleton in Hid' as ->. done.
  - apply Forall_app. split; [done|]. apply Forall_singleton.
    unfold hit_id. cbn [hit_node match_type]. done.
  - intros h [Hh|Hh]%elem_of_app.
    + apply elem_of_union. right. by apply Hseen.
    + apply list_elem_of_singleton in Hh as ->. apply elem_of_union. left.
      by apply elem_of_singleton.
Qed.

Lemma section_children_rows rows t s lim :
  Forall (fun r => r ∈ rows) (section_children rows t s lim).
Proof.
  apply Forall_forall. intros r Hr. by apply section_children_spec in Hr as [? _].
Qed.

Lemma expand_keys_merged direct rows lim mt keys : forall acc,
  mt = lit "category_child" \/ mt = lit "section_related" ->
  merged_after direct rows acc ->
  merged_after direct rows (foldl (_append_section_children rows lim mt) acc keys).
Proof.
  intros acc Hmt. revert acc.
  induction keys as [|[t s] keys IH]; intros acc Hinv; simpl; [done|].
  apply IH. unfold _append_section_children.
  destruct (is_empty s || is_empty t); [done|].
  apply append_children_merged; [done|apply section_children_rows|done].
Qed.

(** X9: the result of [search_index] is the direct hits, in the order of
    the matcher and tagged ["direct"], followed by the hits of the
    expansions.  The appended hits are rows of the table with pairwise
    distinct, non-empty ids that no direct hit has, tagged
    ["category_child"] or ["section_related"].  Without [expand_categories]
    nothing is appended, whatever [expand_related_sections] says, and a
    blank query has no hit at all. *)
Theorem search_index_structure (d : db) (query : str) (limit : Z)
    (expand_categories : bool) (expand_limit_per_category : Z)
    (expand_related_sections : bool) (related_limit_per_section : Z) :
  let direct := (fun r => mkHit r (lit "direct")) <$> direct_rows d query limit in
  let result := search_index d query limit expand_categories
                  expand_limit_per_category expand_related_sections
                  related_limit_per_section in
  (exists extra,
     result = direct ++ extra
     /\ NoDup (hit_id <$> extra)
     /\ Forall (fun h => hit_id h <> [] /\ (hit_id h ∉ (hit_id <$> direct))
                         /\ hit_node h ∈ nodes d
                         /\ (match_type h = lit "category_child"
                             \/ match_type h = lit "section_related")) extra
     /\ (expand_categories = false -> extra = []))
  /\ (strip query = [] -> result = []).
Proof.
  intros direct result.
  assert (Hinit : merged_after direct (nodes d)
            (list_to_set (hit_id <$> direct) : gset str, direct)).
  { exists []. simpl. rewrite app_nil_r. split; [done|]. split; [constructor|].
    split; [constructor|]. intros h Hh. apply elem_of_list_to_set.
    apply list_elem_of_fmap. by exists h. }
  split.
  - unfold result, search_index. fold direct.
    destruct expand_categories; cbn [negb].
    + pose proof (expand_keys_merged direct (nodes d) expand_limit_per_category
                    (lit "category_child")
                    (topic_section <$>
                       filter (fun h => node_type (hit_node h) = lit "category") direct)
                    _ (or_introl eq_refl) Hinit) as H1.
      destruct expand_related_sections.
      * pose proof (expand_keys_merged direct (nodes d) related_limit_per_section
                      (lit "section_related")
                      (stable_sort key_leb
                         (remove_dups
                            (topic_section <$>
                               filter (fun h => node_type (hit_node h) = lit "link")
                                 direct)))
                      _ (or_intror eq_refl) H1) as H2.
        destruct H2 as (extra & E & Hnd & Hall & _). exists extra.
        split; [exact E|]. done.
      * destruct H1 as (extra & E & Hnd & Hall & _). exists extra.
        split; [exact E|]. done.
    + exists []. rewrite app_nil_r. repeat split; try done; constructor.
  - intros Hb.
    assert (Hd : direct_rows d query limit = []).
    { unfold direct_rows. rewrite Hb. simpl. rewrite andb_false_r.
      unfold _search_with_like_tokens, _prepare_search_tokens. rewrite Hb. done. }
    unfold result, search_index. rewrite Hd. simpl.
    by destruct expand_categories, expand_related_sections.
Qed.

End SearchStructure.

Section SearchStructureExamples.
Import Parser Index Concrete.
#[local] Existing Instance ascii_lib.
#[local] Existing Instance no_fts.

Lemma search_index_structure_witness :
  search_index two_topic_db (lit "  ") 8 true 200 true 20 = [].
Proof.
  destruct (search_index_structure two_topic_db (lit "  ") 8 true 200 true 20)
    as [_ Hb].
  apply Hb. reflexivity.
Defined.

End SearchStructureExamples.

Section IterativeBounds.
Context `{PyLib} `{Index.Fts}.
Import Parser Index.

Lemma add_seen_ids_size hs : forall seen,
  (size (add_seen_ids seen hs) <= size seen + length hs)%nat.
Proof.
  unfold add_seen_ids.
  induction hs as [|h hs IH]; intros seen; simpl; [lia|].
  destruct (is_empty (node_id (hit_node h))).
  - etrans; [apply IH|]. lia.
  - etrans; [apply IH|].
    assert (size ({[node_id (hit_node h)]} ∪ seen) <= S (size seen))%nat; [|lia].
    rewrite size_union_alt, size_singleton.
    assert (size (seen ∖ {[node_id (hit_node h)]}) <= size seen)%nat; [|lia].
    apply subseteq_size. by intros x [? ?]%elem_of_difference.
Qed.

(** What one round does, whatever the limit and the thresholds. *)
Lemma search_round_general d limit thr lgr follow q st :
  exists e,
    ledger (search_round d limit thr lgr follow q st).1 = ledger st ++ [e]
    /\ iteration e = S (length (ledger st))
    /\ ((search_round d limit thr lgr follow q st).2 = Some (lit "no_hits")
        /\ round_hits e = 0%nat
        \/ (search_round d limit thr lgr follow q st).2 = Some (lit "low_gain")
           /\ round_hits e <> 0%nat
        \/ (search_round d limit thr lgr follow q st).2 = None
           /\ round_hits e <> 0%nat)
    /\ (size (seen_node_ids (search_round d limit thr lgr follow q st).1)
        <= size (seen_node_ids st) + new_hits e)%nat.
Proof.
  unfold search_round.
  set (hits := search_index_default d q limit).
  set (fresh := filter (fun h => node_id (hit_node h) ∉ seen_node_ids st) hits).
  destruct (if follow then follow_queries hits (seen_query_cmds st, frontier st, [])
            else (seen_query_cmds st, frontier st, [])) as [[sc fr] ex].
  case_bool_decide as Eh; cbn [fst snd ledger seen_node_ids].
  - eexists. split; [reflexivity|]. cbn [iteration round_hits new_hits].
    split; [lia|]. split; [left; by rewrite Eh|]. apply add_seen_ids_size.
  - eexists. split; [reflexivity|]. cbn [iteration round_hits new_hits].
    split; [lia|]. split; [|apply add_seen_ids_size].
    assert (length hits <> 0%nat) by (by destruct hits).
    destruct (_ <=? _)%Z; [right; left|right; right]; done.
Qed.

Lemma search_loop_bounds d limit thr lgr follow n : forall st,
  iteration <$> ledger st = seq 1 (length (ledger st)) ->
  (size (seen_node_ids st) <= sum_list_with new_hits (ledger st))%nat ->
  let res := search_loop d limit thr lgr follow n st in
  iteration <$> ledger res.1 = seq 1 (length (ledger res.1))
  /\ (size (seen_node_ids res.1) <= sum_list_with new_hits (ledger res.1))%nat
  /\ (length (ledger res.1) <= length (ledger st) + n)%nat
  /\ (res.2 = lit "max_iter" /\ length (ledger res.1) = (length (ledger st) + n)%nat
      \/ res.2 = lit "no_frontier" /\ frontier res.1 = []
      \/ res.2 = lit "no_hits"
         /\ (exists e, last (ledger res.1) = Some e /\ round_hits e = 0%nat)
      \/ res.2 = lit "low_gain"
         /\ (exists e, last (ledger res.1) = Some e /\ round_hits e <> 0%nat)).
Proof.
  induction n as [|n IH]; intros st Hnum Hsize; cbn [search_loop].
  { cbn [fst snd]. split; [done|]. split; [done|]. split; [lia|]. left. split; [done|lia]. }
  destruct (frontier st) as [|q fr] eqn:Ef.
  { cbn [fst snd]. split; [done|]. split; [done|]. split; [lia|]. right. left. done. }
  set (st0 := mkIstate _ _ _ _ _).
  destruct (search_round_general d limit thr lgr follow q st0)
    as (e & El & Ei & Hr & Hs).
  change (ledger st0) with (ledger st) in El, Ei.
  change (seen_node_ids st0) with (seen_node_ids st) in Hs.
  assert (Hnum' : iteration <$> ledger (search_round d limit thr lgr follow q st0).1
                  = seq 1 (length (ledger (search_round d limit thr lgr follow q st0).1))).
  { rewrite El, fmap_app, length_app, Hnum. cbn [length]. rewrite Nat.add_1_r, seq_S.
    cbn [fmap list_fmap]. by rewrite Ei. }
  assert (Hsize' : (size (seen_node_ids (search_round d limit thr lgr follow q st0).1)
                    <= sum_list_with new_hits
                         (ledger (search_round d limit thr lgr follow q st0).1))%nat).
  { rewrite El, sum_list_with_app. cbn [sum_list_with]. lia. }
  assert (Hlen : length (ledger (search_round d limit thr lgr follow q st0).1)
                 = S (length (ledger st))).
  { rewrite El, length_app. cbn [length]. lia. }
  assert (Hlast : last (ledger (search_round d limit thr lgr follow q st0).1) = Some e).
  { rewrite El. apply last_snoc. }
  destruct (search_round d limit thr lgr follow q st0) as [st1 [reason|]] eqn:Er;
    cbn [fst snd] in *.
  - split; [done|]. split; [done|]. split; [lia|].
    destruct Hr as [[[= ->] Hz]|[[[= ->] Hz]|[? _]]]; [| |done].
    + right. right. left. split; [done|]. by exists e.
    + right. right. right. split; [done|]. by exists e.
  - destruct (IH st1 Hnum' Hsize') as (? & ? & ? & Hcases).
    split; [done|]. split; [done|]. split; [lia|].
    rewrite Hlen in Hcases. destruct Hcases as [[? ?]|[?|[?|?]]]; auto.
    left. split; [done|lia].
Qed.

(** X10: [iterative_search] runs at most [max_iter] rounds, numbered from
    1; [iterations] is their number, and [unique_hits] is at most the sum
    of their [new_hits].  A blank query makes no round and stops with
    ["empty_query"].  Otherwise the stop reason is ["max_iter"] after
    exactly [max_iter] rounds (none when [max_iter] is not positive),
    ["no_frontier"] with no query left, ["no_hits"] after a round without
    hits, or ["low_gain"] after a round with hits. *)
Theorem iterative_search_bounds (d : db) (query : str) (limit max_iter : Z)
    (gain_threshold : Q) (low_gain_rounds : Z) (follow_query_nodes : bool) :
  let r := iterative_search d query limit max_iter gain_threshold low_gain_rounds
             follow_query_nodes in
  iterations r = length (rounds r)
  /\ (iterations r <= Z.to_nat max_iter)%nat
  /\ iteration <$> rounds r = seq 1 (length (rounds r))
  /\ (unique_hits r <= sum_list_with new_hits (rounds r))%nat
  /\ (strip query = [] /\ stop_reason r = lit "empty_query" /\ rounds r = []
      \/ strip query <> []
         /\ (stop_reason r = lit "max_iter" /\ iterations r = Z.to_nat max_iter
             \/ stop_reason r = lit "no_frontier" /\ frontier_remaining r = 0%nat
             \/ stop_reason r = lit "no_hits"
                /\ (exists e, last (rounds r) = Some e /\ round_hits e = 0%nat)
             \/ stop_reason r = lit "low_gain"
                /\ (exists e, last (rounds r) = Some e /\ round_hits e <> 0%nat))).
Proof.
  unfold iterative_search.
  destruct (is_empty (strip query)) eqn:Ee.
  { apply is_empty_true in Ee. cbn. repeat split; try done; try lia. left. done. }
  apply is_empty_false in Ee.
  set (st0 := mkIstate [strip query] ∅ ∅ [] 0).
  destruct (search_loop_bounds d limit gain_threshold low_gain_rounds follow_query_nodes
              (Z.to_nat max_iter) st0) as (Hnum & Hsize & Hlen & Hcases); [done|done|].
  destruct (search_loop _ _ _ _ _ _ st0) as [st reason].
  cbn [fst snd] in *. cbn [iterations rounds unique_hits stop_reason frontier_remaining].
  cbn [ledger st0 length] in Hlen, Hcases.
  split; [done|]. split; [lia|]. split; [done|]. split; [done|]. right. split; [done|].
  destruct Hcases as [[? ?]|[[? Hf]|[?|?]]]; auto.
  right. left. by rewrite Hf.
Qed.

End IterativeBounds.

(** ** The explore loop, further *)
Section LoopInvariants.
Context `{PyLib} {World : Type} `{!Explore.Collaborators World}.
Import Graph Explore.
















End LoopInvariants.

(** ** Candidate generation, further *)
Section CandidateShape.
Context `{PyLib}.
Import Graph Explore.
Variables (Ve Vt : gset str) (es : str).

Lemma candidate_leb_total a b : candidate_leb a b = true \/ candidate_leb b a = true.
Proof.
  unfold candidate_leb.
  rewrite (Z.compare_antisym (c_priority a) (c_priority b)).
  rewrite (str_compare_opp (lower (c_query_kind a)) (lower (c_query_kind b))).
  rewrite (str_compare_opp (lower (c_query_exec_title a)) (lower (c_query_exec_title b))).
  rewrite !lex_opp. apply not_gt_total.
Qed.

Lemma candidate_leb_order a b : candidate_leb a b = true -> candidate_order a b.
Proof.
  unfold candidate_leb, candidate_order, str_leb.
  destruct (c_priority a ?= c_priority b)%Z eqn:E; simpl; intros Hle; try done.
  - apply Z.compare_eq in E. right. split; [done|].
    destruct (str_compare (lower (c_query_kind a)) (lower (c_query_kind b))) eqn:Ek;
      simpl in Hle; try done.
    + apply str_compare_eq in Ek. by right.
    + by left.
  - apply Z.compare_lt_iff in E. by left.
Qed.

Lemma pool_distinct_add (acc : gset str * list Candidate) (c : Candidate) :
  pool_distinct es acc -> exec_key c ∉ acc.1 -> candidate_built es c ->
  pool_distinct es ({[exec_key c]} ∪ acc.1, acc.2 ++ [c]).
Proof.
  intros (Hnd & Hseen & Hall) Hout Hc. unfold pool_distinct. cbn [fst snd].
  split; [|split].
  - rewrite fmap_app. apply NoDup_app. split; [done|]. split; [|apply NoDup_singleton].
    intros k (c' & -> & Hc')%list_elem_of_fmap Hk.
    apply list_elem_of_singleton in Hk. apply Hout. rewrite <- Hk. by apply Hseen.
  - intros c' [Hc'|Hc']%elem_of_app.
    + apply elem_of_union. right. by apply Hseen.
    + apply list_elem_of_singleton in Hc' as ->. apply elem_of_union. left.
      by apply elem_of_singleton.
  - apply Forall_app. split; [done|]. by apply Forall_singleton.
Qed.

Lemma append_nav_items_distinct source items :
  source ∈ [lit "searchin_section"; lit "command_section"] ->
  forall acc, pool_distinct es acc ->
              pool_distinct es (append_nav_items Ve Vt es source items acc).
Proof.
  intros Hsrc. induction items as [|item rest IH]; intros [seen out] Hacc; simpl; [done|].
  destruct (is_empty (strip (nav_query_exec_title item))) eqn:Ee; [by apply IH|].
  set (k := _canonical_edge_key (strip (nav_query_exec_title item))).
  destruct (is_empty k || bool_decide (k ∈ seen) || bool_decide (k ∈ Ve)) eqn:Ek;
    [by apply IH|].
  destruct (_ && _ && _); [by apply IH|].
  apply IH. apply orb_false_iff in Ek as [Ek _]. apply orb_false_iff in Ek as [_ Eseen].
  apply bool_decide_eq_false in Eseen. apply is_empty_false in Ee.
  match goal with |- pool_distinct _ (_, _ ++ [?c]) =>
    apply (pool_distinct_add (seen, out) c); [done|done|] end.
  destruct (to_input_command _ Ee (strip_idem _)) as (Hx & _ & _).
  unfold candidate_built. cbn [c_query_exec_title c_input c_source c_priority c_query_kind].
  split; [done|]. split; [apply strip_idem|]. split; [done|]. split; [done|].
  split; [|split; [done|]].
  - apply elem_of_cons in Hsrc as [->|Hsrc]; [by left|].
    apply list_elem_of_singleton in Hsrc as ->. right. by left.
  - intros ->. exfalso.
    apply elem_of_cons in Hsrc as [E|Hsrc]; [vm_compute in E; discriminate|].
    apply list_elem_of_singleton in Hsrc. vm_compute in Hsrc. discriminate.
Qed.

Lemma append_backlinks_distinct inputs : forall acc,
  pool_distinct es acc -> pool_distinct es (_append_backlinks Ve Vt es inputs acc).
Proof.
  induction inputs as [|inp rest IH]; intros [seen out] Hacc; simpl; [done|].
  destruct (is_empty (strip inp)) eqn:Ee; [by apply IH|].
  set (title := default (strip inp) (resolve_title_from_input (strip inp))).
  set (k := _canonical_edge_key title).
  destruct (is_empty k || bool_decide (k ∈ seen) || bool_decide (k ∈ Ve)) eqn:Ek;
    [by apply IH|].
  destruct (_ && _); [by apply IH|].
  apply IH. apply orb_false_iff in Ek as [Ek _]. apply orb_false_iff in Ek as [_ Eseen].
  apply bool_decide_eq_false in Eseen. apply is_empty_false in Ee.
  assert (Ht : title <> [] /\ strip title = title).
  { unfold title. destruct (resolve_title_from_input (strip inp)) as [t|] eqn:Er; simpl.
    - by apply resolve_title_stripped in Er.
    - split; [done|apply strip_idem]. }
  destruct Ht as [Hne Hs].
  match goal with |- pool_distinct _ (_, _ ++ [?c]) =>
    apply (pool_distinct_add (seen, out) c); [done|done|] end.
  destruct (to_input_command _ Hne Hs) as (Hx & _ & _).
  unfold candidate_built. cbn [c_query_exec_title c_input c_source c_priority c_query_kind].
  split; [done|]. split; [done|]. split; [done|]. split; [done|].
  split; [|done]. right. right. by left.
Qed.

End CandidateShape.

Section CandidateShapeTheorem.
Context `{PyLib}.
Import Graph Explore.

(** X14: the candidates [build_explore_candidates] returns have pairwise
    distinct canonical exec-title keys and come in the order of priority,
    then kind, then exec title, the last two compared in lower case.  Each
    carries an exec title that is not empty and has no whitespace around
    it, the input built from that title, which is an xlb command, one of
    the three sources and the priority the edge strategy gives the source;
    a candidate from the backlink source has the kind ["backlink"].  There
    are at most [max(1, max_candidates)] of them. *)
Theorem candidates_distinct_sorted (visited_exec visited_topics : gset str)
    (edge_strategy : str) (searchin_navigation command_navigation : Nav)
    (backlink_inputs : list str) (include_other_queries : bool) (max_candidates : Z) :
  let result := build_explore_candidates visited_exec visited_topics edge_strategy
                  searchin_navigation command_navigation backlink_inputs
                  include_other_queries max_candidates in
  NoDup (exec_key <$> result)
  /\ Sorted candidate_order result
  /\ Forall (candidate_built edge_strategy) result
  /\ (Z.of_nat (length result) <= Z.max 1 max_candidates)%Z.
Proof.
  intros result. unfold result, build_explore_candidates.
  set (pool := candidate_pool _ _ _ _ _ _ _).
  assert (Hpool : NoDup (exec_key <$> pool) /\ Forall (candidate_built edge_strategy) pool).
  { unfold pool, candidate_pool, _append_nav.
    match goal with |- context [(_append_backlinks ?a ?b ?c ?d ?acc).2] =>
      assert (Hd : pool_distinct edge_strategy (_append_backlinks a b c d acc)) end.
    { apply append_backlinks_distinct.
      apply append_nav_items_distinct; [right; by left|].
      apply append_nav_items_distinct; [by left|].
      split; [constructor|]. split; [|constructor].
      intros c Hc. by apply not_elem_of_nil in Hc. }
    destruct Hd as (? & _ & ?). done. }
  destruct Hpool as [Hnd Hall].
  split; [|split; [|split]].
  - rewrite fmap_take. eapply sublist_NoDup; [|apply sublist_take].
    by rewrite stable_sort_perm.
  - eapply Sorted_prefix; [apply prefix_take|].
    eapply Sorted_mono; [apply candidate_leb_order|].
    apply stable_sort_Sorted, candidate_leb_total.
  - apply Forall_forall. intros c Hc%subseteq_take%elem_of_stable_sort.
    rewrite Forall_forall in Hall. by apply Hall.
  - rewrite length_take. lia.
Qed.

End CandidateShapeTheorem.

Section NavigationCandidates.
Context `{PyLib}.
Import Graph Explore.

Lemma dedup_nav_spec ordered : forall seen,
  dedup_nav seen ordered `sublist_of` ordered
  /\ NoDup (nav_key <$> dedup_nav seen ordered)
  /\ Forall (fun it => strip (nav_query_exec_title it) <> [] /\ (nav_key it ∉ seen))
       (dedup_nav seen ordered)
  /\ forall item, item ∈ ordered -> strip (nav_query_exec_title item) <> [] ->
       nav_key item ∈ seen \/ nav_key item ∈ (nav_key <$> dedup_nav seen ordered).
Proof.
  induction ordered as [|it rest IH]; intros seen; simpl.
  { split; [done|]. split; [constructor|]. split; [constructor|].
    intros item Hin. by apply not_elem_of_nil in Hin. }
  destruct (is_empty (strip (nav_query_exec_title it))) eqn:Ee.
  { destruct (IH seen) as (Hs & Hnd & Hall & Hcov).
    split; [by apply sublist_cons|]. split; [done|]. split; [done|].
    intros item [->|Hin]%elem_of_cons Hne; [|by apply Hcov].
    apply is_empty_true in Ee. done. }
  apply is_empty_false in Ee. fold (nav_exec_key it). fold (nav_key it).
  destruct (decide (nav_key it ∈ seen)) as [Hin|Hout].
  { destruct (IH seen) as (Hs & Hnd & Hall & Hcov).
    split; [by apply sublist_cons|]. split; [done|]. split; [done|].
    intros item [->|Hin']%elem_of_cons Hne; [by left|by apply Hcov]. }
  destruct (IH ({[nav_key it]} ∪ seen)) as (Hs & Hnd & Hall & Hcov).
  split; [by apply sublist_skip|]. split; [|split].
  - rewrite fmap_cons. apply NoDup_cons. split; [|done].
    intros (it' & E & Hit')%list_elem_of_fmap.
    rewrite Forall_forall in Hall. destruct (Hall it' Hit') as [_ Hn].
    apply Hn. apply elem_of_union. left. by apply elem_of_singleton.
  - apply Forall_cons. split; [done|].
    eapply Forall_impl; [exact Hall|]. intros it' [? Hn]. split; [done|].
    intros Hs'. apply Hn. apply elem_of_union. by right.
  - intros item [->|Hin']%elem_of_cons Hne.
    + right. rewrite fmap_cons. by left.
    + destruct (Hcov item Hin' Hne) as [Hk|Hk].
      * apply elem_of_union in Hk as [Hk|Hk]; [|by left].
        apply elem_of_singleton in Hk. right. rewrite fmap_cons, Hk. by left.
      * right. rewrite fmap_cons. by right.
Qed.

(** X15: [build_navigation_candidates] keeps the entries in the order the
    strategy reads them, drops an entry whose exec title is blank, and of
    the entries with the same kind, source and canonical exec-title key
    keeps the first only: the result is a sublist of the entries read,
    its keys are pairwise distinct, and the key of every entry with a
    title that is not blank is the key of an entry of the result. *)
Theorem build_navigation_candidates_dedup (nav : Nav) (strategy : str)
    (include_other_queries : bool) :
  let result := build_navigation_candidates nav strategy include_other_queries in
  let entries := nav_ordered nav strategy include_other_queries in
  result `sublist_of` entries
  /\ NoDup (nav_key <$> result)
  /\ Forall (fun it => strip (nav_query_exec_title it) <> []) result
  /\ Forall (fun item => strip (nav_query_exec_title item) <> [] ->
                         nav_key item ∈ (nav_key <$> result)) entries.
Proof.
  intros result entries.
  assert (E : result = dedup_nav ∅ entries).
  { unfold result, entries, build_navigation_candidates, nav_ordered.
    destruct include_other_queries; [done|]. by rewrite app_nil_r. }
  rewrite E. destruct (dedup_nav_spec entries ∅) as (Hs & Hnd & Hall & Hcov).
  split; [done|]. split; [done|]. split.
  - eapply Forall_impl; [exact Hall|]. by intros it [? _].
  - apply Forall_forall. intros item Hin Hne.
    destruct (Hcov item Hin Hne) as [Hk|Hk]; [by apply not_elem_of_empty in Hk|done].
Qed.

End NavigationCandidates.

(** ** The visited-state files, further *)
Section VisitedFrame.
Context `{PyLib}.
Import Graph Visited.




Lemma save_visited_written (key : str) (disk : gmap str file) (path : str)
    (keys : gset str) :
  save_visited key disk path keys !! path
  = Some (Parsed (visited_document key (elements keys))).
Proof. unfold save_visited. apply lookup_insert_eq. Qed.



End VisitedFrame.

Section VisitedFrameExamples.
Import Graph Visited Concrete.
#[local] Existing Instance ascii_lib.


End VisitedFrameExamples.

(** ** The seed of an automatic exploration *)
Section SeedExamples.
Import Graph Seeds.

Example auto_seed_plain :
  normalize_auto_explore_seed (lit "vibe coding") = lit "xlb >vibe coding/:".
Proof. vm_compute. reflexivity. Qed.
Example auto_seed_auto :
  normalize_auto_explore_seed (lit "auto vibe coding") = lit "xlb >vibe coding/:".
Proof. vm_compute. reflexivity. Qed.
Example auto_seed_xlb_auto :
  normalize_auto_explore_seed (lit "xlb auto vibe coding") = lit "xlb >vibe coding/:".
Proof. vm_compute. reflexivity. Qed.
Example auto_seed_title :
  normalize_auto_explore_seed (lit ">vibe coding/") = lit "xlb >vibe coding/:".
Proof. vm_compute. reflexivity. Qed.
Example auto_seed_xlb_title :
  normalize_auto_explore_seed (lit "xlb >vibe coding/") = lit "xlb >vibe coding/:".
Proof. vm_compute. reflexivity. Qed.

End SeedExamples.

Section SeedNormalisation.
Context `{PyLib}.
Import Graph Seeds.

Lemma startswith_head_nonspace (p s : str) :
  startswith p s = true -> match p with [] => True | c :: _ => is_space c = false end ->
  p <> [] -> exists c r, s = c :: r /\ is_space c = false.
Proof.
  intros [r ->]%startswith_prefix Hc Hp. destruct p as [|c p]; [done|].
  by exists c, (p ++ r).
Qed.

(** The title [normalize_auto_explore_seed] builds is not empty and has no
    whitespace around it. *)
Lemma auto_title_stripped (text : str) :
  text <> [] -> strip text = text ->
  let title :=
    if is_xlb_command text then default text (resolve_title_from_input text)
    else if startswith (lit ">") text || startswith (lit "??") text
            || startswith (lit "->") text
    then text
    else lit ">" ++ text ++ lit "/:" in
  let title' :=
    if (startswith (lit ">") title || startswith (lit "->") title)
       && negb (endswith (lit ":") title)
    then title ++ lit ":" else title in
  title' <> [] /\ strip title' = title'.
Proof.
  intros Hne Hs title title'.
  assert (Ht : title <> [] /\ strip title = title).
  { unfold title. destruct (is_xlb_command text).
    - destruct (resolve_title_from_input text) as [t|] eqn:Er; simpl; [|done].
      by apply resolve_title_stripped in Er.
    - destruct (_ || _ || _); [done|]. split; [done|].
      change (lit ">" ++ text ++ lit "/:") with (62 :: text ++ ([47] ++ [58])).
      rewrite app_assoc. by apply strip_snoc_fixed. }
  destruct Ht as [Htne Hts]. unfold title'.
  destruct ((startswith (lit ">") title || startswith (lit "->") title)
            && negb (endswith (lit ":") title)) eqn:E; [|done].
  split; [by destruct title|].
  destruct (nonempty_head_nonspace title Htne Hts) as (c & r & -> & Hc).
  by apply strip_snoc_fixed.
Qed.

(** X17: the seed [normalize_auto_explore_seed] gives is empty for a blank
    input and otherwise empty or an xlb command without whitespace around
    it; [_normalize_seed_input], which [explore_loop] applies to its seed,
    leaves it as it is. *)
Theorem normalize_auto_explore_seed_shape (raw_input : str) :
  let seed := normalize_auto_explore_seed raw_input in
  (strip raw_input = [] -> seed = [])
  /\ (seed = [] \/ (is_xlb_command seed = true /\ strip seed = seed))
  /\ Explore._normalize_seed_input seed = seed.
Proof.
  intros seed.
  assert (Hshape : seed = [] \/ (is_xlb_command seed = true /\ strip seed = seed)).
  { unfold seed, normalize_auto_explore_seed.
    destruct (is_empty (strip raw_input)) eqn:Ee; [by left|].
    set (text := match xlb_auto_payload (strip raw_input) with
                 | Some g => strip g
                 | None => match auto_payload (strip raw_input) with
                           | Some g => strip g
                           | None => strip raw_input
                           end
                 end).
    assert (Hs : strip text = text).
    { unfold text. repeat case_match; apply strip_idem. }
    destruct (is_empty text) eqn:Et; [by left|]. apply is_empty_false in Et.
    destruct (auto_title_stripped text Et Hs) as [Hne Hst]. cbv zeta in Hne, Hst.
    right. by destruct (to_input_command _ Hne Hst) as (? & ? & _). }
  split; [|split; [done|]].
  - intros E. unfold seed, normalize_auto_explore_seed. by rewrite E.
  - destruct Hshape as [->|[Hx Hs]]; [done|].
    unfold Explore._normalize_seed_input. rewrite Hs, Hx. by destruct seed.
Qed.

Lemma normalize_auto_explore_seed_shape_witness :
  normalize_auto_explore_seed (lit "  ") = [].
Proof.
  destruct (normalize_auto_explore_seed_shape (lit "  ")) as [Hblank _].
  apply Hblank. reflexivity.
Defined.

Lemma after_spaces_topic (T : str) :
  T <> [] -> strip T = T -> has_char 10 T = false -> after_spaces (32 :: T) = Some T.
Proof.
  intros Hne Hs Hn. apply strip_fixed in Hs as [Hl _].
  unfold after_spaces. cbn [is_space]. simpl. rewrite Hl, Hn. by destruct T.
Qed.

(** X18: the three ways of asking for the automatic exploration of a
    topic give the same seed.  For a plain topic name [T], the inputs
    [T], ["auto " ++ T] and ["xlb auto " ++ T] are all normalised to
    ["xlb >" ++ T ++ "/:"], and when [T] holds no ["/"],
    [root_topic_from_title] gives [T] for that seed. *)
Theorem normalize_auto_explore_seed_topic (T : str) :
  plain_topic T ->
  normalize_auto_explore_seed T = lit "xlb >" ++ T ++ lit "/:"
  /\ normalize_auto_explore_seed (lit "auto " ++ T) = lit "xlb >" ++ T ++ lit "/:"
  /\ normalize_auto_explore_seed (lit "xlb auto " ++ T) = lit "xlb >" ++ T ++ lit "/:"
  /\ (47 ∉ T -> root_topic_from_title (lit "xlb >" ++ T ++ lit "/:") = T).
Proof.
  intros (Hne & Hs & Hn & Hx & Ha & Hm1 & Hm2 & Hm3).
  assert (Hplain : forall text : str,
            match xlb_auto_payload text with
            | Some g => strip g
            | None => match auto_payload text with
                      | Some g => strip g
                      | None => text
                      end
            end = T ->
            strip text = text -> text <> [] ->
            normalize_auto_explore_seed text = lit "xlb >" ++ T ++ lit "/:").
  { intros text E Hst Htne. unfold normalize_auto_explore_seed. rewrite Hst.
    destruct (is_empty text) eqn:Ee; [by apply is_empty_true in Ee|]. rewrite E.
    destruct (is_empty T) eqn:Et; [by apply is_empty_true in Et|].
    rewrite Hx, Hm1, Hm2, Hm3. cbn [orb].
    change (startswith (lit ">") (lit ">" ++ T ++ lit "/:")) with true.
    assert (endswith (lit ":") (lit ">" ++ T ++ lit "/:") = true) as ->.
    { unfold endswith. change (lit ">" ++ T ++ lit "/:") with (62 :: T ++ ([47] ++ [58])).
      rewrite app_assoc, app_comm_cons, reverse_app. done. }
    cbn [orb andb negb]. unfold _to_input_from_exec_title.
    assert (strip (lit ">" ++ T ++ lit "/:") = lit ">" ++ T ++ lit "/:") as ->.
    { change (lit ">" ++ T ++ lit "/:") with (62 :: T ++ ([47] ++ [58])).
      rewrite app_assoc. by apply strip_snoc_fixed. }
    destruct (nonempty_head_nonspace T Hne Hs) as (c & r & -> & Hc).
    by destruct r. }
  destruct (nonempty_head_nonspace T Hne Hs) as (c & r & ET & Hc).
  split; [|split; [|split]].
  - apply Hplain; [|done|done].
    assert (xlb_auto_payload T = None) as ->.
    { unfold xlb_auto_payload. unfold is_xlb_command in Hx.
      destruct (xlb_prefix T) as [[|d q]|]; try done. by rewrite Hx. }
    by rewrite Ha.
  - apply Hplain.
    + change (xlb_auto_payload (lit "auto " ++ T)) with (@None str).
      change (auto_payload (lit "auto " ++ T)) with (after_spaces (32 :: T)).
      by rewrite after_spaces_topic, Hs.
    + change (lit "auto " ++ T) with (97 :: lit "uto " ++ T). by apply strip_app_fixed.
    + done.
  - apply Hplain.
    + change (xlb_auto_payload (lit "xlb auto " ++ T)) with (after_spaces (32 :: T)).
      by rewrite after_spaces_topic, Hs.
    + change (lit "xlb auto " ++ T) with (120 :: lit "lb auto " ++ T).
      by apply strip_app_fixed.
    + done.
  - intros Hslash.
    change (lit "xlb >" ++ T ++ lit "/:") with (lit "xlb " ++ (lit ">" ++ T ++ lit "/:")).
    rewrite root_topic_xlb.
    + apply (root_topic_marker_path (lit ">") T [] true); try done; [by left|].
      repeat constructor; done.
    + done.
    + change (lit ">" ++ T ++ lit "/:") with (62 :: T ++ ([47] ++ [58])).
      rewrite app_assoc. by apply strip_snoc_fixed.
    + change (lit ">" ++ T ++ lit "/:") with ([62] ++ T ++ lit "/:").
      rewrite !has_char_app, Hn. done.
    + rewrite ET. by destruct r.
Qed.

Lemma normalize_auto_explore_seed_topic_witness :
  normalize_auto_explore_seed (lit "xlb auto vibe coding") = lit "xlb >vibe coding/:".
Proof.
  destruct (normalize_auto_explore_seed_topic (lit "vibe coding")) as (_ & _ & E & _).
  - repeat split; try reflexivity. discriminate.
  - exact E.
Defined.

End SeedNormalisation.

(** ** Grouping and summaries *)
Section GroupFacts.
Import Parser Summaries.
Context {A : Type} (key_of : A -> str).

Lemma group_add_keys (key : str) (x : A) (grouped : list (str * list A)) :
  fst <$> group_add key x grouped
  = if decide (key ∈ (fst <$> grouped)) then fst <$> grouped
    else (fst <$> grouped) ++ [key].
Proof.
  induction grouped as [|[k xs] rest IH]; [done|].
  cbn [group_add]. destruct (decide (k = key)) as [->|Hne].
  - rewrite !fmap_cons. cbn [fst]. rewrite decide_True by (by left). done.
  - rewrite !fmap_cons, IH. cbn [fst].
    destruct (decide (key ∈ (fst <$> rest))) as [Hin|Hout].
    + rewrite decide_True by (by right). done.
    + rewrite decide_False; [done|]. intros [?|?]%elem_of_cons; congruence.
Qed.

Lemma with_key_snoc (k : str) (p : list A) (x : A) :
  with_key key_of k (p ++ [x])
  = with_key key_of k p ++ (if decide (key_of x = k) then [x] else []).
Proof.
  unfold with_key. rewrite filter_app. f_equal.
Qed.

Lemma group_add_groups (p : list A) (x : A) : forall grouped : list (str * list A),
  NoDup (fst <$> grouped) ->
  Forall (fun g => g.2 <> [] /\ g.2 = with_key key_of g.1 p) grouped ->
  (key_of x ∉ (fst <$> grouped) -> with_key key_of (key_of x) p = []) ->
  Forall (fun g => g.2 <> [] /\ g.2 = with_key key_of g.1 (p ++ [x]))
    (group_add (key_of x) x grouped).
Proof.
  induction grouped as [|[k xs] rest IH]; intros Hnd Hall Hfresh; simpl.
  - apply Forall_singleton. simpl. split; [done|].
    rewrite with_key_snoc, decide_True by done.
    rewrite Hfresh by apply not_elem_of_nil. done.
  - rewrite fmap_cons in Hnd. apply NoDup_cons in Hnd as [Hk Hnd].
    inversion Hall as [|? ? [Hne Hxs] Hrest]; subst. simpl in *.
    destruct (decide (k = key_of x)) as [->|Hneq].
    + apply Forall_cons. split.
      * simpl. split; [by destruct xs|]. rewrite with_key_snoc, decide_True by done.
        by rewrite <- Hxs.
      * apply Forall_forall. intros g Hg. rewrite Forall_forall in Hrest.
        destruct (Hrest g Hg) as [? Eg]. split; [done|].
        rewrite with_key_snoc, decide_False; [by rewrite app_nil_r|].
        intros E. apply Hk. rewrite E. apply list_elem_of_fmap. by exists g.
    + apply Forall_cons. split.
      * simpl. split; [done|]. rewrite with_key_snoc, decide_False by done.
        by rewrite app_nil_r.
      * apply IH; [done|done|]. intros Hout. apply Hfresh.
        intros [?|?]%elem_of_cons; [congruence|done].
Qed.

Lemma group_add_spec (p : list A) (x : A) (grouped : list (str * list A)) :
  groups_of key_of p grouped ->
  groups_of key_of (p ++ [x]) (group_add (key_of x) x grouped).
Proof.
  intros (Hnd & Hall & Hcov). split; [|split].
  - rewrite group_add_keys. destruct (decide _) as [Hin|Hout]; [done|].
    apply NoDup_app. split; [done|]. split; [|apply NoDup_singleton].
    intros k Hk ->%list_elem_of_singleton. done.
  - apply group_add_groups; [done|done|]. intros Hout.
    unfold with_key. destruct (filter _ p) as [|y ys] eqn:E; [done|].
    assert (Hy : y ∈ filter (fun z => key_of z = key_of x) p) by (rewrite E; by left).
    apply list_elem_of_filter in Hy as [Hk Hy]. exfalso. apply Hout.
    rewrite <- Hk. by apply Hcov.
  - intros y [Hy|Hy]%elem_of_app.
    + rewrite group_add_keys. destruct (decide _); [by apply Hcov|].
      apply elem_of_app. left. by apply Hcov.
    + apply list_elem_of_singleton in Hy as ->. rewrite group_add_keys.
      destruct (decide _) as [Hin|Hout]; [done|]. apply elem_of_app. right. by left.
Qed.

Lemma group_by_from (l : list A) : forall (p : list A) (grouped : list (str * list A)),
  groups_of key_of p grouped ->
  groups_of key_of (p ++ l)
    (foldl (fun grouped x => group_add (key_of x) x grouped) grouped l).
Proof.
  induction l as [|x l IH]; intros p grouped Hg; simpl.
  - by rewrite app_nil_r.
  - replace (p ++ x :: l) with ((p ++ [x]) ++ l) by (by rewrite <- app_assoc).
    apply IH. by apply group_add_spec.
Qed.

Lemma group_by_spec (l : list A) : groups_of key_of l (group_by key_of l).
Proof.
  apply (group_by_from l [] []). split; [constructor|]. split; [constructor|].
  intros x Hx. by apply not_elem_of_nil in Hx.
Qed.

Lemma group_add_total (key : str) (x : A) (grouped : list (str * list A)) :
  sum_list_with (fun g => length g.2) (group_add key x grouped)
  = S (sum_list_with (fun g => length g.2) grouped).
Proof.
  induction grouped as [|[k xs] rest IH]; [done|].
  cbn [group_add]. destruct (decide (k = key)).
  - cbn [sum_list_with snd]. rewrite length_app. simpl. lia.
  - cbn [sum_list_with snd]. rewrite IH. lia.
Qed.

(** Every element is in exactly one group: the sizes of the groups add up
    to the length of the list. *)
Lemma group_by_total (l : list A) :
  sum_list_with (fun g => length g.2) (group_by key_of l) = length l.
Proof.
  unfold group_by.
  assert (Hgen : forall grouped : list (str * list A),
            sum_list_with (fun g => length g.2)
              (foldl (fun grouped x => group_add (key_of x) x grouped) grouped l)
            = (sum_list_with (fun g => length g.2) grouped + length l)%nat).
  { induction l as [|x l IH]; intros grouped; simpl; [lia|].
    rewrite IH, group_add_total. lia. }
  by rewrite Hgen.
Qed.

(** The groups are as many as the keys that occur. *)
Lemma groups_of_count (l : list A) (grouped : list (str * list A)) :
  groups_of key_of l grouped ->
  length grouped = size (list_to_set (key_of <$> l) : gset str).
Proof.
  intros (Hnd & Hall & Hcov). rewrite <- (length_fmap fst).
  rewrite <- (size_list_to_set (C := gset str)) by done. f_equal.
  apply set_eq. intros k. rewrite !elem_of_list_to_set. split.
  - intros (g & -> & Hg)%list_elem_of_fmap. rewrite Forall_forall in Hall.
    destruct (Hall g Hg) as [Hne Eg]. destruct (g.2) as [|y ys] eqn:E; [done|].
    assert (Hy : y ∈ with_key key_of g.1 l) by (rewrite <- Eg; by left).
    apply list_elem_of_filter in Hy as [<- Hy]. apply list_elem_of_fmap. by exists y.
  - intros (y & -> & Hy)%list_elem_of_fmap. by apply Hcov.
Qed.

End GroupFacts.

Section TopicsJson.
Context `{PyLib}.
Import Parser Summaries.

Lemma group_topic_nonempty (n : Node) : group_topic n <> [].
Proof. unfold group_topic. by apply or_else_nonempty. Qed.

Lemma topic_name_leb_total {A} (a b : str * A) :
  topic_name_leb a b = true \/ topic_name_leb b a = true.
Proof. unfold topic_name_leb. apply str_leb_total. Qed.

(** X19: the document [write_topics_json] writes lists every topic of the
    nodes once, in the order of the topic names in lower case, with the
    number of nodes grouped under it, which is at least 1; no topic name
    is empty, [topic_count] is the number of topics listed, and the node
    counts add up to the number of nodes. *)
Theorem write_topics_json_counts (nodes : list Node) :
  let topic_count := (write_topics_json nodes).1 in
  let topics := (write_topics_json nodes).2 in
  topic_count = length topics
  /\ topic_count = size (list_to_set (group_topic <$> nodes) : gset str)
  /\ NoDup (fst <$> topics)
  /\ Sorted (fun a b => str_leb (lower a.1) (lower b.1) = true) topics
  /\ Forall (fun t => t.1 <> [] /\ (1 <= t.2)%nat
                      /\ t.2 = length (with_key group_topic t.1 nodes)) topics
  /\ Forall (fun n => group_topic n ∈ (fst <$> topics)) nodes
  /\ sum_list_with snd topics = length nodes.
Proof.
  intros topic_count topics. unfold topic_count, topics, write_topics_json.
  cbn [fst snd]. unfold _group_nodes_by_topic.
  pose proof (group_by_spec group_topic nodes) as Hspec.
  pose proof (groups_of_count group_topic nodes _ Hspec) as Hcount.
  destruct Hspec as (Hnd & Hall & Hcov).
  set (groups := group_by group_topic nodes) in *.
  assert (Hperm : stable_sort topic_name_leb groups ≡ₚ groups) by apply stable_sort_perm.
  assert (Hkeys : fst <$> ((fun g : str * list Node => (g.1, length g.2))
                             <$> stable_sort topic_name_leb groups)
                  = fst <$> stable_sort topic_name_leb groups).
  { rewrite <- list_fmap_compose. done. }
  split; [by rewrite length_fmap, length_stable_sort|]. split; [done|].
  split; [|split; [|split; [|split]]].
  - rewrite Hkeys, Hperm. done.
  - eapply (Sorted_fmap _ (fun a b : str * list Node => topic_name_leb a b = true));
      [|apply stable_sort_Sorted, topic_name_leb_total].
    intros a b Hab. exact Hab.
  - apply Forall_fmap, Forall_forall. intros g Hg%elem_of_stable_sort.
    rewrite Forall_forall in Hall. destruct (Hall g Hg) as [Hne Eg].
    unfold compose. cbn [fst snd].
    destruct (g.2) as [|y ys] eqn:E; [done|].
    assert (Hy : y ∈ with_key group_topic g.1 nodes) by (rewrite <- Eg; by left).
    apply list_elem_of_filter in Hy as [Hk Hy].
    split; [rewrite <- Hk; apply group_topic_nonempty|]. split; [simpl; lia|].
    rewrite <- Eg. done.
  - apply Forall_forall. intros n Hn. rewrite Hkeys, Hperm. by apply Hcov.
  - rewrite <- (group_by_total group_topic nodes). fold groups.
    rewrite <- Hperm at 2.
    generalize (stable_sort topic_name_leb groups). intros l.
    induction l as [|g l IH]; [done|]. rewrite fmap_cons. cbn [sum_list_with snd].
    by rewrite IH.
Qed.

End TopicsJson.

Section SummarizeTopics.
Context `{PyLib}.
Import Parser Summaries Topics.

Lemma sample_titles_spec (cap : nat) (arr : list Node) : forall samples,
  (length samples < cap)%nat -> NoDup samples ->
  (length (sample_titles cap samples arr) <= cap)%nat
  /\ NoDup (sample_titles cap samples arr)
  /\ forall s, s ∈ sample_titles cap samples arr ->
       s ∈ samples \/ (s <> [] /\ exists n, n ∈ arr /\ strip (title n) = s).
Proof.
  induction arr as [|node rest IH]; intros samples Hlen Hnd; simpl.
  { split; [lia|]. split; [done|]. auto. }
  set (t := strip (title node)).
  set (samples' := if negb (is_empty t) && bool_decide (t ∉ samples)
                   then samples ++ [t] else samples).
  assert (Hs' : (length samples' <= cap)%nat /\ NoDup samples'
                /\ forall s, s ∈ samples' ->
                     s ∈ samples \/ (s <> [] /\ strip (title node) = s)).
  { unfold samples'. destruct (negb (is_empty t) && bool_decide (t ∉ samples)) eqn:E.
    - apply andb_true_iff in E as [Ene Eout]. apply negb_true_iff, is_empty_false in Ene.
      apply bool_decide_eq_true in Eout.
      split; [rewrite length_app; simpl; lia|]. split.
      + apply NoDup_app. split; [done|]. split; [|apply NoDup_singleton].
        intros s Hs ->%list_elem_of_singleton. done.
      + intros s [Hs|Hs]%elem_of_app; [by left|].
        apply list_elem_of_singleton in Hs as ->. right. done.
    - split; [lia|]. split; [done|]. auto. }
  destruct Hs' as (Hlen' & Hnd' & Hin').
  destruct (cap <=? length samples')%nat eqn:Ec.
  - split; [done|]. split; [done|]. intros s Hs.
    destruct (Hin' s Hs) as [?|[? ?]]; [by left|]. right. split; [done|].
    exists node. split; [by left|done].
  - apply Nat.leb_gt in Ec. destruct (IH samples' Ec Hnd') as (Hl & Hn & Hi).
    split; [done|]. split; [done|]. intros s Hs.
    destruct (Hi s Hs) as [Hs'|(? & n & ? & ?)].
    + destruct (Hin' s Hs') as [?|[? ?]]; [by left|]. right. split; [done|].
      exists node. split; [by left|done].
    + right. split; [done|]. exists n. split; [by right|done].
Qed.

Lemma summary_leb_total a b : summary_leb a b = true \/ summary_leb b a = true.
Proof.
  unfold summary_leb.
  rewrite (Z.compare_antisym (- Z.of_nat (ts_count a)) (- Z.of_nat (ts_count b))).
  rewrite (str_compare_opp (lower (ts_topic a)) (lower (ts_topic b))).
  rewrite lex_opp. apply not_gt_total.
Qed.

Lemma summary_leb_order a b : summary_leb a b = true -> summary_order a b.
Proof.
  unfold summary_leb, summary_order, str_leb.
  destruct (- Z.of_nat (ts_count a) ?= - Z.of_nat (ts_count b))%Z eqn:E; simpl;
    intros Hle; try done.
  - apply Z.compare_eq, Z.opp_inj, Nat2Z.inj in E. right. by split.
  - apply Z.compare_lt_iff, Z.opp_lt_mono in E. left. by apply Nat2Z.inj_lt.
Qed.

Lemma summarize_group_spec (nodes : list Node) (spt : Z) (g : str * list Node) :
  g.2 <> [] -> g.2 = with_key summary_topic g.1 nodes ->
  summarizes nodes spt (summarize_group spt g).
Proof.
  intros Hne Eg. unfold summarizes, summarize_group.
  cbn [ts_topic ts_count ts_samples ts_entry_query ts_entry_input].
  destruct (sample_titles_spec (Z.to_nat (Z.max 1 spt)) g.2 []) as (Hl & Hnd & Hin);
    [simpl; lia|constructor|].
  split; [by rewrite <- Eg|]. split; [destruct (g.2); [done|simpl; lia]|].
  split; [lia|]. split; [done|]. split; [|done].
  apply Forall_forall. intros s Hs.
  destruct (Hin s Hs) as [Hs'|(? & n & Hn & ?)]; [by apply not_elem_of_nil in Hs'|].
  split; [done|]. exists n. rewrite Eg in Hn. apply list_elem_of_filter in Hn as [? ?].
  done.
Qed.

(** X20: [summarize_topics] lists every topic of the nodes at most once,
    in the order of descending node count and then of the topic name in
    lower case, cut to [max(1, limit)] entries.  The count of an entry is
    the number of nodes of its topic; its samples are at most
    [max(1, sample_per_topic)] distinct, non-empty titles of those nodes;
    its entry query and entry input are those built from its topic.
    [topic_count] counts all the topics, listed or not.  The recommended
    topic is the first one listed, and no topic has more nodes; it is
    empty only when there are no nodes. *)
Theorem summarize_topics_spec (nodes : list Node) (limit sample_per_topic : Z) :
  let s := summarize_topics nodes limit sample_per_topic in
  sum_topic_count s = size (list_to_set (summary_topic <$> nodes) : gset str)
  /\ (Z.of_nat (length (sum_topics s)) <= Z.max 1 limit)%Z
  /\ NoDup (ts_topic <$> sum_topics s)
  /\ Sorted summary_order (sum_topics s)
  /\ Forall (summarizes nodes sample_per_topic) (sum_topics s)
  /\ match sum_topics s with
     | [] => nodes = [] /\ sum_recommended_topic s = []
     | t :: _ =>
         sum_recommended_topic s = ts_topic t
         /\ Forall (fun n => (length (with_key summary_topic (summary_topic n) nodes)
                              <= ts_count t)%nat) nodes
     end.
Proof.
  intros s. unfold s, summarize_topics.
  cbn [sum_topic_count sum_topics sum_recommended_topic].
  pose proof (group_by_spec summary_topic nodes) as Hspec.
  pose proof (groups_of_count summary_topic nodes _ Hspec) as Hcount.
  destruct Hspec as (Hnd & Hall & Hcov).
  set (groups := group_by summary_topic nodes) in *.
  set (items := stable_sort summary_leb (summarize_group sample_per_topic <$> groups)).
  assert (Hperm : items ≡ₚ summarize_group sample_per_topic <$> groups)
    by apply stable_sort_perm.
  assert (Hsorted : Sorted (fun a b => summary_leb a b = true) items)
    by apply stable_sort_Sorted, summary_leb_total.
  assert (Hkeys : ts_topic <$> (summarize_group sample_per_topic <$> groups)
                  = fst <$> groups).
  { rewrite <- list_fmap_compose. done. }
  assert (Hitems : Forall (summarizes nodes sample_per_topic) items).
  { rewrite Hperm. apply Forall_fmap, Forall_forall. intros g Hg.
    rewrite Forall_forall in Hall. destruct (Hall g Hg) as [? ?].
    by apply summarize_group_spec. }
  split; [done|]. split; [rewrite length_take; lia|].
  split; [|split; [|split]].
  - rewrite fmap_take. eapply sublist_NoDup; [|apply sublist_take].
    rewrite Hperm, Hkeys. done.
  - eapply Sorted_prefix; [apply prefix_take|].
    eapply Sorted_mono; [apply summary_leb_order|done].
  - apply Forall_forall. intros t Ht%subseteq_take.
    rewrite Forall_forall in Hitems. by apply Hitems.
  - assert (Hcap : exists k, Z.to_nat (Z.max 1 limit) = S k)
      by (exists (Z.to_nat (Z.max 1 limit) - 1)%nat; lia).
    destruct Hcap as [k ->].
    destruct items as [|t rest] eqn:Ei; cbn [take].
    + split; [|done]. destruct nodes as [|n ns]; [done|]. exfalso.
      assert (Hn : summary_topic n ∈ (fst <$> groups)) by (apply Hcov; by left).
      rewrite <- Hkeys, <- Hperm in Hn. by apply not_elem_of_nil in Hn.
    + split; [done|]. apply Forall_forall. intros n Hn.
      assert (Hk : summary_topic n ∈ (ts_topic <$> (t :: rest))).
      { rewrite Hperm, Hkeys. by apply Hcov. }
      apply list_elem_of_fmap in Hk as (u & Eu & Hu).
      rewrite Forall_forall in Hitems. destruct (Hitems u Hu) as (Ec & _).
      rewrite Eu, <- Ec.
      assert (Hstrong : StronglySorted (fun a b => (ts_count b <= ts_count a)%nat)
                          (t :: rest)).
      { apply Sorted_StronglySorted; [intros a b c ? ?; lia|].
        eapply Sorted_mono; [|exact Hsorted].
        intros a b Hab%summary_leb_order. destruct Hab as [?|[? _]]; lia. }
      apply StronglySorted_inv in Hstrong as [_ Hhead].
      apply elem_of_cons in Hu as [->|Hu]; [done|].
      rewrite Forall_forall in Hhead. by apply Hhead.
Qed.

End SummarizeTopics.

(** ** The navigation document *)
Section NavigationDocument.
Context `{PyLib}.
Import Parser Navigation.

Lemma navigation_items_nodes (nodes : list Node) : forall seen,
  navigation_items seen nodes = entry_of <$> navigation_nodes seen nodes.
Proof.
  induction nodes as [|node rest IH]; intros seen; simpl; [done|].
  case_bool_decide; [apply IH|].
  destruct (is_empty _); [apply IH|].
  destruct (decide _); [apply IH|]. rewrite fmap_cons. by rewrite IH.
Qed.

Lemma navigation_nodes_spec (nodes : list Node) : forall seen,
  navigation_nodes seen nodes `sublist_of` nodes
  /\ NoDup (node_nav_key <$> navigation_nodes seen nodes)
  /\ Forall (fun n => navigable n /\ (node_nav_key n ∉ seen)) (navigation_nodes seen nodes)
  /\ Forall (fun n => navigable n ->
                      node_nav_key n ∈ seen
                      \/ node_nav_key n ∈ (node_nav_key <$> navigation_nodes seen nodes))
       nodes.
Proof.
  induction nodes as [|node rest IH]; intros seen; simpl.
  { split; [done|]. split; [constructor|]. split; constructor. }
  destruct (IH seen) as (Hs & Hnd & Hall & Hcov).
  case_bool_decide as Ety.
  { split; [by apply sublist_cons|]. split; [done|]. split; [done|].
    apply Forall_cons. split; [|done]. by intros [? _]. }
  destruct (is_empty (strip (query_exec_title node))) eqn:Ee.
  { split; [by apply sublist_cons|]. split; [done|]. split; [done|].
    apply Forall_cons. split; [|done]. apply is_empty_true in Ee. by intros [_ ?]. }
  destruct (decide (node_nav_key node ∈ seen)) as [Hin|Hout].
  { split; [by apply sublist_cons|]. split; [done|]. split; [done|].
    apply Forall_cons. split; [|done]. intros _. by left. }
  clear Hs Hnd Hall Hcov.
  destruct (IH ({[node_nav_key node]} ∪ seen)) as (Hs & Hnd & Hall & Hcov).
  split; [by apply sublist_skip|]. split; [|split].
  - rewrite fmap_cons. apply NoDup_cons. split; [|done].
    intros (n & E & Hn)%list_elem_of_fmap. rewrite Forall_forall in Hall.
    destruct (Hall n Hn) as [_ Hne]. apply Hne. apply elem_of_union. left.
    by apply elem_of_singleton.
  - apply Forall_cons. split.
    + split; [|done]. split; [|by apply is_empty_false].
      exact Ety.
    + eapply Forall_impl; [exact Hall|]. intros n [? Hne]. split; [done|].
      intros Hin. apply Hne. apply elem_of_union. by right.
  - apply Forall_cons. split.
    + intros _. right. rewrite fmap_cons. by left.
    + eapply Forall_impl; [exact Hcov|]. intros n Hn Hnav.
      destruct (Hn Hnav) as [Hk|Hk].
      * apply elem_of_union in Hk as [Hk|Hk]; [|by left].
        apply elem_of_singleton in Hk. right. rewrite fmap_cons, Hk. by left.
      * right. rewrite fmap_cons. by right.
Qed.

Lemma entry_kind_iff (n : Node) (k : str) :
  k <> lit "unknown" -> k <> [] ->
  ne_query_kind (entry_of n) = k <-> query_kind n = k.
Proof.
  intros Hu Hk. unfold entry_of. cbn [ne_query_kind]. unfold or_else.
  destruct (is_empty (query_kind n)) eqn:E; [|done].
  apply is_empty_true in E. rewrite E. split; intros E'; by rewrite <- E' in *.
Qed.

Lemma filter_fmap_entry (P : NavEntry -> Prop) (Q : Node -> Prop)
    `{!forall e, Decision (P e)} `{!forall n, Decision (Q n)} (l : list Node) :
  (forall n, P (entry_of n) <-> Q n) ->
  filter P (entry_of <$> l) = entry_of <$> filter Q l.
Proof.
  intros HPQ. induction l as [|n l IH]; [done|].
  rewrite fmap_cons, !filter_cons, IH.
  destruct (decide (P (entry_of n))) as [Hp|Hp], (decide (Q n)) as [Hq|Hq];
    try done; exfalso; [apply Hq, HPQ, Hp|apply Hp, HPQ, Hq].
Qed.

Lemma write_navigation_json_lists (nodes : list Node) :
  let doc := write_navigation_json nodes in
  let kept := navigation_nodes ∅ nodes in
  doc_topic_navigation doc
  = entry_of <$> filter (fun n => query_kind n = lit "topic_nav") kept
  /\ doc_knowledge_search doc
     = entry_of <$> filter (fun n => query_kind n = lit "kb_search") kept
  /\ doc_other_queries doc
     = entry_of <$> filter (fun n => query_kind n ∉ [lit "topic_nav"; lit "kb_search"]) kept.
Proof.
  intros doc kept. unfold doc, kept, write_navigation_json.
  cbn [doc_topic_navigation doc_knowledge_search doc_other_queries].
  rewrite navigation_items_nodes.
  set (l := navigation_nodes ∅ nodes).
  split; [|split].
  - apply filter_fmap_entry. intros n. by apply entry_kind_iff.
  - apply filter_fmap_entry. intros n. by apply entry_kind_iff.
  - apply filter_fmap_entry. intros n. rewrite !not_elem_of_cons.
    rewrite (entry_kind_iff n (lit "topic_nav")) by done.
    rewrite (entry_kind_iff n (lit "kb_search")) by done.
    split; intros (? & ? & _); repeat split; try done; apply not_elem_of_nil.
Qed.

Lemma navigation_nodes_cover (nodes : list Node) (n : Node) :
  n ∈ nodes -> navigable n ->
  node_nav_key n ∈ (node_nav_key <$> navigation_nodes ∅ nodes).
Proof.
  intros Hin Hnav.
  destruct (navigation_nodes_spec nodes ∅) as (_ & _ & _ & Hcov).
  rewrite Forall_forall in Hcov.
  destruct (Hcov n Hin Hnav) as [Hk|Hk]; [by apply not_elem_of_empty in Hk|done].
Qed.

(** X21: the entries of the document [write_navigation_json] writes are
    those of a sublist of the nodes: the query nodes with an exec title
    that is not blank, the first only of those with the same kind,
    stripped exec title, topic and section.  Every such key of the input
    has its entry.  The entries with the kind ["topic_nav"] make the list
    [topic_navigation], those with ["kb_search"] the list
    [knowledge_search] and all the others the list [other_queries], an
    empty kind reading ["unknown"]: the three lists together hold every
    entry once. *)
Theorem write_navigation_json_spec (nodes : list Node) :
  let doc := write_navigation_json nodes in
  let kept := navigation_nodes ∅ nodes in
  kept `sublist_of` nodes
  /\ Forall navigable kept
  /\ NoDup (node_nav_key <$> kept)
  /\ Forall (fun n => navigable n -> node_nav_key n ∈ (node_nav_key <$> kept)) nodes
  /\ doc_topic_navigation doc
     = entry_of <$> filter (fun n => query_kind n = lit "topic_nav") kept
  /\ doc_knowledge_search doc
     = entry_of <$> filter (fun n => query_kind n = lit "kb_search") kept
  /\ doc_other_queries doc
     = entry_of <$> filter (fun n => query_kind n ∉ [lit "topic_nav"; lit "kb_search"]) kept
  /\ doc_topic_navigation doc ++ doc_knowledge_search doc ++ doc_other_queries doc
     ≡ₚ entry_of <$> kept.
Proof.
  intros doc kept.
  destruct (write_navigation_json_lists nodes) as (Ht & Hk & Ho).
  cbv zeta in Ht, Hk, Ho. fold doc kept in Ht, Hk, Ho.
  destruct (navigation_nodes_spec nodes ∅) as (Hs & Hnd & Hall & _).
  fold kept in Hs, Hnd, Hall.
  split; [done|]. split; [eapply Forall_impl; [exact Hall|]; by intros n [? _]|].
  split; [done|]. split.
  { apply Forall_forall. intros n Hin Hnav. by apply navigation_nodes_cover. }
  rewrite Ht, Hk, Ho. split; [done|]. split; [done|]. split; [done|].
  rewrite <- !fmap_app. apply fmap_Permutation.
  clear. induction kept as [|n l IH]; [done|].
  rewrite !filter_cons.
  destruct (decide (query_kind n = lit "topic_nav")) as [E1|E1].
  { rewrite decide_False by (rewrite E1; done).
    rewrite decide_False by (rewrite E1; intros Hn; apply Hn; by left).
    rewrite <- app_comm_cons. by constructor. }
  destruct (decide (query_kind n = lit "kb_search")) as [E2|E2].
  { rewrite decide_False by (rewrite E2; intros Hn; apply Hn; right; by left).
    rewrite <- app_comm_cons, <- Permutation_middle. by constructor. }
  rewrite decide_True.
  - rewrite app_assoc, <- Permutation_middle, <- app_assoc. by constructor.
  - intros [?|[?|Hn]%elem_of_cons]%elem_of_cons; [done|done|].
    by apply not_elem_of_nil in Hn.
Qed.

End NavigationDocument.

Section NavigationPipeline.
Context `{PyLib}.
Import Parser Navigation Graph Explore.

(** X22: the navigation document leads every query to the candidates.
    For a query node with an exec title that is not blank,
    [build_navigation_candidates], reading the document
    [write_navigation_json] wrote with the strategy ["topic_first"], gives
    an entry with the kind of the node and the canonical key of its exec
    title, provided the other queries are included or the kind of the node
    is ["topic_nav"] or ["kb_search"]. *)
Theorem navigation_document_candidates (nodes : list Node) (n : Node)
    (include_other_queries : bool) :
  n ∈ nodes -> navigable n ->
  include_other_queries = true \/ query_kind n ∈ [lit "topic_nav"; lit "kb_search"] ->
  exists item,
    item ∈ build_navigation_candidates (read_document (write_navigation_json nodes))
             (lit "topic_first") include_other_queries
    /\ kind_or_unknown item = kind_or_unknown (read_entry (entry_of n))
    /\ nav_exec_key item = _canonical_edge_key (strip (query_exec_title n)).
Proof.
  intros Hin Hnav Hio.
  destruct (write_navigation_json_lists nodes) as (Et & Ek & Eo).
  cbv zeta in Et, Ek, Eo.
  pose proof (navigation_nodes_cover nodes n Hin Hnav) as Hkept.
  apply list_elem_of_fmap in Hkept as (m & Ekey & Hm).
  injection Ekey as Ekind Eexec Etopic Esection.
  assert (Hentry : read_entry (entry_of m)
                   ∈ nav_entries include_other_queries
                       (read_document (write_navigation_json nodes))).
  { unfold nav_entries, read_document.
    cbn [topic_navigation knowledge_search other_queries]. rewrite Et, Ek, Eo.
    destruct (decide (query_kind m = lit "topic_nav")) as [E1|E1].
    { apply elem_of_app. left. apply list_elem_of_fmap_2, list_elem_of_fmap_2.
      by apply list_elem_of_filter. }
    destruct (decide (query_kind m = lit "kb_search")) as [E2|E2].
    { apply elem_of_app. right. apply elem_of_app. left.
      apply list_elem_of_fmap_2, list_elem_of_fmap_2. by apply list_elem_of_filter. }
    destruct Hio as [->|Hk].
    - apply elem_of_app. right. apply elem_of_app. right.
      apply list_elem_of_fmap_2, list_elem_of_fmap_2. apply list_elem_of_filter.
      split; [|done]. rewrite !not_elem_of_cons. split; [done|]. split; [done|].
      apply not_elem_of_nil.
    - exfalso. rewrite Ekind in Hk.
      apply elem_of_cons in Hk as [?|Hk]; [done|].
      apply elem_of_cons in Hk as [?|Hk]; [done|]. by apply not_elem_of_nil in Hk. }
  destruct Hnav as [_ Hne].
  destruct (build_navigation_candidates_covers _ _ _ Hentry) as (item & Hitem & _ & Hkind & Hkey).
  { cbn [read_entry nav_query_exec_title entry_of ne_query_exec_title].
    rewrite strip_idem, <- Eexec. done. }
  exists item. split; [done|]. split.
  - rewrite Hkind. unfold kind_or_unknown, read_entry, entry_of.
    cbn [nav_query_kind ne_query_kind]. by rewrite Ekind.
  - rewrite Hkey. unfold nav_exec_key, read_entry, entry_of.
    cbn [nav_query_exec_title ne_query_exec_title]. by rewrite strip_idem, Eexec.
Qed.

End NavigationPipeline.

Section NavigationPipelineExamples.
Import Parser Navigation Graph Explore Concrete.
#[local] Existing Instance ascii_lib.

Lemma navigation_document_candidates_witness :
  exists item,
    item ∈ build_navigation_candidates
             (read_document (write_navigation_json (Index.nodes echo_db)))
             (lit "topic_first") false
    /\ kind_or_unknown item = lit "kb_search"
    /\ nav_exec_key item = lit "alpha two".
Proof.
  destruct (navigation_document_candidates (Index.nodes echo_db)
              (query_row "q2" "alpha two" "alpha" "alpha two") false)
    as (item & Hitem & Hkind & Hkey).
  - vm_compute. right. by left.
  - split; [reflexivity|]. vm_compute. discriminate.
  - right. vm_compute. right. by left.
  - exists item. split; [exact Hitem|]. split; [exact Hkind|exact Hkey].
Defined.

End NavigationPipelineExamples.

(** ** Links of a search result *)
Section LinkUrls.
Import Parser Links.

Lemma link_urls_spec (cap : nat) (hits : list (str * str)) : forall seen urls,
  (length urls < cap)%nat -> NoDup urls -> (forall u, u ∈ seen <-> u ∈ urls) ->
  let cands := filter (fun u => u <> [])
                 ((fun h => strip h.2) <$> filter (fun h => h.1 = lit "link") hits) in
  let result := link_urls cap seen urls hits in
  (length result <= cap)%nat
  /\ NoDup result
  /\ (exists more, result = urls ++ more /\ more `sublist_of` cands)
  /\ ((length result < cap)%nat -> forall u, u ∈ cands -> u ∈ result).
Proof.
  induction hits as [|[ty u] rest IH]; intros seen urls Hlen Hnd Hseen; cbn zeta.
  { simpl. split; [lia|]. split; [done|]. split; [|intros _ u Hu; by apply not_elem_of_nil in Hu].
    exists []. by rewrite app_nil_r. }
  cbn [link_urls]. rewrite filter_cons. cbn [fst].
  case_bool_decide as Ety.
  { rewrite decide_False by done. by apply IH. }
  rewrite decide_True by (destruct (decide (ty = lit "link")); [done|by destruct Ety]).
  rewrite fmap_cons, filter_cons. cbn [snd].
  destruct (is_empty (strip u)) eqn:Ee.
  { apply is_empty_true in Ee. rewrite decide_False by (intros Hn; by apply Hn).
    cbn [orb]. by apply IH. }
  apply is_empty_false in Ee. rewrite decide_True by done. cbn [orb].
  case_bool_decide as Es.
  { destruct (IH seen urls Hlen Hnd Hseen) as (Hl & Hn & (more & Em & Hs) & Hc).
    split; [done|]. split; [done|]. split.
    - exists more. split; [done|]. by apply sublist_cons.
    - intros Hlt v [->|Hv]%elem_of_cons; [|by apply Hc].
      rewrite Em. apply elem_of_app. left. by apply Hseen. }
  assert (Hnd' : NoDup (urls ++ [strip u])).
  { apply NoDup_app. split; [done|]. split; [|apply NoDup_singleton].
    intros v Hv ->%list_elem_of_singleton. apply Es. by apply Hseen. }
  destruct (cap <=? length (urls ++ [strip u]))%nat eqn:Ec.
  { apply Nat.leb_le in Ec. rewrite length_app in *. simpl in *.
    split; [lia|]. split; [done|]. split; [|lia].
    exists [strip u]. split; [done|]. apply sublist_skip, sublist_nil_l. }
  apply Nat.leb_gt in Ec.
  destruct (IH ({[strip u]} ∪ seen) (urls ++ [strip u]) Ec Hnd')
    as (Hl & Hn & (more & Em & Hs) & Hc).
  { intros v. rewrite elem_of_union, elem_of_singleton, elem_of_app,
      list_elem_of_singleton, Hseen. tauto. }
  split; [done|]. split; [done|]. split.
  - exists (strip u :: more). split; [by rewrite Em, <- app_assoc|].
    by apply sublist_skip.
  - intros Hlt v [->|Hv]%elem_of_cons; [|by apply Hc].
    rewrite Em. apply elem_of_app. left. apply elem_of_app. right. by left.
Qed.

(** X23: [extract_link_urls_from_hits_payload] returns distinct URLs, at
    most [max(1, limit)] of them, in the order of the hits: a sublist of
    the stripped, non-empty URLs of the hits of type ["link"].  When it
    returns fewer than [max(1, limit)] URLs, it returns every such URL.  A
    payload that is neither a list nor a dictionary, or a dictionary whose
    ["hits"] is not a list, has no URL. *)
Theorem extract_link_urls_spec (payload : result_payload) (limit : Z) :
  let urls := extract_link_urls_from_hits_payload payload limit in
  (Z.of_nat (length urls) <= Z.max 1 limit)%Z
  /\ NoDup urls
  /\ urls `sublist_of` link_hit_urls payload
  /\ Forall (fun u => u <> [] /\ strip u = u) urls
  /\ ((Z.of_nat (length urls) < Z.max 1 limit)%Z ->
      forall u, u ∈ link_hit_urls payload -> u ∈ urls)
  /\ extract_link_urls_from_hits_payload ResultOther limit = []
  /\ extract_link_urls_from_hits_payload (ResultDict None) limit = [].
Proof.
  intros urls. unfold urls, extract_link_urls_from_hits_payload, link_hit_urls.
  destruct (link_urls_spec (Z.to_nat (Z.max 1 limit))
              (_extract_hits_from_result_payload payload) ∅ [])
    as (Hl & Hn & (more & Em & Hs) & Hc); [simpl; lia|constructor| |].
  { intros u. split; [intros Hu; by apply not_elem_of_empty in Hu|
                      intros Hu; by apply not_elem_of_nil in Hu]. }
  cbn zeta in *. simpl in Em. subst more.
  split; [lia|]. split; [done|]. split; [done|]. split; [|split; [|done]].
  - apply Forall_forall. intros u Hu. apply (elem_of_sublist _ _ _ Hu) in Hs as Hu'.
    clear Hu. rename Hu' into Hu.
    apply list_elem_of_filter in Hu as [Hne Hu]. split; [done|].
    apply list_elem_of_fmap in Hu as (h & -> & _). apply strip_idem.
  - intros Hlt. apply Hc. lia.
Qed.

Example extract_link_urls_test :
  extract_link_urls_from_hits_payload
    (ResultDict (Some [HitDict (lit "link") (lit "https://a.example.com/x#frag");
                       HitDict (lit "query") [];
                       HitDict (lit "link") (lit "https://a.example.com/x#frag");
                       HitDict (lit "link") (lit "https://b.example.com/y")])) 5
  = [lit "https://a.example.com/x#frag"; lit "https://b.example.com/y"].
Proof. vm_compute. reflexivity. Qed.

Lemma extract_link_urls_spec_witness :
  lit "https://b.example.com/y"
  ∈ extract_link_urls_from_hits_payload
      (ResultList [HitDict (lit "link") (lit "https://a.example.com/x");
                   HitOther;
                   HitDict (lit "link") (lit " https://b.example.com/y ")]) 5.
Proof.
  destruct (extract_link_urls_spec
              (ResultList [HitDict (lit "link") (lit "https://a.example.com/x");
                           HitOther;
                           HitDict (lit "link") (lit " https://b.example.com/y ")]) 5)
    as (_ & _ & _ & _ & Hall & _).
  apply Hall.
  - vm_compute. reflexivity.
  - vm_compute. right. by left.
Defined.

End LinkUrls.

Section OpenUrl.
Import Parser Links.

Lemma split_once_spec c (s : str) :
  match split_once c s with
  | None => c ∉ s
  | Some (before, after) => s = before ++ c :: after /\ c ∉ before
  end.
Proof.
  induction s as [|d r IH]; simpl; [apply not_elem_of_nil|].
  destruct (c =? d) eqn:Ec.
  - apply N.eqb_eq in Ec as ->. split; [done|apply not_elem_of_nil].
  - apply N.eqb_neq in Ec. destruct (split_once c r) as [[a b]|]; simpl.
    + destruct IH as [-> Ha]. split; [done|]. by apply not_elem_of_cons.
    + by apply not_elem_of_cons.
Qed.

Lemma split_url_no_fragment (text : str) :
  (35 ∉ (_split_url_and_anchor text).1)
  /\ strip (_split_url_and_anchor text).1 = (_split_url_and_anchor text).1.
Proof.
  unfold _split_url_and_anchor. pose proof (split_once_spec 35 (strip text)) as Hs.
  destruct (split_once 35 (strip text)) as [[u a]|]; cbn [fst].
  - destruct Hs as [_ Hu]. split; [|apply strip_idem].
    intros Hin%strip_subseteq. done.
  - split; [done|apply strip_idem].
Qed.

(** X24: with [strip_fragment], [_normalize_open_url] gives the URL part
    [_split_url_and_anchor] gives: the text before the first ["#"],
    stripped, so a URL without ["#"] and without whitespace around it.
    Without [strip_fragment] it gives the stripped text.  Either way,
    normalising the result again changes nothing, and the URL the parser
    stored for a link is left as it is. *)
Theorem normalize_open_url_spec (url : str) (strip_fragment : bool) :
  _normalize_open_url url true = (_split_url_and_anchor url).1
  /\ (35 ∉ _normalize_open_url url true)
  /\ _normalize_open_url url false = strip url
  /\ strip (_normalize_open_url url strip_fragment) = _normalize_open_url url strip_fragment
  /\ _normalize_open_url (_normalize_open_url url strip_fragment) strip_fragment
     = _normalize_open_url url strip_fragment
  /\ _normalize_open_url (_split_url_and_anchor url).1 strip_fragment
     = (_split_url_and_anchor url).1.
Proof.
  assert (Heq : _normalize_open_url url true = (_split_url_and_anchor url).1).
  { unfold _normalize_open_url, _split_url_and_anchor. cbn [andb].
    pose proof (split_once_spec 35 (strip url)) as Hs.
    destruct (split_once 35 (strip url)) as [[u a]|]; cbn [fst].
    - destruct Hs as [E _]. assert (has_char 35 (strip url) = true) as ->; [|done].
      apply not_false_iff_true. rewrite has_char_false. intros Hn. apply Hn.
      rewrite E. apply elem_of_app. right. by left.
    - by destruct (has_char 35 (strip url)). }
  assert (Hfix : forall r b, (35 ∉ r) -> strip r = r -> _normalize_open_url r b = r).
  { intros r b Hn Hs. unfold _normalize_open_url. rewrite Hs.
    apply has_char_false in Hn. rewrite Hn, andb_false_r. done. }
  assert (Hplain : forall r, strip r = r -> _normalize_open_url r false = r).
  { intros r Hs. unfold _normalize_open_url. by rewrite Hs. }
  destruct (split_url_no_fragment url) as [Hno Hst].
  split; [done|]. split; [by rewrite Heq|]. split; [done|]. split; [|split].
  - destruct strip_fragment; [by rewrite Heq|apply strip_idem].
  - destruct strip_fragment.
    + rewrite Heq. by apply Hfix.
    + apply Hplain. apply strip_idem.
  - by apply Hfix.
Qed.

End OpenUrl.

(** ** The query file of the benchmark *)
Section BenchFacts.
Import Bench.

Lemma strip_cons_nonempty c (s : str) : is_space c = false -> strip (c :: s) <> [].
Proof.
  intros Hc. unfold strip, lstrip, rstrip. simpl. rewrite Hc. simpl.
  destruct (rstrip_with is_space s); [by rewrite Hc|done].
Qed.

Lemma split_once_at_spec (sep s : str) :
  match split_once_at sep s with
  | Some (before, after) => s = before ++ sep ++ after
  | None => True
  end.
Proof.
  induction s as [|c r IH].
  - simpl. destruct (startswith sep []) eqn:E; [|done].
    apply startswith_prefix in E as [k Ek]. rewrite Ek at 1.
    simpl. f_equal. rewrite Ek. by rewrite drop_app_length.
  - cbn [split_once_at]. destruct (startswith sep (c :: r)) eqn:E.
    + apply startswith_prefix in E as [k Ek]. rewrite Ek.
      simpl. by rewrite drop_app_length.
    + destruct (split_once_at sep r) as [[a b]|]; [|done]. simpl. by rewrite IH at 1.
Qed.

Lemma parse_query_line_item (line : str) :
  query_line line -> query_item (parse_query_line line).
Proof.
  intros [Hne Hc]. unfold parse_query_line.
  apply is_empty_false in Hne as Hne'. rewrite Hne', Hc. cbn [orb].
  pose proof (strip_head line) as Hh. pose proof (strip_idem line) as Hi.
  set (text := strip line) in *.
  destruct (has_char 9 text) eqn:Et.
  { pose proof (split_once_spec 9 text) as Hs.
    destruct (split_once 9 text) as [[l r]|].
    - destruct Hs as [E Hl]. unfold query_item. cbn [fst snd].
      split; [|split; [apply strip_idem|split; [|apply strip_idem]]].
      + destruct l as [|c l]; [by rewrite E in Hh|].
        rewrite E in Hh. by apply strip_cons_nonempty.
      + intros Hin. by apply Hl, strip_subseteq.
    - by apply has_char_false in Hs; rewrite Hs in Et. }
  apply has_char_false in Et.
  destruct (contains (lit " | ") text) eqn:Ep.
  { pose proof (split_once_at_spec (lit " | ") text) as Hs.
    destruct (split_once_at (lit " | ") text) as [[l r]|].
    - unfold query_item. cbn [fst snd].
      split; [|split; [apply strip_idem|split; [|apply strip_idem]]].
      + destruct l as [|c l]; [by rewrite Hs in Hh|].
        rewrite Hs in Hh. by apply strip_cons_nonempty.
      + intros Hin. apply Et. rewrite Hs. apply elem_of_app. left.
        by apply strip_subseteq.
    - unfold query_item. cbn [fst snd]. by repeat split. }
  unfold query_item. cbn [fst snd]. by repeat split.
Qed.

Lemma parse_query_line_skipped (line : str) :
  ~ query_line line -> parse_query_line line = ([], []).
Proof.
  intros Hn. unfold parse_query_line.
  destruct (is_empty (strip line)) eqn:Ee; [done|].
  destruct (startswith (lit "#") (strip line)) eqn:Ec; [done|].
  exfalso. apply Hn. split; [by apply is_empty_false|done].
Qed.

Lemma query_items_spec (lines : list str) :
  query_items lines = parse_query_line <$> filter query_line lines.
Proof.
  induction lines as [|raw rest IH]; [done|].
  cbn [query_items]. rewrite filter_cons.
  destruct (decide (query_line raw)) as [Hq|Hq].
  - pose proof (parse_query_line_item raw Hq) as (Hne & _).
    destruct (parse_query_line raw) as [a q] eqn:E. cbn [fst] in Hne.
    apply is_empty_false in Hne. rewrite Hne, fmap_cons, E. by rewrite IH.
  - rewrite (parse_query_line_skipped raw Hq). simpl. exact IH.
Qed.

(** X25: the queries [load_queries] reads from the text of a query file
    are those of its lines that are neither blank nor a comment, one for
    each such line and in the order of the lines.  Each has an input that
    is not empty, has no surrounding whitespace and contains no tab, and a
    query without surrounding whitespace. *)
Theorem load_queries_spec (content : str) :
  load_queries content = parse_query_line <$> filter query_line (splitlines content)
  /\ Forall query_item (load_queries content)
  /\ length (load_queries content) = length (filter query_line (splitlines content)).
Proof.
  unfold load_queries. rewrite query_items_spec.
  split; [done|]. split; [|by rewrite length_fmap].
  apply Forall_fmap, Forall_forall. intros l [Hl _]%list_elem_of_filter.
  by apply parse_query_line_item.
Qed.

Lemma split_once_first c (a b : str) : c ∉ a -> split_once c (a ++ c :: b) = Some (a, b).
Proof.
  induction a as [|d a IH]; intros Hc; simpl.
  - by rewrite N.eqb_refl.
  - apply not_elem_of_cons in Hc as [Hd Ha].
    apply N.eqb_neq in Hd. rewrite Hd, (IH Ha). done.
Qed.

Lemma split_once_at_pipe (a b : str) :
  124 ∉ a -> split_once_at (lit " | ") (a ++ lit " | " ++ b) = Some (a, b).
Proof.
  induction a as [|d a IH]; intros Hp; [done|].
  apply not_elem_of_cons in Hp as [Hd Ha].
  assert (E : startswith (lit " | ") ((d :: a) ++ lit " | " ++ b) = false).
  { change (lit " | ") with [32; 124; 32]. cbn [startswith app].
    destruct (32 =? d) eqn:E32; [|done].
    destruct a as [|e a]; [done|].
    apply not_elem_of_cons in Ha as [He _].
    cbn [app startswith]. apply N.eqb_neq in He. by rewrite He. }
  change ((d :: a) ++ lit " | " ++ b) with (d :: (a ++ lit " | " ++ b)) in *.
  cbn [split_once_at]. rewrite E, (IH Ha). done.
Qed.

Lemma strip_join (a m q : str) :
  a <> [] -> strip a = a -> q <> [] -> strip q = q -> strip (a ++ m ++ q) = a ++ m ++ q.
Proof.
  intros Ha Ea Hq Eq. pose proof (strip_head a) as Hh. rewrite Ea in Hh.
  destruct a as [|c a]; [done|].
  change ((c :: a) ++ m ++ q) with (c :: a ++ m ++ q). rewrite app_assoc.
  by apply strip_app_fixed.
Qed.

(** X26: a line made of an input, a tab and a query is read back as that
    input and that query by [parse_query_line], when the input is not
    empty, is no comment and contains no tab, the query is not empty, and
    neither has surrounding whitespace.  The same holds with the
    separator [" | "] in the place of the tab when, in addition, the
    input contains no ["|"] and the query no tab. *)
Theorem parse_query_line_roundtrip (xlb_input retrieval_query : str) :
  query_item (xlb_input, retrieval_query) ->
  startswith (lit "#") xlb_input = false ->
  retrieval_query <> [] ->
  parse_query_line (xlb_input ++ 9 :: retrieval_query) = (xlb_input, retrieval_query)
  /\ ((124 ∉ xlb_input) -> (9 ∉ retrieval_query) ->
      parse_query_line (xlb_input ++ lit " | " ++ retrieval_query)
      = (xlb_input, retrieval_query)).
Proof.
  intros (Ha & Ea & Ht & Eq) Hc Hq. cbn [fst snd] in *.
  assert (Hstart : forall r, startswith (lit "#") (xlb_input ++ r) = false).
  { intros r. destruct xlb_input as [|c a]; [done|]. simpl in *.
    destruct (35 =? c); [done|done]. }
  split.
  - unfold parse_query_line.
    change (xlb_input ++ 9 :: retrieval_query)
      with (xlb_input ++ [9] ++ retrieval_query).
    rewrite (strip_join xlb_input [9] retrieval_query) by done.
    rewrite Hstart.
    destruct (is_empty _) eqn:Ee.
    { apply is_empty_true in Ee. by destruct xlb_input. }
    cbn [orb].
    assert (Hh : has_char 9 (xlb_input ++ [9] ++ retrieval_query) = true).
    { unfold has_char. rewrite existsb_app. simpl. by rewrite orb_true_r. }
    rewrite Hh. change (xlb_input ++ [9] ++ retrieval_query)
      with (xlb_input ++ 9 :: retrieval_query).
    rewrite split_once_first by done. by rewrite Ea, Eq.
  - intros Hp Htq. unfold parse_query_line.
    rewrite (strip_join xlb_input (lit " | ") retrieval_query) by done.
    rewrite Hstart.
    destruct (is_empty _) eqn:Ee.
    { apply is_empty_true in Ee. by destruct xlb_input. }
    cbn [orb].
    assert (Hh : has_char 9 (xlb_input ++ lit " | " ++ retrieval_query) = false).
    { apply has_char_false. intros [?|[Hin|?]%elem_of_app]%elem_of_app; [done| |done].
      revert Hin. change (lit " | ") with [32; 124; 32].
      intros [?|[?|[?|Hn]%elem_of_cons]%elem_of_cons]%elem_of_cons; try done.
      by apply not_elem_of_nil in Hn. }
    rewrite Hh.
    assert (Hcn : contains (lit " | ") (xlb_input ++ lit " | " ++ retrieval_query) = true).
    { apply contains_spec. by exists xlb_input, retrieval_query. }
    rewrite Hcn, split_once_at_pipe by done. by rewrite Ea, Eq.
Qed.

End BenchFacts.

Section BenchExamples.
Import Bench.

Lemma parse_query_line_roundtrip_witness :
  parse_query_line (lit "xlb >vibe coding/" ++ 9 :: lit "agent loop")
  = (lit "xlb >vibe coding/", lit "agent loop")
  /\ parse_query_line (lit "xlb >vibe coding/" ++ lit " | " ++ lit "agent loop")
     = (lit "xlb >vibe coding/", lit "agent loop").
Proof.
  destruct (parse_query_line_roundtrip (lit "xlb >vibe coding/") (lit "agent loop"))
    as [Htab Hpipe].
  - split; [discriminate|]. split; [reflexivity|]. split; [|reflexivity].
    apply has_char_false. reflexivity.
  - reflexivity.
  - discriminate.
  - split; [exact Htab|]. apply Hpipe; apply has_char_false; reflexivity.
Defined.

End BenchExamples.

(** ** Opening URLs in a local application *)
Section OpeningFacts.
Import Parser Links Opening.
Context {World : Type}.
Variable run_open_actions : World -> str -> str -> str -> bool * World.
Variable sleep : World -> Q -> World.

Lemma unique_urls_spec (urls : list str) : forall seen,
  NoDup (unique_urls seen urls)
  /\ unique_urls seen urls `sublist_of` (strip <$> urls)
  /\ forall u, u ∈ unique_urls seen urls
       <-> (u ∉ seen) /\ u <> [] /\ exists x, x ∈ urls /\ strip x = u.
Proof.
  induction urls as [|x rest IH]; intros seen; cbn [unique_urls].
  { split; [constructor|]. split; [done|]. intros u. split.
    - intros Hu. by apply not_elem_of_nil in Hu.
    - intros (_ & _ & y & Hy & _). by apply not_elem_of_nil in Hy. }
  rewrite fmap_cons.
  destruct (is_empty (strip x)) eqn:Ee.
  { cbn [orb]. destruct (IH seen) as (Hnd & Hs & Hin).
    split; [done|]. split; [by apply sublist_cons|]. intros u. rewrite Hin.
    apply is_empty_true in Ee. split.
    - intros (? & ? & y & Hy & Ey). split; [done|]. split; [done|].
      exists y. split; [by right|done].
    - intros (? & Hne & y & [->|Hy]%elem_of_cons & Ey).
      + by rewrite Ee in Ey.
      + split; [done|]. split; [done|]. by exists y. }
  cbn [orb]. apply is_empty_false in Ee. case_bool_decide as Es.
  { destruct (IH seen) as (Hnd & Hs & Hin).
    split; [done|]. split; [by apply sublist_cons|]. intros u. rewrite Hin. split.
    - intros (? & ? & y & Hy & Ey). split; [done|]. split; [done|].
      exists y. split; [by right|done].
    - intros (Hu & Hne & y & [->|Hy]%elem_of_cons & Ey).
      + by rewrite Ey in Es.
      + split; [done|]. split; [done|]. by exists y. }
  destruct (IH ({[strip x]} ∪ seen)) as (Hnd & Hs & Hin).
  split; [|split].
  - apply NoDup_cons. split; [|done]. rewrite Hin. intros (Hn & _).
    apply Hn, elem_of_union. left. by apply elem_of_singleton.
  - by apply sublist_skip.
  - intros u. rewrite elem_of_cons, Hin. split.
    + intros [->|(Hn & Hne & y & Hy & Ey)].
      * split; [done|]. split; [done|]. exists x. split; [by left|done].
      * split; [intros ?; apply Hn, elem_of_union; by right|].
        split; [done|]. exists y. split; [by right|done].
    + intros (Hu & Hne & y & [->|Hy]%elem_of_cons & Ey); [by left|].
      destruct (decide (u = strip x)) as [->|Hd]; [by left|]. right.
      split; [|split; [done|by exists y]].
      intros [Hx%elem_of_singleton|?]%elem_of_union; done.
Qed.

Lemma unique_urls_fixed (urls : list str) : forall seen,
  NoDup urls -> Forall (fun u => u <> [] /\ strip u = u) urls ->
  (forall u, u ∈ urls -> u ∉ seen) ->
  unique_urls seen urls = urls.
Proof.
  induction urls as [|x rest IH]; intros seen Hnd Hall Hseen; [done|].
  apply NoDup_cons in Hnd as [Hx Hnd]. apply Forall_cons in Hall as [[Hne Es] Hall].
  cbn [unique_urls]. rewrite Es.
  apply is_empty_false in Hne. rewrite Hne. cbn [orb].
  rewrite bool_decide_eq_false_2 by (apply Hseen; by left).
  f_equal. apply IH; [done|done|].
  intros u Hu [->%elem_of_singleton|Hin]%elem_of_union; [done|].
  apply (Hseen u); [by right|done].
Qed.

Lemma status_counts (results : list (str * open_status)) :
  (length (filter (fun r => r.2 = Opened \/ r.2 = DryRun) results)
   + length (filter (fun r => r.2 = OpenError) results) = length results)%nat.
Proof.
  induction results as [|[u st] rest IH]; [done|].
  rewrite !filter_cons. cbn [snd].
  destruct st.
  - rewrite decide_True by (by left). rewrite decide_False by done. simpl. lia.
  - rewrite decide_True by (by right). rewrite decide_False by done. simpl. lia.
  - rewrite decide_False by (by intros [?|?]). rewrite decide_True by done. simpl. lia.
Qed.

Lemma stops_at_error_tail r (results : list (str * open_status)) :
  stops_at_error (r :: results) -> stops_at_error results.
Proof.
  intros Hs before x after E Hne. apply (Hs (r :: before) x after); [by rewrite E|done].
Qed.

Lemma stops_at_error_count (results : list (str * open_status)) :
  stops_at_error results ->
  (length (filter (fun r => r.2 = OpenError) results) <= 1)%nat.
Proof.
  induction results as [|r rest IH]; intros Hs; [simpl; lia|].
  destruct rest as [|r' rest].
  { rewrite filter_cons. destruct (decide _); simpl; lia. }
  rewrite filter_cons, decide_False.
  - apply IH. by apply stops_at_error_tail in Hs.
  - by apply (Hs [] r (r' :: rest)).
Qed.

Lemma open_each_spec (uniq : list str) (app : str) (strip_fragment dry_run : bool)
    (atlas_app_path : str) (delay_between_sec : Q) (stop_on_error : bool) :
  forall w,
  let results := (open_each run_open_actions sleep w uniq app strip_fragment dry_run
                    atlas_app_path delay_between_sec stop_on_error).1 in
  (fst <$> results) `prefix_of` uniq
  /\ (if stop_on_error
      then stops_at_error results
           /\ (filter (fun r => r.2 = OpenError) results = [] -> fst <$> results = uniq)
      else fst <$> results = uniq)
  /\ (if dry_run then Forall (fun r => r.2 = dry_status strip_fragment r.1) results
      else True).
Proof.
  induction uniq as [|u rest IH]; intros w; cbn zeta.
  { simpl. split; [done|]. split; [|by destruct dry_run].
    destruct stop_on_error; [|done]. split; [|done].
    intros before r after E. by destruct before. }
  cbn [open_each].
  destruct (open_url_in_local_app run_open_actions w u app strip_fragment dry_run
              atlas_app_path) as [status w1] eqn:Eo.
  assert (Hdry : dry_run = true -> status = dry_status strip_fragment u).
  { intros ->. unfold open_url_in_local_app in Eo. unfold dry_status.
    destruct (is_empty _); by injection Eo as <- _. }
  destruct (is_error status && stop_on_error) eqn:Es.
  { apply andb_true_iff in Es as [Ee ->]. cbn [fst fmap list_fmap].
    split; [by apply prefix_cons, prefix_nil|]. split.
    - split.
      + intros before r after E Hne. destruct before as [|? before]; simpl in E.
        * injection E as _ <-. done.
        * injection E as _ E. by destruct before.
      + rewrite filter_cons. unfold is_error in Ee. apply bool_decide_eq_true in Ee.
        cbn [snd]. by rewrite decide_True.
    - destruct dry_run; [|done]. apply Forall_singleton. by apply Hdry. }
  set (w2 := if (0 <? length rest)%nat && Qltb 0 delay_between_sec
            then sleep w1 delay_between_sec else w1).
  specialize (IH w2). cbn zeta in IH.
  destruct (open_each run_open_actions sleep w2 rest app strip_fragment dry_run
              atlas_app_path delay_between_sec stop_on_error) as [results w3].
  cbn [fst] in *. destruct IH as (Hp & Hstop & Hd). rewrite fmap_cons. cbn [fst].
  split; [by apply prefix_cons|]. split.
  - destruct stop_on_error.
    + rewrite andb_true_r in Es. unfold is_error in Es.
      apply bool_decide_eq_false in Es. destruct Hstop as [Hs Hall]. split.
      * intros before r after E Hne. destruct before as [|? before]; simpl in E.
        -- by injection E as <- _.
        -- injection E as _ E. by apply (Hs before r after).
      * rewrite filter_cons. cbn [snd]. rewrite decide_False by done.
        intros Ef. by rewrite Hall.
    + by rewrite Hstop.
  - destruct dry_run; [|done]. apply Forall_cons. split; [|done]. by apply Hdry.
Qed.

(** X27: [open_urls_in_local_app] tries each URL at most once: the URLs it
    counts are the stripped URLs that are not empty, the first occurrence
    of each in the order given, and the results are those of a prefix of
    them, each either opened (or dry-run) or an error.  Without
    [stop_on_error] every counted URL has a result.  With it no result
    follows an error, so there is at most one error, and every counted URL
    has a result when there is none.  On a dry run the status of a result
    is an error for a URL whose normalised form is empty and ["dry_run"]
    for any other, whatever the system does. *)
Theorem open_urls_in_local_app_spec (w : World) (urls : list str) (app : str)
    (strip_fragment dry_run : bool) (atlas_app_path : str)
    (delay_between_sec : Q) (stop_on_error : bool) :
  let uniq := unique_urls ∅ urls in
  let report := (open_urls_in_local_app run_open_actions sleep w urls app
                   strip_fragment dry_run atlas_app_path delay_between_sec
                   stop_on_error).1 in
  NoDup uniq
  /\ uniq `sublist_of` (strip <$> urls)
  /\ (forall u, u ∈ uniq <-> u <> [] /\ exists x, x ∈ urls /\ strip x = u)
  /\ o_count report = length uniq
  /\ (fst <$> o_results report) `prefix_of` uniq
  /\ (o_opened report + o_errors report = length (o_results report))%nat
  /\ (if stop_on_error
      then stops_at_error (o_results report)
           /\ (o_errors report <= 1)%nat
           /\ (o_errors report = 0%nat -> fst <$> o_results report = uniq)
      else fst <$> o_results report = uniq)
  /\ (if dry_run
      then Forall (fun r => r.2 = dry_status strip_fragment r.1) (o_results report)
      else True).
Proof.
  intros uniq report. unfold report, open_urls_in_local_app. fold uniq.
  destruct (unique_urls_spec urls ∅) as (Hnd & Hsub & Hin). fold uniq in Hnd, Hsub, Hin.
  pose proof (open_each_spec uniq app strip_fragment dry_run atlas_app_path
                delay_between_sec stop_on_error w) as Hspec.
  cbn zeta in Hspec.
  destruct (open_each run_open_actions sleep w uniq app strip_fragment dry_run
              atlas_app_path delay_between_sec stop_on_error) as [results w'].
  cbn [fst o_count o_opened o_errors o_results] in *.
  destruct Hspec as (Hp & Hstop & Hdry).
  split; [done|]. split; [done|]. split.
  { intros u. rewrite Hin. split.
    - intros (_ & ? & ?). done.
    - intros (? & ?). split; [apply not_elem_of_empty|done]. }
  split; [done|]. split; [done|]. split; [apply status_counts|]. split; [|done].
  destruct stop_on_error; [|done]. destruct Hstop as [Hs Hall].
  split; [done|]. split; [by apply stops_at_error_count|].
  intros E0. apply Hall. by apply nil_length_inv.
Qed.

Lemma extract_link_urls_clean (payload : result_payload) (limit : Z) :
  let urls := extract_link_urls_from_hits_payload payload limit in
  (Z.of_nat (length urls) <= Z.max 1 limit)%Z
  /\ NoDup urls
  /\ Forall (fun u => u <> [] /\ strip u = u) urls.
Proof.
  intros urls. unfold urls, extract_link_urls_from_hits_payload.
  destruct (link_urls_spec (Z.to_nat (Z.max 1 limit))
              (_extract_hits_from_result_payload payload) ∅ [])
    as (Hl & Hn & (more & Em & Hs) & _); [simpl; lia|constructor| |].
  { intros u. split; [intros Hu; by apply not_elem_of_empty in Hu|
                      intros Hu; by apply not_elem_of_nil in Hu]. }
  cbn zeta in *. simpl in Em. subst more.
  split; [lia|]. split; [done|].
  apply Forall_forall. intros u Hu. apply (elem_of_sublist _ _ _ Hu) in Hs as Hu'.
  apply list_elem_of_filter in Hu' as [Hne Hu']. split; [done|].
  apply list_elem_of_fmap in Hu' as (h & -> & _). apply strip_idem.
Qed.

(** X28: [_cmd_open_hits] tries the link URLs
    [extract_link_urls_from_hits_payload] takes from the file of hits, at
    most [max(1, limit)] of them and none twice: the count of the report
    is their number and the results are those of a prefix of them.  The
    exit code is 0 when no result is an error and 1 otherwise. *)
Theorem cmd_open_hits_spec (w : World) (payload : result_payload) (limit : Z)
    (app : str) (keep_fragment dry_run : bool) (atlas_app_path : str)
    (delay_between_sec : Q) (stop_on_error : bool) :
  let urls := extract_link_urls_from_hits_payload payload (Z.max 1 limit) in
  let out := _cmd_open_hits run_open_actions sleep w payload limit app keep_fragment
               dry_run atlas_app_path delay_between_sec stop_on_error in
  let report := out.1.1 in
  let code := out.1.2 in
  o_count report = length urls
  /\ (Z.of_nat (o_count report) <= Z.max 1 limit)%Z
  /\ NoDup (fst <$> o_results report)
  /\ (fst <$> o_results report) `prefix_of` urls
  /\ (code = 0%Z <-> Forall (fun r => r.2 <> OpenError) (o_results report))
  /\ (code = 0%Z \/ code = 1%Z).
Proof.
  intros urls out report code. unfold code, report, out, _cmd_open_hits. fold urls.
  destruct (extract_link_urls_clean payload (Z.max 1 limit)) as (Hlen & Hnd & Hall).
  fold urls in Hlen, Hnd, Hall.
  assert (Eu : unique_urls ∅ urls = urls).
  { apply unique_urls_fixed; [done|done|]. intros u _. apply not_elem_of_empty. }
  unfold open_urls_in_local_app. rewrite Eu.
  pose proof (open_each_spec urls app (negb keep_fragment) dry_run atlas_app_path
                delay_between_sec stop_on_error w) as Hspec.
  cbn zeta in Hspec.
  destruct (open_each run_open_actions sleep w urls app (negb keep_fragment) dry_run
              atlas_app_path delay_between_sec stop_on_error) as [results w'].
  cbn [fst snd o_count o_opened o_errors o_results] in *.
  destruct Hspec as (Hp & _ & _).
  split; [done|]. split; [lia|]. split.
  { destruct Hp as [k Ek]. rewrite Ek in Hnd. by apply NoDup_app in Hnd as [? _]. }
  split; [done|]. split.
  - destruct (length (filter _ results) =? 0)%nat eqn:E0.
    + apply Nat.eqb_eq, nil_length_inv in E0. split; [intros _|done].
      apply Forall_forall. intros r Hr He.
      assert (Hin : r ∈ filter (fun r => r.2 = OpenError) results)
        by (by apply list_elem_of_filter).
      rewrite E0 in Hin. by apply not_elem_of_nil in Hin.
    + apply Nat.eqb_neq in E0. split; [done|]. intros Hf. exfalso. apply E0.
      destruct (filter _ results) as [|r l] eqn:Ef; [done|].
      assert (Hin : r ∈ filter (fun r => r.2 = OpenError) results)
        by (rewrite Ef; by left).
      apply list_elem_of_filter in Hin as [He Hin].
      rewrite Forall_forall in Hf. by destruct (Hf r Hin).
  - destruct (_ =? _)%nat; [by left|by right].
Qed.

End OpeningFacts.

(** ** The edges of the graph index *)
Section EdgesFacts.
Context `{PyLib}.
Import Parser Graph Edges.

Lemma collect_rows_spec (filter_key db_path : str) (rows : list Node) :
  forall seen (edges : list (str * Node)),
  (forall k, k ∈ seen <-> k ∈ edge_keys edges) -> NoDup (edge_keys edges) ->
  let matching :=
    filter (fun row => filter_key = [] \/ contains filter_key (haystack row) = true) rows in
  let acc := collect_rows filter_key db_path rows (seen, edges) in
  (exists more, acc.2 = edges ++ more
                /\ more `sublist_of` ((fun row => (db_path, row)) <$> matching))
  /\ (forall k, k ∈ acc.1 <-> k ∈ edge_keys acc.2)
  /\ NoDup (edge_keys acc.2)
  /\ (forall row, row ∈ matching -> edge_key row ∈ edge_keys acc.2).
Proof.
  unfold edge_keys.
  induction rows as [|row rest IH]; intros seen edges Hseen Hnd; cbn zeta.
  { simpl. split; [exists []; by rewrite app_nil_r|]. split; [done|]. split; [done|].
    intros row Hr. by apply not_elem_of_nil in Hr. }
  cbn [collect_rows]. rewrite filter_cons.
  destruct (negb (is_empty filter_key) && negb (contains filter_key (haystack row)))
    eqn:Ef.
  { apply andb_true_iff in Ef as [Hne Hc].
    apply negb_true_iff in Hne, Hc. apply is_empty_false in Hne.
    rewrite decide_False by (intros [?|?]; [done|congruence]).
    by apply IH. }
  assert (Hm : filter_key = [] \/ contains filter_key (haystack row) = true).
  { apply andb_false_iff in Ef as [Hne|Hc].
    - left. apply negb_false_iff in Hne. by apply is_empty_true.
    - right. by apply negb_false_iff in Hc. }
  rewrite (decide_True _ _ Hm). rewrite fmap_cons.
  destruct (decide (edge_key row ∈ seen)) as [Hin|Hout].
  { destruct (IH seen edges Hseen Hnd) as ((more & Em & Hs) & Hk & Hn & Hc).
    split; [exists more; split; [done|by apply sublist_cons]|].
    split; [done|]. split; [done|].
    intros r [->|Hr]%elem_of_cons; [|by apply Hc].
    rewrite Em, fmap_app. apply elem_of_app. left. by apply Hseen. }
  destruct (IH ({[edge_key row]} ∪ seen) (edges ++ [(db_path, row)]))
    as ((more & Em & Hs) & Hk & Hn & Hc).
  { intros k. rewrite elem_of_union, elem_of_singleton, fmap_app, elem_of_app, Hseen.
    simpl. rewrite list_elem_of_singleton. tauto. }
  { rewrite fmap_app. apply NoDup_app. split; [done|]. split; [|apply NoDup_singleton].
    intros k Hk. simpl. rewrite list_elem_of_singleton. intros ->.
    by apply Hout, Hseen. }
  split.
  { exists ((db_path, row) :: more). split; [by rewrite Em, <- app_assoc|].
    by apply sublist_skip. }
  split; [done|]. split; [done|].
  intros r [->|Hr]%elem_of_cons; [|by apply Hc].
  rewrite Em, !fmap_app. apply elem_of_app. left. apply elem_of_app. right.
  simpl. by left.
Qed.

Lemma collect_databases_spec (filter_key : str) (dbs : list (str * database)) :
  forall seen (edges : list (str * Node)),
  (forall k, k ∈ seen <-> k ∈ edge_keys edges) -> NoDup (edge_keys edges) ->
  match collect_databases filter_key dbs (seen, edges) with
  | None => exists d, d ∈ dbs /\ d.2 = Broken
  | Some out =>
      Forall (fun d => d.2 <> Broken) dbs
      /\ (exists more, out = edges ++ more /\ more `sublist_of` offered filter_key dbs)
      /\ NoDup (edge_keys out)
      /\ (forall item, item ∈ offered filter_key dbs -> edge_key item.2 ∈ edge_keys out)
  end.
Proof.
  pose proof collect_rows_spec as Hrows. unfold edge_keys in *.
  induction dbs as [|[db_path db] rest IH]; intros seen edges Hseen Hnd.
  { simpl. split; [constructor|]. split; [exists []; by rewrite app_nil_r|].
    split; [done|]. intros item Hi. by apply not_elem_of_nil in Hi. }
  cbn [collect_databases]. unfold offered. rewrite bind_cons. fold (offered filter_key rest).
  cbn [fst snd].
  destruct db as [| | |rows].
  - specialize (IH seen edges Hseen Hnd).
    destruct (collect_databases filter_key rest (seen, edges)) as [out|].
    + destruct IH as (Hb & Hm & Hn & Hc). split; [by apply Forall_cons|]. done.
    + destruct IH as (d & Hd & Eb). exists d. split; [by right|done].
  - exists (db_path, Broken). split; [by left|done].
  - specialize (IH seen edges Hseen Hnd).
    destruct (collect_databases filter_key rest (seen, edges)) as [out|].
    + destruct IH as (Hb & Hm & Hn & Hc). split; [by apply Forall_cons|]. done.
    + destruct IH as (d & Hd & Eb). exists d. split; [by right|done].
  - destruct (Hrows filter_key db_path (selected rows) seen edges Hseen Hnd)
      as ((more1 & Em1 & Hs1) & Hk1 & Hn1 & Hc1).
    destruct (collect_rows filter_key db_path (selected rows) (seen, edges))
      as [seen1 edges1] eqn:E1.
    cbn [fst snd] in *. subst edges1.
    specialize (IH seen1 (edges ++ more1) Hk1 Hn1).
    destruct (collect_databases filter_key rest (seen1, edges ++ more1)) as [out|].
    + destruct IH as (Hb & (more & Em & Hs) & Hn & Hc).
      split; [by apply Forall_cons|]. split.
      { exists (more1 ++ more). split; [by rewrite Em, app_assoc|].
        by apply sublist_app. }
      split; [done|].
      intros item [Hi|Hi]%elem_of_app; [|by apply Hc].
      apply list_elem_of_fmap in Hi as (row & -> & Hr). cbn [snd].
      rewrite Em, fmap_app. apply elem_of_app. left. by apply Hc1.
    + destruct IH as (d & Hd & Eb). exists d. split; [by right|done].
Qed.

(** X29: [collect_query_edges_from_index_dir] raises exactly when a
    statement raises on one of the databases, and skips a database it
    cannot open or whose table lacks a required column.  Otherwise the
    edges are query rows with an exec title, taken in the order read from
    the databases that have the table and each with the path of its
    database; with a filter they are rows whose topic, section, title,
    command or exec title, joined by spaces and in lower case, contain the
    filter.  No two edges share topic, section, exec title, kind and
    source, and every such row has an edge that shares them with it.  A
    directory that does not exist has no edge.  [graph_neighbors] raises
    exactly when the collection does; its [edge_pool_size] is the number
    of edges collected, and its inbound and outbound edges are among
    them. *)
Theorem collect_query_edges_spec (dbs : list (str * database)) (query_filter : str)
    (target_title : str) (limit : Z) :
  match collect_query_edges_from_index_dir (Some dbs) query_filter with
  | None => exists d, d ∈ dbs /\ d.2 = Broken
  | Some edges =>
      Forall (fun d => d.2 <> Broken) dbs
      /\ edges `sublist_of` offered (lower (strip query_filter)) dbs
      /\ Forall (fun item => node_type item.2 = lit "query"
                             /\ query_exec_title item.2 <> []
                             /\ exists rows, (item.1, Indexed rows) ∈ dbs /\ item.2 ∈ rows)
           edges
      /\ NoDup (edge_keys edges)
      /\ (forall item, item ∈ offered (lower (strip query_filter)) dbs ->
            edge_key item.2 ∈ edge_keys edges)
  end
  /\ collect_query_edges_from_index_dir None query_filter = Some []
  /\ match graph_neighbors (Some dbs) target_title limit query_filter with
     | None => collect_query_edges_from_index_dir (Some dbs) query_filter = None
     | Some (found, edge_pool_size) =>
         exists edges,
           collect_query_edges_from_index_dir (Some dbs) query_filter = Some edges
           /\ edge_pool_size = length edges
           /\ forall e, e ∈ inbound_edges found ++ outbound_edges found ->
                e ∈ (edge_of <$> edges)
     end.
Proof.
  split; [|split; [done|]]; cycle 1.
  { unfold graph_neighbors.
    destruct (collect_query_edges_from_index_dir (Some dbs) query_filter) as [edges|];
      [|done].
    cbn [mbind option_bind]. exists edges. split; [done|]. split; [done|].
    unfold graph_neighbors_from_edges. cbn [inbound_edges outbound_edges].
    intros e [He|He]%elem_of_app;
      apply subseteq_take, elem_of_stable_sort, list_elem_of_filter in He; tauto. }
  unfold collect_query_edges_from_index_dir.
  pose proof collect_databases_spec as Hdbs. unfold edge_keys in *.
  pose proof (Hdbs (lower (strip query_filter)) dbs ∅ []) as Hspec.
  destruct (collect_databases (lower (strip query_filter)) dbs (∅, [])) as [edges|].
  - destruct Hspec as (Hb & (more & Em & Hs) & Hn & Hc); [|constructor|].
    { intros k. split; [intros Hk; by apply not_elem_of_empty in Hk|
                        intros Hk; by apply not_elem_of_nil in Hk]. }
    simpl in Em. subst more.
    split; [done|]. split; [done|]. split; [|done].
    apply Forall_forall. intros item Hi.
    apply (elem_of_sublist _ _ _ Hi) in Hs as Ho. unfold offered in Ho.
    apply list_elem_of_bind in Ho as ([p db] & Hitem & Hd). cbn [fst snd] in Hitem.
    destruct db as [| | |rows]; try (by apply not_elem_of_nil in Hitem).
    apply list_elem_of_fmap in Hitem as (row & -> & Hr).
    apply list_elem_of_filter in Hr as [_ Hr]. unfold selected in Hr.
    apply list_elem_of_filter in Hr as [[Hty Hex] Hr]. cbn [fst snd].
    split; [done|]. split; [done|]. by exists rows.
  - apply Hspec; [|constructor].
    intros k. split; [intros Hk; by apply not_elem_of_empty in Hk|
                      intros Hk; by apply not_elem_of_nil in Hk].
Qed.

End EdgesFacts.

(** ** The command [explore-next] *)
Section ExploreNextFacts.
Context `{PyLib}.
Import Graph Visited Explore ExploreNext.
Variable run_retrieve_for_explore :
  gmap str file -> str -> str -> str -> bool -> Z * gmap str file.

Lemma navigation_candidates_nonblank (nav : Nav) (strategy : str)
    (include_other_queries : bool) :
  Forall (fun c => strip (nav_query_exec_title c) <> [])
    (build_navigation_candidates nav strategy include_other_queries).
Proof.
  unfold build_navigation_candidates.
  match goal with |- Forall _ (dedup_nav ∅ ?l) =>
    destruct (dedup_nav_spec l ∅) as (_ & _ & Hall & _) end.
  eapply Forall_impl; [exact Hall|]. by intros c [? _].
Qed.

Lemma to_input_strip (t : str) :
  _to_input_from_exec_title (strip t) = _to_input_from_exec_title t.
Proof. unfold _to_input_from_exec_title. by rewrite strip_idem. Qed.

Lemma unvisited_offerable (pool : list NavItem) (visited : gset str) (c : NavItem) :
  c ∈ unvisited visited pool ->
  Forall (fun c => strip (nav_query_exec_title c) <> []) pool ->
  offerable pool visited c.
Proof.
  intros [Hk Hc]%list_elem_of_filter Hall. cbn zeta in Hk.
  rewrite Forall_forall in Hall. split; [done|]. split; [by apply Hall|].
  destruct (decide (_canonical_edge_key (nav_query_exec_title c) = [])) as [?|Hne];
    [by left|right].
  intros Hin. by apply Hk.
Qed.

(** X30: the command [explore-next] raises only on a metadata or
    navigation document of an unexpected kind, and reports an error with
    exit code 1, leaving the files as they are, when the metadata is
    missing or names no navigation file that exists.  Otherwise the
    candidates it lists, at most [max(1, max_candidates)] of them, are
    navigation candidates whose key is empty or not among the visited exec
    titles, each with an input that is an xlb command.  The candidate it
    selects is the one at the index [max(0, select_index)] among all the
    candidates not visited, its exec title stripped.  The exit code is 0
    exactly with the statuses ["no_candidate"], ["selected"] and
    ["executed"].  On a dry run nothing is executed and no file changes;
    the visited file is written only after a successful execution, and
    then holds the keys visited before and the key of the selected exec
    title. *)
Theorem cmd_explore_next_spec (disk : gmap str file) (meta : meta_document)
    (navigation : str -> navigation_file) (args : next_args) :
  let visited := load_visited_exec_titles disk (a_visited_file args) in
  match _cmd_explore_next run_retrieve_for_explore disk meta navigation args with
  | None =>
      meta = MetaOther
      \/ exists p, meta = MetaDict p /\ strip p <> [] /\ navigation (strip p) = NavOther
  | Some (NextError error, code, disk') =>
      code = 1%Z /\ disk' = disk
      /\ (meta = MetaEmpty
          \/ exists p, meta = MetaDict p
                       /\ (strip p = [] \/ navigation (strip p) = NavAbsent))
  | Some (NextResult r, code, disk') =>
      exists p nav,
        meta = MetaDict p /\ navigation (strip p) = NavPayload nav
        /\ let pool := build_navigation_candidates nav (a_strategy args)
                         (a_include_other_queries args) in
           let idx := Z.max 0 (a_select_index args) in
           (Z.of_nat (length (n_candidates r)) <= Z.max 1 (a_max_candidates args))%Z
           /\ (length (n_candidates r) <= n_candidate_count r)%nat
           /\ n_candidate_count r = length (unvisited visited pool)
           /\ Forall (fun c => offerable pool visited c.1 /\ is_xlb_command c.2 = true)
                (n_candidates r)
           /\ (code = 0%Z <-> succeeded (n_status r))
           /\ (code = 0%Z \/ code = 1%Z)
           /\ (n_status r = NoCandidate <-> n_candidate_count r = 0%nat)
           /\ match n_selected r with
              | Some (item, input) =>
                  exists c,
                    unvisited visited pool !! Z.to_nat idx = Some c
                    /\ offerable pool visited c
                    /\ item = mkNavItem (nav_title c) (nav_query_kind c)
                                (nav_query_source c) (nav_query_cmd c)
                                (strip (nav_query_exec_title c))
                    /\ input = _to_input_from_exec_title (nav_query_exec_title c)
                    /\ is_xlb_command input = true
                    /\ n_status r <> NoCandidate /\ n_status r <> InvalidSelectIndex
              | None =>
                  (n_status r = NoCandidate
                   \/ (n_status r = InvalidSelectIndex
                       /\ (Z.of_nat (n_candidate_count r) <= idx)%Z))
                  /\ disk' = disk
              end
           /\ (if a_dry_run args
               then disk' = disk /\ n_returncode r = None
                    /\ n_status r <> Executed /\ n_status r <> ExecuteFailed
               else True)
           /\ match n_visited_count r with
              | Some count =>
                  n_status r = Executed /\ a_update_visited args = true
                  /\ a_visited_file args <> []
                  /\ exists c key,
                       unvisited visited pool !! Z.to_nat idx = Some c
                       /\ key = _canonical_edge_key (strip (nav_query_exec_title c))
                       /\ key <> []
                       /\ count = size ({[key]} ∪ visited)
                       /\ disk' !! a_visited_file args
                          = Some (Visited.Parsed (visited_document (lit "visited_exec_titles")
                                            (elements ({[key]} ∪ visited))))
              | None => True
              end
  end.
Proof.
  intros visited. unfold _cmd_explore_next.
  destruct meta as [|p|]; [by repeat split; try left|..|by left].
  destruct (is_empty (strip p)) eqn:Ep.
  { apply is_empty_true in Ep. split; [done|]. split; [done|]. right. exists p.
    split; [done|]. by left. }
  apply is_empty_false in Ep.
  destruct (navigation (strip p)) as [|nav|] eqn:En.
  { split; [done|]. split; [done|]. right. exists p. split; [done|]. by right. }
  2:{ right. by exists p. }
  fold visited.
  set (pool := build_navigation_candidates nav (a_strategy args)
                 (a_include_other_queries args)).
  pose proof (navigation_candidates_nonblank nav (a_strategy args)
                (a_include_other_queries args)) as Hnb. fold pool in Hnb.
  assert (Hlisted : Forall (fun c => offerable pool visited c.1
                                     /\ is_xlb_command c.2 = true)
            (listed <$> take (Z.to_nat (Z.max 1 (a_max_candidates args)))
                          (unvisited visited pool))).
  { apply Forall_fmap, Forall_forall. intros c Hc. apply subseteq_take in Hc.
    apply unvisited_offerable in Hc as Ho; [|done]. cbn [listed fst snd compose].
    split; [done|]. destruct Ho as (_ & Hne & _).
    rewrite <- to_input_strip. by apply to_input_command; [|apply strip_idem]. }
  assert (Hlen : (Z.of_nat (length (listed <$> take (Z.to_nat (Z.max 1 (a_max_candidates args)))
                                      (unvisited visited pool)))
                  <= Z.max 1 (a_max_candidates args))%Z
                 /\ (length (listed <$> take (Z.to_nat (Z.max 1 (a_max_candidates args)))
                                          (unvisited visited pool))
                     <= length (unvisited visited pool))%nat).
  { rewrite length_fmap, length_take. lia. }
  destruct Hlen as [Hlen1 Hlen2].
  destruct (unvisited visited pool) as [|c0 rest] eqn:Ef.
  { exists p, nav. split; [done|]. split; [done|]. cbn zeta. fold pool. rewrite ?Ef.
    cbn [n_candidates n_candidate_count n_status n_selected n_returncode n_visited_count].
    split; [done|]. split; [done|]. split; [done|]. split; [done|].
    split; [split; [intros _; by left|done]|]. split; [by left|].
    split; [done|]. split; [split; [by left|done]|].
    split; [|done]. by destruct (a_dry_run args). }
  destruct ((c0 :: rest) !! Z.to_nat (Z.max 0 (a_select_index args)))
    as [c|] eqn:Ei.
  2:{ exists p, nav. split; [done|]. split; [done|]. cbn zeta. fold pool. rewrite ?Ef.
      cbn [n_candidates n_candidate_count n_status n_selected n_returncode n_visited_count].
      split; [done|]. split; [done|]. split; [done|]. split; [done|].
      split; [split; [done|by intros [?|[?|?]]]|]. split; [by right|].
      split; [done|].
      split; [split; [|done]|].
      - right. split; [done|]. apply lookup_ge_None in Ei. lia.
      - split; [|done]. by destruct (a_dry_run args). }
  assert (Hoc : offerable pool visited c).
  { apply unvisited_offerable; [|done]. rewrite Ef. by apply list_elem_of_lookup_2 in Ei. }
  assert (Hcmd : is_xlb_command (_to_input_from_exec_title (nav_query_exec_title c)) = true).
  { destruct Hoc as (_ & Hne & _). rewrite <- to_input_strip.
    by apply to_input_command; [|apply strip_idem]. }
  destruct (a_dry_run args) eqn:Edry.
  { exists p, nav. split; [done|]. split; [done|]. cbn zeta. fold pool. rewrite ?Ef.
    cbn [n_candidates n_candidate_count n_status n_selected n_returncode n_visited_count].
    split; [done|]. split; [done|]. split; [done|]. split; [done|].
    split; [split; [intros _; right; by left|done]|]. split; [by left|].
    split; [done|]. split; [|done].
    exists c. rewrite to_input_strip. repeat (split; [done|]). done. }
  destruct (run_retrieve_for_explore disk
              (_to_input_from_exec_title (strip (nav_query_exec_title c)))
              (a_output_mode args) (a_storage_profile args) (a_network_confirmed args))
    as [returncode disk1] eqn:Er.
  assert (Hcode : ((if (returncode =? 0)%Z then 0%Z else 1%Z) = 0%Z
                   <-> succeeded (if (returncode =? 0)%Z then Executed else ExecuteFailed))
                  /\ ((if (returncode =? 0)%Z then 0%Z else 1%Z) = 0%Z
                      \/ (if (returncode =? 0)%Z then 0%Z else 1%Z) = 1%Z)).
  { destruct (returncode =? 0)%Z.
    - split; [|by left]. split; [intros _; right; by right|done].
    - split; [|by right]. split; [done|by intros [?|[?|?]]]. }
  destruct Hcode as [Hcode1 Hcode2].
  assert (Hsel : exists c',
             (c0 :: rest) !! Z.to_nat (Z.max 0 (a_select_index args)) = Some c'
             /\ offerable pool visited c'
             /\ mkNavItem (nav_title c) (nav_query_kind c) (nav_query_source c)
                  (nav_query_cmd c) (strip (nav_query_exec_title c))
                = mkNavItem (nav_title c') (nav_query_kind c') (nav_query_source c')
                    (nav_query_cmd c') (strip (nav_query_exec_title c'))
             /\ _to_input_from_exec_title (strip (nav_query_exec_title c))
                = _to_input_from_exec_title (nav_query_exec_title c')
             /\ is_xlb_command (_to_input_from_exec_title (strip (nav_query_exec_title c)))
                = true
             /\ (if (returncode =? 0)%Z then Executed else ExecuteFailed) <> NoCandidate
             /\ (if (returncode =? 0)%Z then Executed else ExecuteFailed)
                <> InvalidSelectIndex).
  { exists c. rewrite to_input_strip. repeat (split; [done|]).
    split; by destruct (returncode =? 0)%Z. }
  destruct (negb (is_empty (a_visited_file args)) && a_update_visited args
            && (returncode =? 0)%Z
            && negb (is_empty (_canonical_edge_key (strip (nav_query_exec_title c)))))
    eqn:Eup.
  - apply andb_true_iff in Eup as [Eup Hkey]. apply andb_true_iff in Eup as [Eup Hrc].
    apply andb_true_iff in Eup as [Hvf Hupd].
    apply negb_true_iff, is_empty_false in Hvf, Hkey.
    exists p, nav. split; [done|]. split; [done|]. cbn zeta. fold pool. rewrite ?Ef.
    cbn [n_candidates n_candidate_count n_status n_selected n_returncode n_visited_count].
    split; [done|]. split; [done|]. split; [done|]. split; [done|].
    split; [done|]. split; [done|].
    split; [split; [by destruct (returncode =? 0)%Z|done]|].
    split; [done|]. split; [done|].
    rewrite Hrc. split; [done|]. split; [done|]. split; [done|].
    exists c, (_canonical_edge_key (strip (nav_query_exec_title c))).
    split; [done|]. split; [done|]. split; [done|]. split; [done|].
    unfold save_visited_exec_titles. apply save_visited_written.
  - exists p, nav. split; [done|]. split; [done|]. cbn zeta. fold pool. rewrite ?Ef.
    cbn [n_candidates n_candidate_count n_status n_selected n_returncode n_visited_count].
    split; [done|]. split; [done|]. split; [done|]. split; [done|].
    split; [done|]. split; [done|].
    split; [split; [by destruct (returncode =? 0)%Z|done]|].
    split; [done|]. done.
Qed.

End ExploreNextFacts.

(** ** The tests of the repository on the commands *)
Section CommandExamples.
Import Parser Graph Explore Links Opening Edges ExploreNext Concrete Samples.
#[local] Existing Instance reversing_lib.

(** The dry run of the test: two URLs counted, both with the status
    ["dry_run"]. *)
Example open_urls_dry_run_test :
  (open_urls_in_local_app every_action_succeeds no_sleep tt test_urls (lit "atlas")
     true true (lit "/Applications/ChatGPT Atlas.app") 0 false).1
  = mkOpenReport 2 2 0 [(lit "https://example.com/a#x", DryRun);
                        (lit "https://example.com/b", DryRun)].
Proof. vm_compute. reflexivity. Qed.

(** The test of [graph_neighbors] on an index directory with one
    database, built from the nodes of the document. *)
Example graph_neighbors_reads_index_dir_test :
  match graph_neighbors
          (Some [(lit "a.db",
                  Indexed (Index.nodes
                             (Index.build_index false
                                (parse_markdown_to_nodes neighbors_doc (lit ">seed/")))))])
          (lit "->vibe coding/:") 50 [] with
  | Some (found, edge_pool_size) =>
      (3 <= edge_pool_size)%nat
      /\ length (inbound_edges found) = 1%nat
      /\ length (outbound_edges found) = 2%nat
      /\ (u_topic <$> upstream_topics found) = [lit "Awesome Search"]
  | None => False
  end.
Proof. vm_compute. repeat split. lia. Qed.

(** The dry run of the test of [explore-next]. *)
Example explore_next_dry_run_test :
  exists r,
    _cmd_explore_next quiet_retrieve ∅ (MetaDict (lit "nav.json"))
      (fun _ => NavPayload test_navigation) dry_run_args
    = Some (NextResult r, 0%Z, ∅)
    /\ n_status r = Selected
    /\ n_selected r
       = Some (mkNavItem (lit "AI Model") (lit "topic_nav") (lit "searchin")
                 (lit ">AI Model") (lit ">AI Model/"),
               lit "xlb >AI Model/").
Proof. eexists. split; [vm_compute; reflexivity|]. split; reflexivity. Qed.

End CommandExamples.
